(** * japan-law: reference extraction and citation graph engine

    A shallow embedding of the reference extractor
    ([scripts/analyze_worker.cjs]), the coordinator's merge
    ([scripts/analyze_references_multi.ts]) and the reachability and path
    code ([scripts/graph_worker.ts], [scripts/build_full_graph.ts],
    [scripts/build_graph_multi.ts]), with the properties the specification
    states about them.

    Conventions. A JavaScript string is the list of its UTF-16 code units.
    A [Map] whose order of iteration matters is an association list in
    insertion order; a [Map] that is only looked up is a [gmap], a [Set]
    that is only tested a [gset]. A plain object keyed by strings of the
    input is the [gmap] of its own properties, read and written through
    [JsObject], which has what the object inherits from [Object.prototype]
    and the setter [__proto__]. [null] and [undefined] are [None]. A call
    that can throw returns a [completion]. A [while] loop runs on fuel and
    returns [None] when the fuel runs out; for each loop the fuel given is
    shown to be enough. Files that cannot be read, progress messages and
    the timestamps of the outputs are left out. *)

From Stdlib Require Import NArith ZArith Ascii String.
From stdpp Require Import ssreflect gmap strings list fin_maps sorting.

(** ** JavaScript strings

    A JavaScript string is a sequence of UTF-16 code units; [length],
    [indexOf], [substring], indexing and the regular expressions of the
    source (none has the [u] flag) all work on code units. *)

Abbreviation jsstring := (list N).

Module Js.

Fixpoint bytes_of (s : string) : list N :=
  match s with
  | EmptyString => []
  | String a s' => N_of_ascii a :: bytes_of s'
  end.

Definition cont (b : N) : N := N.land b 0x3F.

(** The code points of a UTF-8 byte sequence, as UTF-16 code units (a code
    point above U+FFFF becomes a surrogate pair). This reads the string
    literals of this file, which the source has as JavaScript literals. *)
Fixpoint utf16_of_utf8 (bs : list N) : jsstring :=
  match bs with
  | [] => []
  | b0 :: r =>
      if (b0 <? 0x80)%N then b0 :: utf16_of_utf8 r
      else if (b0 <? 0xE0)%N then
        match r with
        | b1 :: r1 =>
            N.lor (N.shiftl (N.land b0 0x1F) 6) (cont b1) :: utf16_of_utf8 r1
        | _ => []
        end
      else if (b0 <? 0xF0)%N then
        match r with
        | b1 :: b2 :: r2 =>
            N.lor (N.shiftl (N.land b0 0x0F) 12)
                  (N.lor (N.shiftl (cont b1) 6) (cont b2)) :: utf16_of_utf8 r2
        | _ => []
        end
      else
        match r with
        | b1 :: b2 :: b3 :: r3 =>
            let cp := N.lor (N.shiftl (N.land b0 0x07) 18)
                        (N.lor (N.shiftl (cont b1) 12)
                           (N.lor (N.shiftl (cont b2) 6) (cont b3))) in
            let v := (cp - 0x10000)%N in
            (0xD800 + N.shiftr v 10)%N :: (0xDC00 + N.land v 0x3FF)%N
              :: utf16_of_utf8 r3
        | _ => []
        end
  end.

Definition str (s : string) : jsstring := utf16_of_utf8 (bytes_of s).

(** [a.startsWith(b)], used by [indexOf]. *)
Fixpoint starts_with (p s : jsstring) : bool :=
  match p, s with
  | [], _ => true
  | c :: p', d :: s' => (c =? d)%N && starts_with p' s'
  | _ :: _, [] => false
  end.

(** [s.indexOf(p)]: the first position where [p] occurs, [None] for -1. *)
Fixpoint indexOf_from (p s : jsstring) (i : nat) : option nat :=
  if starts_with p s then Some i
  else match s with
       | [] => None
       | _ :: s' => indexOf_from p s' (S i)
       end.

Definition indexOf (s p : jsstring) : option nat := indexOf_from p s 0.

(** [s.substring(a, b)] for [0 <= a <= b]. *)
Definition substring (s : jsstring) (a b : nat) : jsstring :=
  take (b - a) (drop a s).

End Js.

(** ** Regular expressions

    The fragment of ECMAScript regular expressions the source uses:
    characters, character classes, sequence, alternation, greedy and lazy
    bounded repetition, capturing groups. Matching is backtracking; the
    matcher returns the ways a pattern can match at a position in the order
    the backtracking search of the language tries them, so the head of the
    list is the match the engine reports. *)

Module Regex.

Inductive regex : Type :=
| RChar (c : N)
| RClass (negated : bool) (ranges : list (N * N))
| REps
| RSeq (a b : regex)
| RAlt (a b : regex)
| RRep (greedy : bool) (lo : nat) (hi : option nat) (a : regex)
| RGroup (idx : nat) (a : regex).

(** A literal string in a pattern. *)
Definition RStr (s : jsstring) : regex :=
  foldr (fun c r => RSeq (RChar c) r) REps s.

Definition ROpt (a : regex) : regex := RRep true 0 (Some 1) a.
Definition RPlus (a : regex) : regex := RRep true 1 None a.

(** A match in progress: the position reached and the groups captured so
    far (most recent first), each as the half-open range it spans. *)
Record mstate : Type := MState { pos : nat; caps : list (nat * (nat * nat)) }.

Definition in_ranges (c : N) (ranges : list (N * N)) : bool :=
  existsb (fun r => (fst r <=? c)%N && (c <=? snd r)%N) ranges.

Definition step_char (ok : N → bool) (s : jsstring) (st : mstate) : list mstate :=
  match s !! pos st with
  | Some c => if ok c then [MState (S (pos st)) (caps st)] else []
  | None => []
  end.

(** The repetition [a{lo,hi}] ([greedy]) or [a{lo,hi}?]: [step] matches
    [a] once, [n] more rounds are allowed and [cnt] are done. Once [lo]
    rounds are done, a round that matches the empty string is not
    taken. *)
Fixpoint rep_loop (step : mstate → list mstate) (greedy : bool) (lo : nat)
    (n cnt : nat) (st : mstate) : list mstate :=
  let more :=
    match n with
    | 0 => []
    | S n' =>
        st1 ← filter (fun st1 => cnt < lo ∨ pos st < pos st1) (step st);
        rep_loop step greedy lo n' (S cnt) st1
    end in
  if (cnt <? lo)%nat then more
  else if greedy then more ++ [st] else st :: more.

Fixpoint rmatch (r : regex) (s : jsstring) (st : mstate) : list mstate :=
  match r with
  | RChar c => step_char (N.eqb c) s st
  | RClass neg ranges => step_char (fun c => xorb neg (in_ranges c ranges)) s st
  | REps => [st]
  | RSeq a b => st1 ← rmatch a s st; rmatch b s st1
  | RAlt a b => rmatch a s st ++ rmatch b s st
  | RRep greedy lo hi a =>
      rep_loop (rmatch a s) greedy lo (default (lo + length s) hi) 0 st
  | RGroup k a =>
      (fun st1 => MState (pos st1) ((k, (pos st, pos st1)) :: caps st1))
        <$> rmatch a s st
  end.

(** The least number of code units a match of the pattern spans. *)
Fixpoint min_len (r : regex) : nat :=
  match r with
  | RChar _ | RClass _ _ => 1
  | REps => 0
  | RSeq a b => min_len a + min_len b
  | RAlt a b => min_len a `min` min_len b
  | RRep _ lo _ a => lo * min_len a
  | RGroup _ a => min_len a
  end.

(** Every match of [step] spans at least [k] code units and stays within
    the string. *)
Definition advances (k : nat) (s : jsstring) (step : mstate → list mstate) : Prop :=
  ∀ st st', st' ∈ step st →
    pos st + k ≤ pos st' ∧ (pos st ≤ length s → pos st' ≤ length s).

(** The result of [exec]: where the match starts and ends, and its groups. *)
Record rmatched : Type :=
  RMatched { m_start : nat; m_end : nat; m_caps : list (nat * (nat * nat)) }.

(** [match[k]] for a capturing group: its text, or [None] when the group
    did not take part in the match. *)
Definition group (s : jsstring) (m : rmatched) (k : nat) : option jsstring :=
  match list_find (fun e => fst e = k) (m_caps m) with
  | Some (_, (_, (a, b))) => Some (Js.substring s a b)
  | None => None
  end.

Definition match_at (r : regex) (s : jsstring) (i : nat) : option rmatched :=
  match rmatch r s (MState i []) with
  | st :: _ => Some (RMatched i (pos st) (caps st))
  | [] => None
  end.

(** The search of [exec]: the first start position at or after [i] where
    the pattern matches. *)
Fixpoint search (r : regex) (s : jsstring) (fuel i : nat) : option rmatched :=
  match match_at r s i with
  | Some m => Some m
  | None =>
      match fuel with
      | 0 => None
      | S fuel' => search r s fuel' (S i)
      end
  end.

(** [re.exec(s)] for a pattern with the [g] flag whose [lastIndex] is
    [lastIndex]; the new [lastIndex] is the end of the match. *)
Definition exec (r : regex) (s : jsstring) (lastIndex : nat) : option rmatched :=
  if decide (length s < lastIndex) then None
  else search r s (length s - lastIndex) lastIndex.

(** [while ((match = re.exec(s)) !== null) ...] started with
    [lastIndex = 0]: the matches the loop sees, in order. A match that
    leaves [lastIndex] where it was would be found again for ever; the
    loop is [None] when its fuel runs out. *)
Fixpoint exec_loop (fuel : nat) (r : regex) (s : jsstring) (lastIndex : nat)
  : option (list rmatched) :=
  match fuel with
  | 0 => None
  | S fuel' =>
      match exec r s lastIndex with
      | None => Some []
      | Some m => (m ::.) <$> exec_loop fuel' r s (m_end m)
      end
  end.

Definition exec_all (r : regex) (s : jsstring) : option (list rmatched) :=
  exec_loop (S (S (length s))) r s 0.

(** [s.match(r)] for a pattern anchored with [^] and without the [g]
    flag. *)
Definition match_prefix (r : regex) (s : jsstring) : option rmatched :=
  match_at r s 0.

End Regex.

(** ** JavaScript [Map]

    A [Map] keeps its keys in insertion order, and [set] on a key already
    present replaces the value where the key stands. *)

Module JsMap.
Section JsMap.
Context {K V : Type} `{EqDecision K}.

Fixpoint get (k : K) (m : list (K * V)) : option V :=
  match m with
  | [] => None
  | (k', v) :: m' => if decide (k = k') then Some v else get k m'
  end.

Fixpoint set (k : K) (v : V) (m : list (K * V)) : list (K * V) :=
  match m with
  | [] => [(k, v)]
  | (k', v') :: m' =>
      if decide (k = k') then (k, v) :: m' else (k', v') :: set k v m'
  end.

Definition has (k : K) (m : list (K * V)) : bool := bool_decide (is_Some (get k m)).
End JsMap.
End JsMap.

(** [Array.prototype.sort(cmp)]: a stable sort; [a] stays before [b] unless
    [cmp a b > 0]. *)
Section js_sort.
Context {A : Type} (cmp : A → A → Z).

Fixpoint js_insert (x : A) (l : list A) : list A :=
  match l with
  | [] => [x]
  | y :: l' => if (0 <? cmp x y)%Z then y :: js_insert x l' else x :: l
  end.

Definition js_sort (l : list A) : list A := foldr js_insert [] l.
End js_sort.

(** ** Plain objects

    An object made by [{}] or by [JSON.parse] has own properties and the
    prototype [Object.prototype]. Reading a key that is no own property
    finds what the prototype has under that name; writing the key
    [__proto__] runs the setter the prototype has for it. *)

Module JsObject.

(** How a call ends: it returns a value, or it throws (in the code
    modelled here always a [TypeError]). *)
Inductive completion (A : Type) : Type :=
| Returned (a : A)
| Thrown.
Arguments Returned {A} a.
Arguments Thrown {A}.

(** A step that can run out of fuel ([None]) or throw, followed by the
    rest of the code. *)
Definition andThen {A B : Type} (m : option (completion A))
    (f : A → option (completion B)) : option (completion B) :=
  match m with
  | Some (Returned a) => f a
  | Some Thrown => Some Thrown
  | None => None
  end.

(** A loop whose body can throw. *)
Fixpoint foldC {A B : Type} (f : A → B → completion A) (a : A) (l : list B)
  : completion A :=
  match l with
  | [] => Returned a
  | x :: l' =>
      match f a x with
      | Returned a' => foldC f a' l'
      | Thrown => Thrown
      end
  end.

Definition protoKey : jsstring := Js.str "__proto__".

(** The names of the properties of [Object.prototype] in Node.js: eleven
    methods and the accessor [__proto__]. *)
Definition objectPrototypeNames : list jsstring :=
  [ Js.str "constructor"; Js.str "__defineGetter__"; Js.str "__defineSetter__";
    Js.str "hasOwnProperty"; Js.str "__lookupGetter__"; Js.str "__lookupSetter__";
    Js.str "isPrototypeOf"; Js.str "propertyIsEnumerable"; Js.str "toString";
    Js.str "valueOf"; protoKey; Js.str "toLocaleString" ].

(** [obj[key]] for a plain object with the own properties [own] and the
    prototype [Object.prototype]: an own property; or a member of the
    prototype, which is a function or, for [__proto__], the prototype
    itself; or [undefined]. *)
Inductive property (A : Type) : Type :=
| Own (a : A)
| Inherited
| Missing.
Arguments Own {A} a.
Arguments Inherited {A}.
Arguments Missing {A}.

Definition objGet {A : Type} (own : gmap jsstring A) (key : jsstring) : property A :=
  match own !! key with
  | Some a => Own a
  | None => if decide (key ∈ objectPrototypeNames) then Inherited else Missing
  end.

(** [obj[key] = value] on a plain object that nothing reads by key
    afterwards. For the key [__proto__] the assignment runs the setter of
    [Object.prototype], which makes an object value the prototype and
    ignores a number: either way the object gets no own property. Any
    other key becomes an own property. *)
Definition objSet {A : Type} (key : jsstring) (value : A) (own : gmap jsstring A)
  : gmap jsstring A :=
  if decide (key = protoKey) then own else <[ key := value ]> own.

(** [Object.assign(target, source)], and a loop
    [for (const [key, value] of map) obj[key] = f(value)]: the own
    properties of the source are assigned one by one. *)
Definition objAssign {A B : Type} (f : B → A) (target : gmap jsstring A)
    (source : gmap jsstring B) : gmap jsstring A :=
  map_fold (fun key value obj => objSet key (f value) obj) target source.
End JsObject.

(** ** The reference extractor ([scripts/analyze_worker.cjs]) *)

Record LawIndex : Type := mkLaw {
  id : jsstring;
  lawNum : option jsstring;
  title : jsstring;
  category : option jsstring
}.

Inductive RefType : Type :=
| law_name | article_ref | law_num_ref | unknown_law | amendment_ref.

Record Reference : Type := mkRef {
  from_law_id : jsstring;
  from_law_title : jsstring;
  to_law_id : option jsstring;
  to_law_title : jsstring;
  to_law_num : option jsstring;
  article : option jsstring;
  paragraph : option jsstring;
  item : option jsstring;
  ref_type : RefType
}.

(** A value of the abbreviation table: [{ full_name, law_id, count }]. *)
Record Abbreviation : Type := mkAbbr {
  full_name : jsstring;
  law_id : option jsstring
}.

#[global] Instance LawIndex_eq_dec : EqDecision LawIndex.
Proof. solve_decision. Defined.
#[global] Instance RefType_eq_dec : EqDecision RefType.
Proof. solve_decision. Defined.
#[global] Instance Reference_eq_dec : EqDecision Reference.
Proof. solve_decision. Defined.

(** A value in a boolean position: [null], [undefined] and the empty string
    are false. *)
Definition truthy (o : option jsstring) : bool :=
  match o with
  | Some (_ :: _) => true
  | _ => false
  end.

(** A registry of three laws and a reference between two laws, for the
    examples. *)
Definition sampleRegistry : list LawIndex :=
  [ {| id := Js.str "A"; lawNum := None; title := Js.str "民法"; category := None |};
    {| id := Js.str "B"; lawNum := None; title := Js.str "会社法"; category := None |};
    {| id := Js.str "C"; lawNum := None; title := Js.str "商法"; category := None |} ].

Definition sampleRef (from to : jsstring) (art : option jsstring) : Reference :=
  {| from_law_id := from; from_law_title := [];
     to_law_id := Some to; to_law_title := [];
     to_law_num := None; article := art; paragraph := None; item := None;
     ref_type := law_name |}.

Definition sampleReferences : list Reference :=
  [ sampleRef (Js.str "B") (Js.str "A") None;
    sampleRef (Js.str "C") (Js.str "A") None;
    sampleRef (Js.str "C") (Js.str "A") (Some (Js.str "第一条")) ].

Module Patterns.
Import Regex.

Definition chars (s : string) : list (N * N) := (fun c => (c, c)) <$> Js.str s.

Definition range (a b : string) : list (N * N) :=
  match Js.str a, Js.str b with
  | [x], [y] => [(x, y)]
  | _, _ => []
  end.

Definition lit (s : string) : regex := RStr (Js.str s).

Definition cat (rs : list regex) : regex := foldr RSeq REps rs.

Definition alt (rs : list regex) : regex :=
  match rs with
  | [] => REps
  | r :: rs' => foldl RAlt r rs'
  end.

(** [[一-龠ぁ-んァ-ヶ]] *)
Definition cjk_kana : list (N * N) :=
  range "一" "龠" ++ range "ぁ" "ん" ++ range "ァ" "ヶ".

(** [[一二三四五六七八九十百千〇０-９0-9]] *)
Definition article_digit : list (N * N) :=
  chars "一二三四五六七八九十百千〇" ++ range "０" "９" ++ range "0" "9".

(** [[一二三四五六七八九十〇０-９0-9]] *)
Definition branch_digit : list (N * N) :=
  chars "一二三四五六七八九十〇" ++ range "０" "９" ++ range "0" "9".

(** [(?:明治|大正|昭和|平成|令和)[^）]{3,50}?号] *)
Definition era_number : regex :=
  cat [ alt [lit "明治"; lit "大正"; lit "昭和"; lit "平成"; lit "令和"];
        RRep false 3 (Some 50) (RClass true (chars "）"));
        lit "号" ].

(** [/[一-龠ぁ-んァ-ヶ]/] *)
Definition beforeCharPattern : regex := RClass false cjk_kana.

(** [/^第([…]+)条(?:の([…]+))?(?:第([…]+)項)?(?:第([…]+)号)?/] *)
Definition artPattern : regex :=
  cat [ lit "第"; RGroup 1 (RPlus (RClass false article_digit)); lit "条";
        ROpt (cat [lit "の"; RGroup 2 (RPlus (RClass false branch_digit))]);
        ROpt (cat [lit "第"; RGroup 3 (RPlus (RClass false branch_digit)); lit "項"]);
        ROpt (cat [lit "第"; RGroup 4 (RPlus (RClass false branch_digit)); lit "号"]) ].

(** [/^（((?:明治|大正|昭和|平成|令和)[^）]{3,50}?号)）/] *)
Definition numPattern : regex :=
  cat [ lit "（"; RGroup 1 era_number; lit "）" ].

(** [/([一-龠ぁ-んァ-ヶａ-ｚＡ-Ｚa-zA-Z・]{2,50}?(?:法|令|規則|条例))（((?:明治|大正|昭和|平成|令和)[^）]{3,50}?号)）/g] *)
Definition unknownLawWithNumPattern : regex :=
  cat [ RGroup 1
          (cat [ RRep false 2 (Some 50)
                   (RClass false
                      (cjk_kana ++ range "ａ" "ｚ" ++ range "Ａ" "Ｚ"
                         ++ range "a" "z" ++ range "A" "Z" ++ chars "・"));
                 alt [lit "法"; lit "令"; lit "規則"; lit "条例"] ]);
        lit "（"; RGroup 2 era_number; lit "）" ].

(** [/([一-龠ぁ-んァ-ヶ]{2,50}?)の一部を改正する(法律|政令|省令|規則)/g] *)
Definition amendmentPattern : regex :=
  cat [ RGroup 1 (RRep false 2 (Some 50) (RClass false cjk_kana));
        lit "の一部を改正する";
        RGroup 2 (alt [lit "法律"; lit "政令"; lit "省令"; lit "規則"]) ].

(** [re.test(s)] for a pattern without flags. *)
Definition test (r : regex) (s : jsstring) : bool :=
  bool_decide (is_Some (search r s (length s) 0)).

End Patterns.

Module Extractor.
Import Regex Patterns.

(** The extractor's state: the references pushed so far and the [seen]
    set. *)
Definition xstate : Type := list Reference * gset jsstring.

(** [s[i]]: the code unit at [i] as a string, the empty string for the
    position before the start. *)
Definition beforeChar (xmlContent : jsstring) (p : nat) : jsstring :=
  match p with
  | 0 => []
  | S p' => option_list (xmlContent !! p')
  end.

(** One round of the loop of phase 1, for the candidate [{ name, law }]. *)
Definition phase1_step (xmlContent : jsstring) (fromLaw : LawIndex)
    (st : xstate) (cand : jsstring * LawIndex) : xstate :=
  let '(references, seen) := st in
  let '(name, law) := cand in
  if decide (id law = id fromLaw) then st
  else if decide (id law ∈ seen) then st
  else if decide (length name < 2) then st
  else
    match Js.indexOf xmlContent name with
    | None => st
    | Some p =>
        let before := beforeChar xmlContent p in
        if bool_decide (before ≠ []) && test beforeCharPattern before then st
        else
          let seen := {[ id law ]} ∪ seen in
          let afterText :=
            Js.substring xmlContent (p + length name) (p + length name + 50) in
          let artMatch := match_prefix artPattern afterText in
          let '(article, paragraph, item, refType) :=
            match artMatch with
            | Some m =>
                let g k := group afterText m k in
                (Some (Js.str "第" ++ default [] (g 1) ++ Js.str "条"
                         ++ (if truthy (g 2) then Js.str "の" ++ default [] (g 2) else [])),
                 (if truthy (g 3) then Some (Js.str "第" ++ default [] (g 3) ++ Js.str "項")
                  else None),
                 (if truthy (g 4) then Some (Js.str "第" ++ default [] (g 4) ++ Js.str "号")
                  else None),
                 article_ref)
            | None => (None, None, None, law_name)
            end in
          let numMatch := match_prefix numPattern afterText in
          let refType :=
            match numMatch with
            | Some _ => law_num_ref
            | None => refType
            end in
          (references ++
             [ {| from_law_id := id fromLaw;
                  from_law_title := title fromLaw;
                  to_law_id := Some (id law);
                  to_law_title := name;
                  to_law_num := lawNum law;
                  article := article;
                  paragraph := paragraph;
                  item := item;
                  ref_type := refType |} ],
           seen)
    end.

Section lookup.
Context (titleToLaw abbrevMap : list (jsstring * LawIndex)).

(** [titleToLaw.get(name) || abbrevMap.get(name)] *)
Definition lookupLaw (name : jsstring) : option LawIndex :=
  match JsMap.get name titleToLaw with
  | Some law => Some law
  | None => JsMap.get name abbrevMap
  end.

Definition knownRef (fromLaw knownLaw : LawIndex) (name : jsstring)
    (art : option jsstring) (ty : RefType) : Reference :=
  {| from_law_id := id fromLaw;
     from_law_title := title fromLaw;
     to_law_id := Some (id knownLaw);
     to_law_title := name;
     to_law_num := lawNum knownLaw;
     article := art; paragraph := None; item := None;
     ref_type := ty |}.

(** One round of the loop of phase 2, for a match of
    [unknownLawWithNumPattern]. *)
Definition phase2_step (xmlContent : jsstring) (fromLaw : LawIndex)
    (st : xstate) (m : rmatched) : xstate :=
  let '(references, seen) := st in
  let lawName := default [] (group xmlContent m 1) in
  let lawNum := group xmlContent m 2 in
  match lookupLaw lawName with
  | Some knownLaw =>
      if decide ((id knownLaw ∉ seen) ∧ (id knownLaw ≠ id fromLaw)) then
        (references ++ [knownRef fromLaw knownLaw lawName None law_num_ref],
         {[ id knownLaw ]} ∪ seen)
      else st
  | None =>
      let key := Js.str "unknown:" ++ lawName in
      if decide (key ∉ seen) then
        (references ++
           [ {| from_law_id := id fromLaw;
                from_law_title := title fromLaw;
                to_law_id := None;
                to_law_title := lawName;
                to_law_num := lawNum;
                article := None; paragraph := None; item := None;
                ref_type := unknown_law |} ],
         {[ key ]} ∪ seen)
      else st
  end.

(** One round of the loop of phase 3, for a match of
    [amendmentPattern]. *)
Definition phase3_step (xmlContent : jsstring) (fromLaw : LawIndex)
    (st : xstate) (m : rmatched) : xstate :=
  let '(references, seen) := st in
  let originalLawName := default [] (group xmlContent m 1) in
  match lookupLaw originalLawName with
  | Some originalLaw =>
      if decide ((id originalLaw ∉ seen) ∧ (id originalLaw ≠ id fromLaw)) then
        (references ++
           [knownRef fromLaw originalLaw originalLawName None amendment_ref],
         {[ id originalLaw ]} ∪ seen)
      else st
  | None => st
  end.

(** [extractReferences]. The two patterns are arguments, as in the
    source; the result is [None] when one of the two [exec] loops does
    not end. *)
Definition extractReferences (xmlContent : jsstring) (fromLaw : LawIndex)
    (knownLawNames : list (jsstring * LawIndex))
    (unknownLawWithNumPattern amendmentPattern : regex)
  : option (list Reference) :=
  let st1 := foldl (phase1_step xmlContent fromLaw) ([], ∅) knownLawNames in
  ms2 ← exec_all unknownLawWithNumPattern xmlContent;
  let st2 := foldl (phase2_step xmlContent fromLaw) st1 ms2 in
  ms3 ← exec_all amendmentPattern xmlContent;
  let st3 := foldl (phase3_step xmlContent fromLaw) st2 ms3 in
  Some st3.1.
End lookup.

(** The tables the worker builds from its message. [abbreviations] is the
    sequence [Object.entries] gives. *)
Definition titleToLaw (lawIndex : list LawIndex) : list (jsstring * LawIndex) :=
  foldl (fun m law => JsMap.set (title law) law m) [] lawIndex.

Definition lawIdMap (lawIndex : list LawIndex) : list (jsstring * LawIndex) :=
  foldl (fun m law => JsMap.set (id law) law m) [] lawIndex.

Definition abbrevMap (lawIndex : list LawIndex)
    (abbreviations : list (jsstring * Abbreviation)) : list (jsstring * LawIndex) :=
  foldl (fun m '(key, value) =>
           if truthy (law_id value) then
             match JsMap.get (default [] (law_id value)) (lawIdMap lawIndex) with
             | Some law => JsMap.set key law m
             | None => m
             end
           else m)
        [] abbreviations.

Definition knownLawNames (lawIndex : list LawIndex)
    (abbreviations : list (jsstring * Abbreviation)) : list (jsstring * LawIndex) :=
  js_sort (fun a b => (Z.of_nat (length b.1) - Z.of_nat (length a.1))%Z)
    (((fun law => (title law, law)) <$> lawIndex) ++ abbrevMap lawIndex abbreviations).

(** What the worker does for one file [<lawId>.xml] with content
    [xmlContent]: nothing when the id is not in the index. *)
Definition analyzeFile (lawIndex : list LawIndex)
    (abbreviations : list (jsstring * Abbreviation))
    (lawId xmlContent : jsstring) : option (list Reference) :=
  match JsMap.get lawId (lawIdMap lawIndex) with
  | None => Some []
  | Some fromLaw =>
      extractReferences (titleToLaw lawIndex) (abbrevMap lawIndex abbreviations)
        xmlContent fromLaw (knownLawNames lawIndex abbreviations)
        unknownLawWithNumPattern amendmentPattern
  end.

(** The worker on its chunk of files: the references of all of them, in
    order. *)
Fixpoint worker (lawIndex : list LawIndex)
    (abbreviations : list (jsstring * Abbreviation))
    (xmlFiles : list (jsstring * jsstring)) : option (list Reference) :=
  match xmlFiles with
  | [] => Some []
  | (lawId, xmlContent) :: rest =>
      refs ← analyzeFile lawIndex abbreviations lawId xmlContent;
      more ← worker lawIndex abbreviations rest;
      Some (refs ++ more)
  end.

(** What every reference of a document of [fromLaw] satisfies. *)
Definition good_ref (lawIndex : list LawIndex) (fromLaw : LawIndex) (ref : Reference) : Prop :=
  from_law_id ref = id fromLaw
  ∧ ∀ t, to_law_id ref = Some t → t ≠ id fromLaw ∧ ∃ law, law ∈ lawIndex ∧ id law = t.

(** The scenario of the specification: the registry holds 民法 under the
    id A and 会社法 under the id B. *)
Definition scenarioRegistry (numA numB catA catB : option jsstring) : list LawIndex :=
  [ {| id := Js.str "A"; lawNum := numA; title := Js.str "民法"; category := catA |};
    {| id := Js.str "B"; lawNum := numB; title := Js.str "会社法"; category := catB |} ].

End Extractor.

(** ** Merging the workers' results ([scripts/analyze_references_multi.ts]) *)

Module Coordinator.
Import JsObject.

(** [a || b] on strings. *)
Definition or_else (a : option jsstring) (b : jsstring) : jsstring :=
  if truthy a then default [] a else b.

(** The key of [dedupeReferences]:
    [from_law_id : (to_law_id || to_law_title) : (article || empty string)], the
    three parts joined by colons. *)
Definition dedupKey (ref : Reference) : jsstring :=
  from_law_id ref ++ Js.str ":" ++ or_else (to_law_id ref) (to_law_title ref)
    ++ Js.str ":" ++ or_else (article ref) [].

(** [refs.filter(...)] with the set [seen] the callback updates. *)
Fixpoint dedupe_filter (seen : gset jsstring) (refs : list Reference) : list Reference :=
  match refs with
  | [] => []
  | ref :: rest =>
      if decide (dedupKey ref ∈ seen) then dedupe_filter seen rest
      else ref :: dedupe_filter ({[ dedupKey ref ]} ∪ seen) rest
  end.

Definition dedupeReferences (refs : list Reference) : list Reference :=
  dedupe_filter ∅ refs.

Record Referrer : Type := mkReferrer {
  r_law_id : jsstring;
  r_law_title : jsstring;
  count : nat
}.

Record BacklinkEntry : Type := mkEntry {
  e_law_id : jsstring;
  e_law_title : jsstring;
  referenced_by : list Referrer
}.

(** [backlinks.backlinks], a plain object that the third loop reads by
    key. An assignment to the key [__proto__] makes the entry the prototype
    of the object ([b_proto]; the prototype of the entry is
    [Object.prototype]) and gives the object no own property. *)
Record backlinksObj : Type := BacklinksObj {
  b_own : gmap jsstring BacklinkEntry;
  b_proto : option BacklinkEntry
}.

(** [backlinks.backlinks[key] = entry] *)
Definition backlinksSet (key : jsstring) (entry : BacklinkEntry) (b : backlinksObj)
  : backlinksObj :=
  if decide (key = protoKey) then {| b_own := b_own b; b_proto := Some entry |}
  else {| b_own := <[ key := entry ]> (b_own b); b_proto := b_proto b |}.

(** What [backlinks.backlinks[key]] is: an own entry; the entry that is
    the prototype, for the key [__proto__]; another value that is truthy
    (a property of the entry that is the prototype, a method of
    [Object.prototype], or [Object.prototype] itself for the key
    [__proto__]), which has no [referenced_by]; or a falsy value
    ([undefined], or an empty string of the entry that is the
    prototype). *)
Inductive backlinksValue : Type :=
| OwnEntry (entry : BacklinkEntry)
| ProtoEntry (entry : BacklinkEntry)
| OtherTruthy
| Falsy.

Definition backlinksGet (b : backlinksObj) (key : jsstring) : backlinksValue :=
  match b_own b !! key with
  | Some entry => OwnEntry entry
  | None =>
      match b_proto b with
      | Some entry =>
          if decide (key = protoKey) then ProtoEntry entry
          else if decide (key = Js.str "law_id") then
            if decide (e_law_id entry = []) then Falsy else OtherTruthy
          else if decide (key = Js.str "law_title") then
            if decide (e_law_title entry = []) then Falsy else OtherTruthy
          else if decide (key = Js.str "referenced_by") then OtherTruthy
          else if decide (key ∈ objectPrototypeNames) then OtherTruthy
          else Falsy
      | None => if decide (key ∈ objectPrototypeNames) then OtherTruthy else Falsy
      end
  end.

(** The first loop of [buildBacklinks]: an entry for each law. *)
Definition seedBacklinks (laws : list LawIndex) : backlinksObj :=
  foldl (fun b law => backlinksSet (id law) (mkEntry (id law) (title law) []) b)
        {| b_own := ∅; b_proto := None |} laws.

(** The second loop: [countMap], from the cited law to the citing laws and
    how often each cites it. *)
Definition countStep (countMap : list (jsstring * list (jsstring * nat)))
    (ref : Reference) : list (jsstring * list (jsstring * nat)) :=
  if truthy (to_law_id ref) then
    let to := default [] (to_law_id ref) in
    let countMap :=
      if JsMap.has to countMap then countMap else JsMap.set to [] countMap in
    let fromMap := default [] (JsMap.get to countMap) in
    JsMap.set to
      (JsMap.set (from_law_id ref)
         (default 0 (JsMap.get (from_law_id ref) fromMap) + 1) fromMap)
      countMap
  else countMap.

Definition buildCountMap (references : list Reference)
  : list (jsstring * list (jsstring * nat)) :=
  foldl countStep [] references.

(** [laws.find(l => l.id === fromLawId)] *)
Definition findLaw (laws : list LawIndex) (lawId : jsstring) : option LawIndex :=
  snd <$> list_find (fun l => id l = lawId) laws.

(** The pushes of the inner loop of the third loop. *)
Definition pushReferrers (laws : list LawIndex) (fromMap : list (jsstring * nat))
    (referenced_by : list Referrer) : list Referrer :=
  foldl (fun acc '(fromLawId, n) =>
           match findLaw laws fromLawId with
           | Some fromLaw => acc ++ [mkReferrer fromLawId (title fromLaw) n]
           | None => acc
           end)
        referenced_by fromMap.

Definition byCountDesc (a b : Referrer) : Z := (Z.of_nat (count b) - Z.of_nat (count a))%Z.

(** One round of the third loop. When [backlinks.backlinks[toLawId]] is
    truthy and no entry, [.referenced_by] is [undefined], and the call of
    [push] or, at the latest, the call of [sort] on it throws a
    [TypeError]. *)
Definition backlinkStep (laws : list LawIndex) (b : backlinksObj)
    (e : jsstring * list (jsstring * nat)) : completion backlinksObj :=
  let '(toLawId, fromMap) := e in
  let update entry :=
    mkEntry (e_law_id entry) (e_law_title entry)
      (js_sort byCountDesc (pushReferrers laws fromMap (referenced_by entry))) in
  match backlinksGet b toLawId with
  | Falsy => Returned b
  | OwnEntry entry =>
      Returned {| b_own := <[ toLawId := update entry ]> (b_own b); b_proto := b_proto b |}
  | ProtoEntry entry => Returned {| b_own := b_own b; b_proto := Some (update entry) |}
  | OtherTruthy => Thrown
  end.

(** [buildBacklinks(references, laws).backlinks]; what is written to
    [backlinks.json] are its own properties, [b_own]. *)
Definition buildBacklinks (references : list Reference) (laws : list LawIndex)
  : completion backlinksObj :=
  foldC (backlinkStep laws) (seedBacklinks laws) (buildCountMap references).

(** The references a law is the target of, for [buildBacklinks]. *)
Definition cites (to : jsstring) (ref : Reference) : Prop :=
  truthy (to_law_id ref) = true ∧ to_law_id ref = Some to.

#[global] Instance cites_dec to ref : Decision (cites to ref).
Proof. unfold cites. apply _. Defined.

End Coordinator.

(** ** Reachability ([scripts/graph_worker.ts], [scripts/build_full_graph.ts]) *)

Module Graph.
Import JsObject.

Record bfs_state : Type := BfsState {
  distances : gmap jsstring nat;
  queue : list (jsstring * nat);
  visited : gset jsstring
}.

(** [dist >= maxHops]; the comparison is false when [maxHops] is
    [undefined]. *)
Definition hopLimitReached (dist : nat) (maxHops : option nat) : bool :=
  match maxHops with
  | Some h => bool_decide (h ≤ dist)
  | None => false
  end.

Section bfs.
(** The neighbours the loop iterates over for a node, in order: the
    searches of [build_full_graph.ts] read them from a [Map], and a node
    that is no key of it has none. *)
Context (neighborsOf : jsstring → list jsstring) (maxHops : option nat).

(** The body of the inner [for] loop. *)
Definition visit (dist : nat) (st : bfs_state) (neighborId : jsstring) : bfs_state :=
  if decide (neighborId ∈ visited st) then st
  else
    {| distances := <[ neighborId := dist + 1 ]> (distances st);
       queue := queue st ++ [(neighborId, dist + 1)];
       visited := {[ neighborId ]} ∪ visited st |}.

(** One round of the [while] loop, for the entry [{ id, dist }] taken
    from the front of the queue, the rest of which is [rest]. *)
Definition bfs_round (st : bfs_state) (nodeId : jsstring) (dist : nat)
    (rest : list (jsstring * nat)) : bfs_state :=
  let st := {| distances := distances st; queue := rest; visited := visited st |} in
  if hopLimitReached dist maxHops then st
  else foldl (visit dist) st (neighborsOf nodeId).

Fixpoint bfs_loop (fuel : nat) (st : bfs_state) : option (gmap jsstring nat) :=
  match queue st with
  | [] => Some (distances st)
  | (nodeId, dist) :: rest =>
      match fuel with
      | 0 => None
      | S fuel' => bfs_loop fuel' (bfs_round st nodeId dist rest)
      end
  end.

Definition bfs_init (startId : jsstring) : bfs_state :=
  {| distances := ∅; queue := [(startId, 0)]; visited := {[ startId ]} |}.
End bfs.

(** The nodes that occur as a neighbour in an adjacency object; the loop
    runs at most once for the start and once for each of them. *)
Definition targets {A : Type} (f : A → list jsstring) (adj : gmap jsstring A)
  : gset jsstring :=
  ⋃ ((fun kv => list_to_set (f kv.2)) <$> map_to_list adj).

(** The neighbours an adjacency of arrays or [Set]s has for a node of its
    own, none for another node: [incoming.get(id)] of
    [build_full_graph.ts], where a node without entry is skipped; and the
    graph the searches of [graph_worker.ts] walk. *)
Definition neighborsObj (adj : gmap jsstring (list jsstring)) (nodeId : jsstring)
  : list jsstring :=
  default [] (adj !! nodeId).

(** *** The searches of [scripts/graph_worker.ts]

    The adjacency is a plain object of arrays, as [JSON.parse] makes it
    from the message of the parent process, and [distances] is a plain
    object too. *)
Section obj_bfs.
Context (adj : gmap jsstring (list jsstring)) (maxHops : option nat).

(** The body of the inner [for] loop, with [distances[neighborId] = dist + 1]. *)
Definition obj_visit (dist : nat) (st : bfs_state) (neighborId : jsstring) : bfs_state :=
  if decide (neighborId ∈ visited st) then st
  else
    {| distances := objSet neighborId (dist + 1) (distances st);
       queue := queue st ++ [(neighborId, dist + 1)];
       visited := {[ neighborId ]} ∪ visited st |}.

(** One round of the [while] loop. [outgoing[id] || []] is the array the
    object has for [id], or an empty array when it has nothing under that
    name; when [id] names a member of [Object.prototype] and is no own
    property, it is that member, which [for ... of] cannot iterate: a
    [TypeError]. *)
Definition obj_round (st : bfs_state) (nodeId : jsstring) (dist : nat)
    (rest : list (jsstring * nat)) : completion bfs_state :=
  let st := {| distances := distances st; queue := rest; visited := visited st |} in
  if hopLimitReached dist maxHops then Returned st
  else
    match objGet adj nodeId with
    | Own neighbors => Returned (foldl (obj_visit dist) st neighbors)
    | Missing => Returned st
    | Inherited => Thrown
    end.

Fixpoint obj_loop (fuel : nat) (st : bfs_state) : option (completion (gmap jsstring nat)) :=
  match queue st with
  | [] => Some (Returned (distances st))
  | (nodeId, dist) :: rest =>
      match fuel with
      | 0 => None
      | S fuel' =>
          match obj_round st nodeId dist rest with
          | Returned st' => obj_loop fuel' st'
          | Thrown => Some Thrown
          end
      end
  end.
End obj_bfs.

(** [computeReachability] of [graph_worker.ts]; the fuel is one round for
    the start and one for each node that occurs as a neighbour. *)
Definition computeReachability (startId : jsstring)
    (outgoing : gmap jsstring (list jsstring)) (maxHops : option nat)
  : option (completion (gmap jsstring nat)) :=
  obj_loop outgoing maxHops (S (size (targets (fun l => l) outgoing))) (bfs_init startId).

(** [computeReverseReachability] of [graph_worker.ts]: the same loop on
    the reverse adjacency. *)
Definition computeReverseReachability (targetId : jsstring)
    (incoming : gmap jsstring (list jsstring)) (maxHops : option nat)
  : option (completion (gmap jsstring nat)) :=
  obj_loop incoming maxHops (S (size (targets (fun l => l) incoming))) (bfs_init targetId).

(** [scripts/build_full_graph.ts]: the forward adjacency is a [Map] of
    [Map]s from the target to a count, the reverse one a [Map] of [Set]s;
    a node without entry is skipped. *)
Definition neighborsMap (adj : gmap jsstring (list (jsstring * nat))) (nodeId : jsstring)
  : list jsstring :=
  match adj !! nodeId with
  | None => []
  | Some neighbors => neighbors.*1
  end.

(** [computeReachability] of [build_full_graph.ts]. *)
Definition computeReachabilityFull (startId : jsstring)
    (outgoing : gmap jsstring (list (jsstring * nat))) (maxHops : nat)
  : option (gmap jsstring nat) :=
  bfs_loop (neighborsMap outgoing) (Some maxHops)
    (S (size (targets (fun m => m.*1) outgoing))) (bfs_init startId).

(** [computeReverseReachability] of [build_full_graph.ts]; it takes
    [outgoing] and does not use it. *)
Definition computeReverseReachabilityFull (targetId : jsstring)
    (incoming : gmap jsstring (list jsstring))
    (outgoing : gmap jsstring (list (jsstring * nat))) (maxHops : nat)
  : option (gmap jsstring nat) :=
  bfs_loop (neighborsObj incoming) (Some maxHops)
    (S (size (targets (fun l => l) incoming))) (bfs_init targetId).

(** *** The two scripts that build the reachability table *)

Record GraphNode : Type := mkNode {
  n_id : jsstring;
  n_title : jsstring;
  n_category : option jsstring;
  out_degree : nat;
  in_degree : nat
}.

Record ReachEntry : Type := mkReach {
  re_title : jsstring;
  reachable_from : gmap jsstring nat;
  reachable_to : gmap jsstring nat
}.

(** [set.add(x)] on a [Set], kept in insertion order. *)
Definition set_add (x : jsstring) (l : list jsstring) : list jsstring :=
  if decide (x ∈ l) then l else l ++ [x].

(** [buildAdjacencyList]: [outgoing] maps a law to the laws it cites, each
    with the number of references; [incoming] maps a law to the set of the
    laws that cite it. *)
Definition adjacencyStep
    (adj : gmap jsstring (list (jsstring * nat)) * gmap jsstring (list jsstring))
    (ref : Reference)
  : gmap jsstring (list (jsstring * nat)) * gmap jsstring (list jsstring) :=
  let '(outgoing, incoming) := adj in
  if negb (bool_decide (from_law_id ref ≠ [])) || negb (truthy (to_law_id ref)) then adj
  else
    let from := from_law_id ref in
    let to := default [] (to_law_id ref) in
    let targets := default [] (outgoing !! from) in
    (<[ from := JsMap.set to (default 0 (JsMap.get to targets) + 1) targets ]> outgoing,
     <[ to := set_add from (default [] (incoming !! to)) ]> incoming).

Definition buildAdjacencyList (references : list Reference)
  : gmap jsstring (list (jsstring * nat)) * gmap jsstring (list jsstring) :=
  foldl adjacencyStep (∅, ∅) references.

(** [buildAdjacencyList] of [build_graph_multi.ts] makes two plain objects
    for the workers, [outgoingObj[key] = Array.from(value.keys())] and
    [incomingObj[key] = Array.from(value)]; a worker gets their own
    properties. *)
Definition outgoingObjOf (outgoing : gmap jsstring (list (jsstring * nat)))
  : gmap jsstring (list jsstring) :=
  objAssign (fun m => m.*1) ∅ outgoing.

Definition incomingObjOf (incoming : gmap jsstring (list jsstring))
  : gmap jsstring (list jsstring) :=
  objAssign (fun l => l) ∅ incoming.

(** The nodes with an edge, with their degrees. *)
Definition activeNodes (laws : list LawIndex)
    (outgoing : gmap jsstring (list (jsstring * nat)))
    (incoming : gmap jsstring (list jsstring)) : list GraphNode :=
  filter (fun n => 0 < out_degree n ∨ 0 < in_degree n)
    ((fun law =>
        {| n_id := id law; n_title := title law; n_category := category law;
           out_degree := from_option length 0 (outgoing !! id law);
           in_degree := from_option length 0 (incoming !! id law) |}) <$> laws).

Definition byInDegreeDesc (a b : GraphNode) : Z :=
  (Z.of_nat (in_degree b) - Z.of_nat (in_degree a))%Z.

(** [scripts/build_full_graph.ts], [main]: the reachability of the 100
    laws cited by the most laws, each search with the limit 50;
    [reachability] is a plain object. *)
Fixpoint landmarkLoop (importantLaws : list GraphNode)
    (outgoing : gmap jsstring (list (jsstring * nat)))
    (incoming : gmap jsstring (list jsstring))
    (reachability : gmap jsstring ReachEntry) : option (gmap jsstring ReachEntry) :=
  match importantLaws with
  | [] => Some reachability
  | law :: rest =>
      reachableFrom ← computeReachabilityFull (n_id law) outgoing 50;
      reachableTo ← computeReverseReachabilityFull (n_id law) incoming outgoing 50;
      landmarkLoop rest outgoing incoming
        (objSet (n_id law) (mkReach (n_title law) reachableFrom reachableTo) reachability)
  end.

(** The table [main] writes to [reachability.json]; [Some None] when
    [main] returns before, because there is no law or no reference. *)
Definition landmarkReachability (laws : list LawIndex) (references : list Reference)
  : option (option (gmap jsstring ReachEntry)) :=
  if bool_decide (length laws = 0 ∨ length references = 0) then Some None
  else
    let '(outgoing, incoming) := buildAdjacencyList references in
    let importantLaws :=
      take 100 (js_sort byInDegreeDesc (activeNodes laws outgoing incoming)) in
    Some <$> landmarkLoop importantLaws outgoing incoming ∅.

(** [scripts/graph_worker.ts], the handler of the message
    [{ laws, outgoingObj, incomingObj, maxHops, workerId }]; [results] is
    a plain object. A search that throws ends the worker. *)
Fixpoint graphWorkerLoop (laws : list GraphNode)
    (outgoingObj incomingObj : gmap jsstring (list jsstring)) (maxHops : option nat)
    (results : gmap jsstring ReachEntry) : option (completion (gmap jsstring ReachEntry)) :=
  match laws with
  | [] => Some (Returned results)
  | law :: rest =>
      andThen (computeReachability (n_id law) outgoingObj maxHops) (fun reachableFrom =>
      andThen (computeReverseReachability (n_id law) incomingObj maxHops) (fun reachableTo =>
      graphWorkerLoop rest outgoingObj incomingObj maxHops
        (objSet (n_id law) (mkReach (n_title law) reachableFrom reachableTo) results)))
  end.

Definition graphWorker (laws : list GraphNode)
    (outgoingObj incomingObj : gmap jsstring (list jsstring)) (maxHops : option nat)
  : option (completion (gmap jsstring ReachEntry)) :=
  graphWorkerLoop laws outgoingObj incomingObj maxHops ∅.

(** [Promise.all(chunks.map(chunk => runWorker(...)))]: every worker
    runs; the promise is rejected when a worker ends with an exception,
    and [main] with it. *)
Fixpoint runWorkers {A B : Type} (worker : A → option (completion B)) (chunks : list A)
  : option (completion (list B)) :=
  match chunks with
  | [] => Some (Returned [])
  | chunk :: rest =>
      match worker chunk, runWorkers worker rest with
      | Some (Returned result), Some (Returned results) => Some (Returned (result :: results))
      | None, _ | _, None => None
      | _, _ => Some Thrown
      end
  end.

(** [for (let i = 0; i < l.length; i += chunkSize) chunks.push(l.slice(i, i + chunkSize))] *)
Fixpoint chunksOf {A : Type} (fuel chunkSize : nat) (l : list A) : list (list A) :=
  match fuel, l with
  | S fuel', _ :: _ => take chunkSize l :: chunksOf fuel' chunkSize (drop chunkSize l)
  | _, _ => []
  end.

(** [scripts/build_graph_multi.ts], [main]: the reachability of every
    active node, by workers that each take a chunk. The message to a worker
    is [{ laws, outgoingObj, incomingObj, workerId }]: it has no [maxHops],
    which the worker reads as [undefined] (the worker [graph_worker.js]
    of the repository is the same search written without the test of the
    limit, [computeReachabilityInfinite]). The results are merged with
    [Object.assign]. The result is the table [main] writes to
    [reachability.json]; [Returned None] when [main] returns before,
    because there is no law or no reference. *)
Definition exhaustiveReachability (cpus : nat) (laws : list LawIndex)
    (references : list Reference) : option (completion (option (gmap jsstring ReachEntry))) :=
  if bool_decide (length laws = 0 ∨ length references = 0) then Some (Returned None)
  else
    let NUM_WORKERS := 1 `max` (cpus - 1) in
    let '(outgoing, incoming) := buildAdjacencyList references in
    let outgoingObj := outgoingObjOf outgoing in
    let incomingObj := incomingObjOf incoming in
    let active := activeNodes laws outgoing incoming in
    let chunkSize := (length active + NUM_WORKERS - 1) / NUM_WORKERS in
    let chunks := chunksOf (length active) chunkSize active in
    andThen (runWorkers (fun chunk => graphWorker chunk outgoingObj incomingObj None) chunks)
      (fun results =>
         Some (Returned (Some
           (foldl (fun reachability result => objAssign (fun e => e) reachability result)
                  ∅ results)))).

(** *** The path finder ([findShortestPath]) *)

Record path_state : Type := PathState {
  pqueue : list (jsstring * list jsstring);
  pvisited : gset jsstring
}.

(** The inner [for] loop: it returns the path when it meets [toId]. *)
Fixpoint path_scan (toId : jsstring) (path : list jsstring)
    (neighbors : list jsstring) (st : path_state) : list jsstring + path_state :=
  match neighbors with
  | [] => inr st
  | neighborId :: more =>
      if decide (neighborId = toId) then inl (path ++ [neighborId])
      else if decide (neighborId ∈ pvisited st) then path_scan toId path more st
      else
        path_scan toId path more
          {| pqueue := pqueue st ++ [(neighborId, path ++ [neighborId])];
             pvisited := {[ neighborId ]} ∪ pvisited st |}
  end.

(** The [while] loop; [Some None] is the result [null]. *)
Fixpoint path_loop (neighborsOf : jsstring → list jsstring) (toId : jsstring)
    (fuel : nat) (st : path_state) : option (option (list jsstring)) :=
  match pqueue st with
  | [] => Some None
  | (nodeId, path) :: rest =>
      match fuel with
      | 0 => None
      | S fuel' =>
          match path_scan toId path (neighborsOf nodeId)
                  {| pqueue := rest; pvisited := pvisited st |} with
          | inl found => Some (Some found)
          | inr st' => path_loop neighborsOf toId fuel' st'
          end
      end
  end.

(** [findShortestPath] of [build_full_graph.ts]. *)
Definition findShortestPath (fromId toId : jsstring)
    (outgoing : gmap jsstring (list (jsstring * nat)))
  : option (option (list jsstring)) :=
  if decide (fromId = toId) then Some (Some [fromId])
  else
    path_loop (neighborsMap outgoing) toId
      (S (size (targets (fun m => m.*1) outgoing)))
      {| pqueue := [(fromId, [fromId])]; pvisited := {[ fromId ]} |}.

(** *** What the searches are to compute *)

Section bfs_spec.
Context (neighborsOf : jsstring → list jsstring) (maxHops : option nat).
Context (startId : jsstring) (U : gset jsstring).

(** [hops u n v]: a directed path of [n] edges leads from [u] to [v]. *)
Inductive hops (u : jsstring) : nat → jsstring → Prop :=
| hops_here : hops u 0 u
| hops_step n v w : hops u n v → w ∈ neighborsOf v → hops u (S n) w.

(** [d] is the length of the shortest directed path from [u] to [v]. *)
Definition shortest (u v : jsstring) (d : nat) : Prop :=
  hops u d v ∧ ∀ n, hops u n v → d ≤ n.

Definition withinHops (d : nat) : Prop :=
  match maxHops with
  | Some h => d ≤ h
  | None => True
  end.

(** The hop count the loop knows for a node: 0 for the start, and what
    [distances] holds. *)
Definition dist_of (D : gmap jsstring nat) (v : jsstring) : option nat :=
  if decide (v = startId) then Some 0 else D !! v.

(** The invariant of the [while] loop, for the queue [q] with the entry in
    work at its head. *)
Record bfs_inv (q : list (jsstring * nat)) (D : gmap jsstring nat) (V : gset jsstring)
  : Prop := BfsInv {
  inv_visited : ∀ v, v ∈ V ↔ is_Some (dist_of D v);
  inv_start : D !! startId = None;
  inv_sound : ∀ v d, dist_of D v = Some d → hops startId d v ∧ withinHops d;
  inv_queue : ∀ v d, (v, d) ∈ q → dist_of D v = Some d;
  inv_sorted : StronglySorted (fun a b => a.2 ≤ b.2) q;
  inv_near : ∀ hv hd v d, head q = Some (hv, hd) → dist_of D v = Some d → d ≤ hd + 1;
  inv_closed : ∀ v d, dist_of D v = Some d → v ∉ q.*1 →
               hopLimitReached d maxHops = false →
               ∀ w, w ∈ neighborsOf v → w ∈ V;
  inv_edge : ∀ u w du dw, dist_of D u = Some du → dist_of D w = Some dw →
             w ∈ neighborsOf u → dw ≤ du + 1
}.

(** What is left to do: the entries of the queue and the nodes of [U] not
    seen yet. *)
Definition bfs_measure (st : bfs_state) : nat :=
  length (queue st) + size (U ∖ visited st).
End bfs_spec.

(** What a run of the loop records, for the two ways the source reads the
    neighbours of a node. *)
Definition records (neighborsOf : jsstring → list jsstring) (maxHops : option nat)
    (startId : jsstring) (D : gmap jsstring nat) : Prop :=
  (∀ v d, D !! v = Some d ↔
          v ≠ startId ∧ withinHops maxHops d ∧ shortest neighborsOf startId v d)
  ∧ (∀ n v, hops neighborsOf startId n v → withinHops maxHops n → v ≠ startId →
       ∃ d, D !! v = Some d ∧ d ≤ n).

(** An entry of the table holds what the two searches from [k] record. *)
Definition entry_records (outgoingOf incomingOf : jsstring → list jsstring)
    (maxHops : option nat) (k : jsstring) (e : ReachEntry) : Prop :=
  records outgoingOf maxHops k (reachable_from e)
  ∧ records incomingOf maxHops k (reachable_to e).

(** *** What the searches of [graph_worker.ts] compute *)

(** The adjacency object has no property of its own for the node, and the
    name of the node is a member of [Object.prototype]: a search throws
    when it comes to read the neighbours of such a node. *)
Definition inheritedOnly (adj : gmap jsstring (list jsstring)) (v : jsstring) : Prop :=
  adj !! v = None ∧ v ∈ objectPrototypeNames.

#[global] Instance inheritedOnly_dec adj v : Decision (inheritedOnly adj v).
Proof. unfold inheritedOnly. apply _. Defined.

(** The search from [startId] comes to such a node: one stands fewer hops
    from [startId] than the hop limit. *)
Definition meetsInherited (adj : gmap jsstring (list jsstring)) (maxHops : option nat)
    (startId : jsstring) : Prop :=
  ∃ v d, hops (neighborsObj adj) startId d v
         ∧ hopLimitReached d maxHops = false ∧ inheritedOnly adj v.

(** What a search of [graph_worker.ts] that returns has recorded: it has
    met no such node; and it holds the length of the shortest path for
    every node within the hop limit other than the start and the node
    [__proto__], for which [distances] takes no entry. *)
Definition records_obj (adj : gmap jsstring (list jsstring)) (maxHops : option nat)
    (startId : jsstring) (D : gmap jsstring nat) : Prop :=
  ¬ meetsInherited adj maxHops startId
  ∧ (∀ v d, D !! v = Some d ↔
            v ≠ startId ∧ v ≠ protoKey ∧ withinHops maxHops d
            ∧ shortest (neighborsObj adj) startId v d)
  ∧ (∀ n v, hops (neighborsObj adj) startId n v → withinHops maxHops n →
       v ≠ startId → v ≠ protoKey → ∃ d, D !! v = Some d ∧ d ≤ n).

(** How a search of [graph_worker.ts] ends. *)
Definition searched (adj : gmap jsstring (list jsstring)) (maxHops : option nat)
    (startId : jsstring) (r : completion (gmap jsstring nat)) : Prop :=
  match r with
  | Returned D => records_obj adj maxHops startId D
  | Thrown => meetsInherited adj maxHops startId
  end.

Definition entry_records_obj (outgoingObj incomingObj : gmap jsstring (list jsstring))
    (maxHops : option nat) (k : jsstring) (e : ReachEntry) : Prop :=
  records_obj outgoingObj maxHops k (reachable_from e)
  ∧ records_obj incomingObj maxHops k (reachable_to e).

(** A worker throws when one of its searches does. *)
Definition workerMeetsInherited (laws : list GraphNode)
    (outgoingObj incomingObj : gmap jsstring (list jsstring)) (maxHops : option nat)
  : Prop :=
  ∃ law, law ∈ laws
    ∧ (meetsInherited outgoingObj maxHops (n_id law)
       ∨ meetsInherited incomingObj maxHops (n_id law)).

(** How a worker ends: with an exception, or with a table that has an
    entry for the id of each of its laws other than [__proto__]. *)
Definition worked (laws : list GraphNode)
    (outgoingObj incomingObj : gmap jsstring (list jsstring)) (maxHops : option nat)
    (r : completion (gmap jsstring ReachEntry)) : Prop :=
  match r with
  | Returned R =>
      ¬ workerMeetsInherited laws outgoingObj incomingObj maxHops
      ∧ (∀ k, is_Some (R !! k) ↔ k ∈ n_id <$> laws ∧ k ≠ protoKey)
      ∧ (∀ k e, R !! k = Some e → entry_records_obj outgoingObj incomingObj maxHops k e)
  | Thrown => workerMeetsInherited laws outgoingObj incomingObj maxHops
  end.

(** The search on the object, seen as the search on the graph of its own
    properties: the same queue and the same nodes seen, and the hop counts
    without the one of [__proto__]. *)
Definition obj_sim (so sp : bfs_state) : Prop :=
  queue so = queue sp ∧ visited so = visited sp
  ∧ distances so = delete protoKey (distances sp).

(** The nodes the loop is done with have properties of their own, or
    names [Object.prototype] does not have. *)
Definition obj_safe (adj : gmap jsstring (list jsstring)) (maxHops : option nat)
    (startId : jsstring) (sp : bfs_state) : Prop :=
  ∀ v d, v ∈ visited sp → v ∉ (queue sp).*1 →
         dist_of startId (distances sp) v = Some d →
         hopLimitReached d maxHops = false → ¬ inheritedOnly adj v.

(** Every recorded hop count is the length of the shortest path, and the
    hop counts of a recorded node [b] and a successor [c] obey the
    triangle inequality: a path of [h + 1] edges leads to [c], the hop
    count recorded for [c] is at most [h + 1], and [c] is recorded unless
    it is the start or [b] stands at the hop limit. *)
Definition shortest_and_triangle (neighborsOf : jsstring → list jsstring)
    (maxHops : option nat) (startId : jsstring) (D : gmap jsstring nat) : Prop :=
  (∀ v d, D !! v = Some d → shortest neighborsOf startId v d)
  ∧ (∀ b c h, D !! b = Some h → c ∈ neighborsOf b →
       hops neighborsOf startId (h + 1) c
       ∧ (∀ k, D !! c = Some k → k ≤ h + 1)
       ∧ (c ≠ startId → hopLimitReached h maxHops = false →
          ∃ k, D !! c = Some k ∧ k ≤ h + 1)).

(** The same for a search of [graph_worker.ts], which records nothing
    for [__proto__]. *)
Definition shortest_and_triangle_obj (neighborsOf : jsstring → list jsstring)
    (maxHops : option nat) (startId : jsstring) (D : gmap jsstring nat) : Prop :=
  (∀ v d, D !! v = Some d → shortest neighborsOf startId v d)
  ∧ (∀ b c h, D !! b = Some h → c ∈ neighborsOf b →
       hops neighborsOf startId (h + 1) c
       ∧ (∀ k, D !! c = Some k → k ≤ h + 1)
       ∧ (c ≠ startId → c ≠ protoKey → hopLimitReached h maxHops = false →
          ∃ k, D !! c = Some k ∧ k ≤ h + 1)).

(** The hop counts of an entry of the table are at most [cap]. *)
Definition entry_capped (cap : nat) (e : ReachEntry) : Prop :=
  ∀ v d, reachable_from e !! v = Some d ∨ reachable_to e !! v = Some d → d ≤ cap.

(** An entry of the table holds every node that can be reached, however
    far, at the length of the shortest path. *)
Definition entry_unbounded (outgoingOf incomingOf : jsstring → list jsstring)
    (k : jsstring) (e : ReachEntry) : Prop :=
  (∀ v d, reachable_from e !! v = Some d ↔ v ≠ k ∧ shortest outgoingOf k v d)
  ∧ (∀ v d, reachable_to e !! v = Some d ↔ v ≠ k ∧ shortest incomingOf k v d).

Section path_spec.
Context (neighborsOf : jsstring → list jsstring) (fromId : jsstring).
Context (U : gset jsstring).

(** [walk u v p]: [p] lists the nodes of a directed path from [u] to [v]. *)
Inductive walk (u : jsstring) : jsstring → list jsstring → Prop :=
| walk_here : walk u u [u]
| walk_step v w p : walk u v p → w ∈ neighborsOf v → walk u w (p ++ [w]).

(** Every entry of the queue carries a path from [fromId] to its node. *)
Definition path_inv (st : path_state) : Prop :=
  ∀ nodeId path, (nodeId, path) ∈ pqueue st → walk fromId nodeId path.

Definition path_measure (st : path_state) : nat :=
  length (pqueue st) + size (U ∖ pvisited st).
End path_spec.

(** A chain of 52 laws, each citing the next; the id of the law [i] is the
    one character U+4E00 + [i]. *)
Definition chainNode (i : nat) : jsstring := [(19968 + N.of_nat i)%N].

Definition chainLaws : list LawIndex :=
  (fun i => {| id := chainNode i; lawNum := None; title := chainNode i;
               category := None |}) <$> seq 0 52.

Definition chainReferences : list Reference :=
  (fun i => {| from_law_id := chainNode i; from_law_title := chainNode i;
               to_law_id := Some (chainNode (S i)); to_law_title := chainNode (S i);
               to_law_num := None; article := None; paragraph := None; item := None;
               ref_type := law_name |}) <$> seq 0 51.

(** The table a run of [main] has written, if it has. *)
Definition written {A : Type} (r : option (completion (option A))) : option A :=
  match r with
  | Some (Returned (Some a)) => Some a
  | _ => None
  end.

(** [R[k].reachable_from[v]] and [R[k].reachable_to[v]]. *)
Definition hopsFrom (r : option (gmap jsstring ReachEntry)) (k v : jsstring) : option nat :=
  r ≫= fun R => R !! k ≫= fun e => reachable_from e !! v.

Definition hopsTo (r : option (gmap jsstring ReachEntry)) (k v : jsstring) : option nat :=
  r ≫= fun R => R !! k ≫= fun e => reachable_to e !! v.

(** The graph with the edges A→B and B→C. *)
Definition abcGraph : gmap jsstring (list (jsstring * nat)) :=
  <[ Js.str "A" := [(Js.str "B", 1)] ]> (<[ Js.str "B" := [(Js.str "C", 1)] ]> ∅).

End Graph.

(** * Further code: the path search, the graph, the scripts' [main] *)

Module PathSpec.
Import Graph.
Section path_ghost.
Context (neighborsOf : jsstring → list jsstring) (fromId toId : jsstring).

(** The neighbours the path search goes on to: it returns as soon as it
    meets [toId], so [toId] is never put on the queue. *)
Definition onward (v : jsstring) : list jsstring :=
  filter (fun w => w ≠ toId) (neighborsOf v).

(** The queue of the path search, each path replaced by its number of
    edges. *)
Definition strip (q : list (jsstring * list jsstring)) : list (jsstring * nat) :=
  (fun e => (e.1, length e.2 - 1)) <$> q.

(** The invariant of the [while] loop of the path search: every entry of
    the queue carries a path to its node; with the hop counts [D] of the
    nodes seen so far, the loop is a breadth-first search that goes around
    [toId]; and a node that has left the queue does not have [toId] as a
    neighbour. *)
Definition path_bfs_inv (st : path_state) : Prop :=
  path_inv neighborsOf fromId st
  ∧ (∃ D, bfs_inv onward None fromId (strip (pqueue st)) D (pvisited st))
  ∧ (∀ x, x ∈ pvisited st → x ∉ (pqueue st).*1 → toId ∉ neighborsOf x).
End path_ghost.
End PathSpec.

Module GraphSpec.
Import Graph.

(** A reference that [buildAdjacencyList] takes as an edge from [a] to
    [b]: both ids are set and not empty. *)
Definition isEdge (a b : jsstring) (ref : Reference) : Prop :=
  from_law_id ref = a ∧ a ≠ [] ∧ to_law_id ref = Some b ∧ b ≠ [].

#[global] Instance isEdge_dec a b ref : Decision (isEdge a b ref).
Proof. unfold isEdge. apply _. Defined.

Definition edgeCount (references : list Reference) (a b : jsstring) : nat :=
  length (filter (isEdge a b) references).

End GraphSpec.

Module RegexSpec.
Import Regex.

(** A pattern without capturing group. *)
Fixpoint groupless (r : regex) : bool :=
  match r with
  | RChar _ | RClass _ _ | REps => true
  | RSeq a b | RAlt a b => groupless a && groupless b
  | RRep _ _ _ a => groupless a
  | RGroup _ _ => false
  end.

(** [m] is a match of the pattern in the string: the matcher gets from
    the start of [m] to its end, with its groups. *)
Definition is_match (r : regex) (s : jsstring) (m : rmatched) : Prop :=
  ∃ st, st ∈ rmatch r s (MState (m_start m) [])
        ∧ m_end m = pos st ∧ m_caps m = caps st.

(** The shape of [artPattern], for any literals and classes. *)
Definition article_shape (a j n a3 k a4 h : jsstring) (D B : list (N * N)) : regex :=
  RSeq (RStr a)
    (RSeq (RGroup 1 (RPlus (RClass false D)))
       (RSeq (RStr j)
          (RSeq (ROpt (RSeq (RStr n) (RSeq (RGroup 2 (RPlus (RClass false B))) REps)))
             (RSeq (ROpt (RSeq (RStr a3)
                            (RSeq (RGroup 3 (RPlus (RClass false B))) (RSeq (RStr k) REps))))
                (RSeq (ROpt (RSeq (RStr a4)
                               (RSeq (RGroup 4 (RPlus (RClass false B))) (RSeq (RStr h) REps))))
                   REps))))).
End RegexSpec.

Module ExtractorSpec.
Import Extractor.

(** What the set [seen] of [extractReferences] stands for: it holds the
    law every reference pushed so far cites (the name after [unknown:] for
    a law that is not known), and no two references cite the same. *)
Definition seen_inv (st : xstate) : Prop :=
  (∀ r, r ∈ st.1 →
     match to_law_id r with
     | Some t => t ∈ st.2
     | None => Js.str "unknown:" ++ to_law_title r ∈ st.2
     end)
  ∧ NoDup (omap to_law_id st.1)
  ∧ NoDup (to_law_title <$> filter (fun r => to_law_id r = None) st.1).

(** The fields of a reference of a document of [fromLaw] fit together. *)
Definition fields_fit (lawIndex : list LawIndex) (fromLaw : LawIndex) (r : Reference) : Prop :=
  from_law_id r = id fromLaw ∧ from_law_title r = title fromLaw
  ∧ (to_law_id r = None ↔ ref_type r = unknown_law)
  ∧ (is_Some (article r) ↔ ref_type r = article_ref)
  ∧ (is_Some (paragraph r) ∨ is_Some (item r) → is_Some (article r))
  ∧ (∀ t, to_law_id r = Some t →
       ∃ law, law ∈ lawIndex ∧ id law = t ∧ to_law_num r = lawNum law).

(** The text [t] stands in the string [s]. *)
Definition occurs (t s : jsstring) : Prop := ∃ pre post, s = pre ++ t ++ post.

(** The name a reference cites, with the article, the paragraph and the
    item it gives, one after the other. *)
Definition cited_text (r : Reference) : jsstring :=
  to_law_title r ++ default [] (article r) ++ default [] (paragraph r)
    ++ default [] (item r).

(** A reference is read off the text of the document: the name it cites
    has two code units or more and stands in the text, followed by the
    article, the paragraph and the item of the reference; and when the law
    is not known, the number of the reference stands in brackets right
    after the name. *)
Definition from_text (xmlContent : jsstring) (r : Reference) : Prop :=
  2 ≤ length (to_law_title r)
  ∧ occurs (cited_text r) xmlContent
  ∧ (to_law_id r = None →
     ∃ num, to_law_num r = Some num
       ∧ occurs (to_law_title r ++ Js.str "（" ++ num ++ Js.str "）") xmlContent).
End ExtractorSpec.

(** ** The scripts' [main] functions *)

Module Main.
Import Extractor Coordinator Graph.

(** [Math.max(1, os.cpus().length - 1)] *)
Definition NUM_WORKERS (cpus : nat) : nat := 1 `max` (cpus - 1).

(** The chunks [main] gives its workers, in [analyze_references_multi.ts]
    and in [build_graph_multi.ts]: slices of
    [Math.ceil(l.length / NUM_WORKERS)] elements. *)
Definition chunks {A : Type} (cpus : nat) (l : list A) : list (list A) :=
  let chunkSize := (length l + NUM_WORKERS cpus - 1) / NUM_WORKERS cpus in
  chunksOf (length l) chunkSize l.

(** [analyze_references_multi.ts], [main]: [uniqueRefs], the references
    the script writes. Each worker gets a chunk of the files, the index and
    the abbreviation table; [Promise.all] gives the results in the order of
    the chunks, and [flat] joins them. ([main] stops before, without
    output, when the index is empty.) *)
Definition uniqueRefs (cpus : nat) (laws : list LawIndex)
    (abbreviations : list (jsstring * Abbreviation))
    (xmlFiles : list (jsstring * jsstring)) : option (list Reference) :=
  results ← mapM (worker laws abbreviations) (chunks cpus xmlFiles);
  let allReferences := concat results in
  Some (dedupeReferences allReferences).

(** [main]: [typeStats], the number of references of each type,
    [typeStats[ref.ref_type] = (typeStats[ref.ref_type] || 0) + 1]. *)
Definition typeStats (uniqueRefs : list Reference) : list (RefType * nat) :=
  foldl (fun stats ref =>
           JsMap.set (ref_type ref) (default 0 (JsMap.get (ref_type ref) stats) + 1) stats)
        [] uniqueRefs.
End Main.

(** ** The abbreviation table ([loadAbbreviations]) *)

Module Abbreviations.
Import JsObject Extractor Coordinator.

(** The law an entry [info] of [abbreviations.json] stands for: the law
    with the id [info.law_id] when that is set, else the law with the
    title [info.full_name]. A field that is missing reads like the empty
    string. *)
Definition resolveInfo (laws : list LawIndex) (info : Abbreviation) : option LawIndex :=
  if truthy (law_id info) then findLaw laws (default [] (law_id info))
  else if bool_decide (full_name info ≠ []) then
    JsMap.get (full_name info) (titleToLaw laws)
  else None.

(** [result], a plain object that the second loop reads by key. An
    assignment to the key [__proto__] makes the law the prototype of the
    object ([a_proto]; the prototype of the law is [Object.prototype]) and
    gives the object no own property. *)
Record abbrevObj : Type := AbbrevObj {
  a_own : gmap jsstring LawIndex;
  a_proto : option LawIndex
}.

(** [result[abbrev] = law] *)
Definition abbrevSet (abbrev : jsstring) (law : LawIndex) (result : abbrevObj)
  : abbrevObj :=
  if decide (abbrev = protoKey) then {| a_own := a_own result; a_proto := Some law |}
  else {| a_own := <[ abbrev := law ]> (a_own result); a_proto := a_proto result |}.

(** Whether [result[abbrev]] is truthy: an own property is a law; a
    member of [Object.prototype] is a function or, for [__proto__], the
    prototype; and when a law is the prototype, its properties [id],
    [lawNum], [title] and [category] (the properties of the interface
    [LawIndex]) are read through it. *)
Definition abbrevTruthy (result : abbrevObj) (abbrev : jsstring) : bool :=
  if decide (is_Some (a_own result !! abbrev)) then true
  else if decide (abbrev ∈ objectPrototypeNames) then true
  else
    match a_proto result with
    | Some law =>
        if decide (abbrev = Js.str "id") then bool_decide (id law ≠ [])
        else if decide (abbrev = Js.str "lawNum") then truthy (lawNum law)
        else if decide (abbrev = Js.str "title") then bool_decide (title law ≠ [])
        else if decide (abbrev = Js.str "category") then truthy (category law)
        else false
    | None => false
    end.

(** The loop over [Object.entries(abbrMap)]. An entry whose value is
    [null] is [None]: reading a field of it throws, and the [catch] ends
    the loop with what [result] holds by then. *)
Fixpoint dynamicAbbreviations (laws : list LawIndex)
    (entries : list (jsstring * option Abbreviation))
    (result : abbrevObj) : abbrevObj :=
  match entries with
  | [] => result
  | (abbrev, None) :: _ => result
  | (abbrev, Some info) :: rest =>
      dynamicAbbreviations laws rest
        match resolveInfo laws info with
        | Some law => abbrevSet abbrev law result
        | None => result
        end
  end.

(** One round of the loop over [Object.entries(fallback)]. *)
Definition fallbackStep (laws : list LawIndex) (result : abbrevObj)
    (e : jsstring * jsstring) : abbrevObj :=
  let '(abbrev, fullTitle) := e in
  if abbrevTruthy result abbrev then result
  else
    match JsMap.get fullTitle (titleToLaw laws) with
    | Some law => abbrevSet abbrev law result
    | None => result
    end.

(** [loadAbbreviations(laws)]. [abbrMap] is
    [Object.entries(data.abbreviation_map || {})] for the file
    [abbreviations.json], empty when the file is missing or cannot be
    parsed; [fallback] is [Object.entries] of the table the source has as a
    literal, which is a parameter here. The result is the object [result];
    its own properties [a_own] are the table that [main] counts and sends
    to the workers. *)
Definition loadAbbreviations (laws : list LawIndex)
    (abbrMap : list (jsstring * option Abbreviation))
    (fallback : list (jsstring * jsstring)) : abbrevObj :=
  foldl (fallbackStep laws) (dynamicAbbreviations laws abbrMap {| a_own := ∅; a_proto := None |})
        fallback.
End Abbreviations.

(** ** The paths from the constitution ([computeImportantPaths]) *)

Module Paths.
Import Extractor Graph.

Record ImportantPath : Type := mkPath {
  ip_from : jsstring;
  ip_to : jsstring;
  ip_path : list jsstring;
  ip_hops : nat
}.

Definition targetLaws : list jsstring :=
  [Js.str "民法"; Js.str "刑法"; Js.str "商法"; Js.str "行政手続法"; Js.str "会社法";
   Js.str "労働基準法"].

(** [laws.find(l => l.title === title)] *)
Definition findByTitle (laws : list LawIndex) (t : jsstring) : option LawIndex :=
  snd <$> list_find (fun l => title l = t) laws.

(** [lawMap.get(id)?.title || id] *)
Definition titleOrId (lawMap : list (jsstring * LawIndex)) (i : jsstring) : jsstring :=
  match JsMap.get i lawMap with
  | Some law => if bool_decide (title law ≠ []) then title law else i
  | None => i
  end.

(** The loop over [targetLaws]. *)
Fixpoint pathsLoop (laws : list LawIndex) (outgoing : gmap jsstring (list (jsstring * nat)))
    (lawMap : list (jsstring * LawIndex)) (constitutionId : jsstring)
    (titles : list jsstring) (paths : list ImportantPath) : option (list ImportantPath) :=
  match titles with
  | [] => Some paths
  | t :: rest =>
      match findByTitle laws t with
      | Some target =>
          result ← findShortestPath constitutionId (id target) outgoing;
          pathsLoop laws outgoing lawMap constitutionId rest
            match result with
            | Some result =>
                paths ++ [ {| ip_from := Js.str "日本国憲法"; ip_to := t;
                              ip_path := titleOrId lawMap <$> result;
                              ip_hops := length result - 1 |} ]
            | None => paths
            end
      | None => pathsLoop laws outgoing lawMap constitutionId rest paths
      end
  end.

(** [computeImportantPaths] of [build_graph_multi.ts]. *)
Definition computeImportantPaths (laws : list LawIndex)
    (outgoing : gmap jsstring (list (jsstring * nat)))
    (lawMap : list (jsstring * LawIndex)) : option (list ImportantPath) :=
  match findByTitle laws (Js.str "日本国憲法") with
  | Some constitution =>
      if bool_decide (id constitution ≠ []) then
        pathsLoop laws outgoing lawMap (id constitution) targetLaws []
      else Some []
  | None => Some []
  end.
End Paths.

Module CoordinatorSpec.
Import Coordinator.

(** The references from the law [f] that [buildBacklinks] counts for the
    law [to]. *)
Definition countFrom (references : list Reference) (to f : jsstring) : nat :=
  length (filter (fun ref => from_law_id ref = f ∧ cites to ref) references).
End CoordinatorSpec.

(** * Properties *)

(** ** Strings *)

Lemma starts_with_prefix (p s : jsstring) : Js.starts_with p s = true ↔ p `prefix_of` s.
Proof.
  revert s; induction p as [|c p IH]; intros s; simpl.
  - split; [intros; apply prefix_nil|done].
  - destruct s as [|d s]; [split; [done|by intros ?%prefix_nil_not]|].
    rw andb_true_iff N.eqb_eq IH. split.
    + intros [-> ?]. by apply prefix_cons.
    + intros Hp. split; [by eapply prefix_cons_inv_1|by eapply prefix_cons_inv_2].
Qed.

Lemma indexOf_from_spec (p s : jsstring) (k i : nat) :
  Js.indexOf_from p s k = Some i →
  k ≤ i ∧ p `prefix_of` drop (i - k) s ∧ ∀ j, j < i - k → ¬ p `prefix_of` drop j s.
Proof.
  revert k; induction s as [|c s IH]; intros k; simpl.
  - destruct (Js.starts_with p []) eqn:Hp; [|done].
    intros [= <-]. rw Nat.sub_diag. split_and!; [done|by apply starts_with_prefix|lia].
  - destruct (Js.starts_with p (c :: s)) eqn:Hp.
    + intros [= <-]. rw Nat.sub_diag. split_and!; [done|by apply starts_with_prefix|lia].
    + intros (? & Hpre & Hfirst)%IH.
      replace (i - k) with (S (i - S k)) by lia. split_and!; [lia|done|].
      intros [|j] Hj; simpl.
      * rw -starts_with_prefix. by rw Hp.
      * apply Hfirst. lia.
Qed.

(** [indexOf] gives the first position where the name occurs. *)
Lemma indexOf_first (s p : jsstring) (i : nat) :
  Js.indexOf s p = Some i →
  p `prefix_of` drop i s ∧ ∀ j, j < i → ¬ p `prefix_of` drop j s.
Proof.
  intros (_ & Hpre & Hfirst)%indexOf_from_spec. rw Nat.sub_0_r in Hpre.
  split; [done|]. intros j Hj. apply Hfirst. lia.
Qed.

(** ** The [exec] loops end *)

Section regex_facts.
Import Regex.

Lemma step_char_advances ok s : advances 1 s (step_char ok s).
Proof.
  intros st st'. unfold step_char.
  destruct (s !! pos st) as [c|] eqn:Hc; [|by intros ?%elem_of_nil].
  apply lookup_lt_Some in Hc.
  destruct (ok c); [|by intros ?%elem_of_nil].
  intros ->%list_elem_of_singleton. simpl. lia.
Qed.

Lemma rep_loop_advances step greedy lo k s n cnt :
  advances k s step → advances ((lo - cnt) * k) s (rep_loop step greedy lo n cnt).
Proof.
  intros Hstep. revert cnt. induction n as [|n IH]; intros cnt st st'; simpl.
  - destruct (Nat.ltb_spec cnt lo); [by intros ?%elem_of_nil|].
    replace (lo - cnt) with 0 by lia.
    destruct greedy; simpl; intros ->%list_elem_of_singleton; lia.
  - assert (Hmore : st' ∈ (filter (fun st1 => cnt < lo ∨ pos st < pos st1) (step st)
                             ≫= rep_loop step greedy lo n (S cnt)) →
                    pos st + (lo - cnt) * k ≤ pos st'
                    ∧ (pos st ≤ length s → pos st' ≤ length s)).
    { intros (st1 & Hst' & [_ Hst1]%list_elem_of_filter)%list_elem_of_bind.
      apply Hstep in Hst1 as [? ?]. apply IH in Hst' as [? ?].
      split; [|by auto].
      destruct (decide (cnt < lo)).
      - replace (lo - cnt) with (S (lo - S cnt)) by lia. simpl. lia.
      - replace (lo - cnt) with 0 by lia. lia. }
    destruct (Nat.ltb_spec cnt lo); [done|].
    replace (lo - cnt) with 0 in * by lia.
    destruct greedy.
    + intros [?| ->%list_elem_of_singleton]%elem_of_app; [by apply Hmore|lia].
    + intros [->|?]%elem_of_cons; [lia|by apply Hmore].
Qed.

Lemma rmatch_advances r s : advances (min_len r) s (rmatch r s).
Proof.
  induction r as [c|neg ranges| |a IHa b IHb|a IHa b IHb|greedy lo hi a IHa|k a IHa];
    simpl.
  - apply step_char_advances.
  - apply step_char_advances.
  - intros st st' ->%list_elem_of_singleton. lia.
  - intros st st' (st1 & [? ?]%IHb & [? ?]%IHa)%list_elem_of_bind.
    split; [lia|auto].
  - intros st st' [[? ?]%IHa|[? ?]%IHb]%elem_of_app; split; auto; lia.
  - intros st st' Hst'.
    apply (rep_loop_advances _ _ _ _ _ _ _ IHa) in Hst'.
    by rw Nat.sub_0_r in Hst'.
  - intros st st' (st1 & -> & [? ?]%IHa)%list_elem_of_fmap. simpl. auto.
Qed.

Lemma match_at_spec r s i m :
  match_at r s i = Some m →
  m_start m = i ∧ i + min_len r ≤ m_end m ∧ (i ≤ length s → m_end m ≤ length s).
Proof.
  unfold match_at.
  destruct (rmatch r s (MState i [])) as [|st l] eqn:Hm; [done|].
  intros [= <-]. simpl.
  destruct (rmatch_advances r s (MState i []) st) as [? ?]; [rw Hm; by left|].
  auto.
Qed.

Lemma search_spec r s fuel i m :
  search r s fuel i = Some m →
  i ≤ m_start m ∧ m_start m + min_len r ≤ m_end m
  ∧ (i + fuel ≤ length s → m_end m ≤ length s).
Proof.
  revert i; induction fuel as [|fuel IH]; intros i; simpl.
  - destruct (match_at r s i) as [m'|] eqn:Hm; [|done].
    intros [= ->]. apply match_at_spec in Hm as (-> & ? & ?).
    split_and!; [lia|lia|intros; apply H0; lia].
  - destruct (match_at r s i) as [m'|] eqn:Hm.
    + intros [= ->]. apply match_at_spec in Hm as (-> & ? & ?).
      split_and!; [lia|lia|intros; apply H0; lia].
    + intros (? & ? & ?)%IH. split_and!; [lia|lia|intros; apply H1; lia].
Qed.

Lemma exec_spec r s lastIndex m :
  exec r s lastIndex = Some m →
  lastIndex ≤ m_start m ∧ m_start m + min_len r ≤ m_end m ∧ m_end m ≤ length s.
Proof.
  unfold exec. case_decide; [done|].
  intros (? & ? & ?)%search_spec. split_and!; [done|done|]. apply H2. lia.
Qed.

(** A pattern that cannot match the empty string is found finitely often:
    the loop ends. *)
Lemma exec_loop_total r s fuel lastIndex :
  1 ≤ min_len r → lastIndex ≤ length s → length s < fuel + lastIndex →
  is_Some (exec_loop fuel r s lastIndex).
Proof.
  intros Hr. revert lastIndex; induction fuel as [|fuel IH]; intros lastIndex Hl Hf; simpl.
  - lia.
  - destruct (exec r s lastIndex) as [m|] eqn:Hm; [|by eexists].
    apply exec_spec in Hm as (? & ? & ?).
    destruct (IH (m_end m)) as [ms Hms]; [lia..|].
    rw Hms. by eexists.
Qed.

Lemma exec_all_total r s : 1 ≤ min_len r → is_Some (exec_all r s).
Proof. intros. apply exec_loop_total; [done|lia..]. Qed.
End regex_facts.

(** ** Generic facts: folds, [Map], [sort] *)

Lemma foldl_invariant {A B : Type} (P : A → Prop) (f : A → B → A) (l : list B) (a : A) :
  P a → (∀ a x, x ∈ l → P a → P (f a x)) → P (foldl f a l).
Proof.
  revert a; induction l as [|x l IH]; intros a Ha Hf; simpl; [done|].
  apply IH; [apply Hf; [by left|done]|].
  intros a' y Hy. apply Hf. by right.
Qed.

Section jsmap_facts.
Context {K V : Type} `{EqDecision K}.
Implicit Types (m : list (K * V)).

Lemma jsmap_get_set k k' v m :
  JsMap.get k (JsMap.set k' v m) = if decide (k = k') then Some v else JsMap.get k m.
Proof.
  induction m as [|[k0 v0] m IH]; simpl.
  - by repeat case_decide.
  - repeat (case_decide; simpl; simplify_eq; try done).
Qed.

Lemma jsmap_get_elem k v m : JsMap.get k m = Some v → (k, v) ∈ m.
Proof.
  induction m as [|[k0 v0] m IH]; simpl; [done|].
  case_decide; [intros [= ->]; subst; by left|intros ?; right; auto].
Qed.

Lemma jsmap_elem_get k v m : (k, v) ∈ m → is_Some (JsMap.get k m).
Proof.
  induction m as [|[k0 v0] m IH]; simpl; [by intros ?%elem_of_nil|].
  intros [[= -> ->]|?]%elem_of_cons; case_decide; by eauto.
Qed.

Lemma jsmap_set_elem k v m e : e ∈ JsMap.set k v m → e = (k, v) ∨ e ∈ m.
Proof.
  induction m as [|[k0 v0] m IH]; simpl.
  - intros ->%list_elem_of_singleton. by left.
  - case_decide.
    + intros [->|?]%elem_of_cons; [by left|right; by right].
    + intros [->|[?|?]%IH]%elem_of_cons; [right; by left|by left|right; by right].
Qed.

Lemma jsmap_get_None k m : k ∉ m.*1 → JsMap.get k m = None.
Proof.
  induction m as [|[k0 v0] m IH]; simpl; [done|].
  intros Hk. case_decide; [set_solver|]. apply IH. set_solver.
Qed.

Lemma jsmap_set_keys_NoDup k v m : NoDup m.*1 → NoDup (JsMap.set k v m).*1.
Proof.
  induction m as [|[k0 v0] m IH]; simpl; [intros; by apply NoDup_singleton|].
  intros [Hk0 Hm]%NoDup_cons. case_decide; subst; simpl.
  - by apply NoDup_cons.
  - apply NoDup_cons. split; [|by apply IH].
    intros ([k1 v1] & ? & [?|?]%jsmap_set_elem)%list_elem_of_fmap; simplify_eq/=.
    apply Hk0. apply list_elem_of_fmap. by exists (k1, v1).
Qed.
End jsmap_facts.

Section js_sort_facts.
Context {A : Type} (cmp : A → A → Z).

Lemma js_insert_perm x l : js_insert cmp x l ≡ₚ x :: l.
Proof.
  induction l as [|y l IH]; simpl; [done|].
  case_match; [|done]. rw IH. apply Permutation_swap.
Qed.

Lemma js_sort_perm l : js_sort cmp l ≡ₚ l.
Proof.
  induction l as [|x l IH]; simpl; [done|].
  by rw js_insert_perm IH.
Qed.

Lemma js_sort_elem x l : x ∈ js_sort cmp l ↔ x ∈ l.
Proof. by rw js_sort_perm. Qed.

(** A comparator [(a, b) => f(b) - f(a)] sorts by [f], largest first. *)
Context (f : A → nat) (Hcmp : ∀ a b, cmp a b = (Z.of_nat (f b) - Z.of_nat (f a))%Z).

Lemma js_insert_sorted x l :
  StronglySorted (fun a b => f b ≤ f a) l →
  StronglySorted (fun a b => f b ≤ f a) (js_insert cmp x l).
Proof.
  induction 1 as [|y l Hl IH Hy]; simpl.
  - repeat constructor.
  - destruct (Z.ltb_spec 0 (cmp x y)) as [Hlt|Hge]; rw Hcmp in Hlt || rw Hcmp in Hge.
    + constructor; [done|]. rw js_insert_perm. constructor; [lia|done].
    + constructor; [by constructor|]. constructor; [lia|].
      eapply Forall_impl; [done|]. simpl. lia.
Qed.

Lemma js_sort_sorted l : StronglySorted (fun a b => f b ≤ f a) (js_sort cmp l).
Proof.
  induction l as [|x l IH]; simpl; [constructor|by apply js_insert_sorted].
Qed.
End js_sort_facts.

(** ** The extractor *)

Section extractor_facts.
Import Regex Patterns Extractor.

Lemma lawIdMap_elem lawIndex k law :
  JsMap.get k (lawIdMap lawIndex) = Some law → law ∈ lawIndex ∧ id law = k.
Proof.
  unfold lawIdMap. revert k law.
  apply (foldl_invariant
           (fun m => ∀ k law, JsMap.get k m = Some law → law ∈ lawIndex ∧ id law = k));
    [done|].
  intros m law Hlaw IH k law'. rw jsmap_get_set.
  case_decide; [intros [= <-]; by subst|by apply IH].
Qed.

Lemma titleToLaw_elem lawIndex k law :
  JsMap.get k (titleToLaw lawIndex) = Some law → law ∈ lawIndex.
Proof.
  unfold titleToLaw. revert k law.
  apply (foldl_invariant
           (fun m => ∀ k law, JsMap.get k m = Some law → law ∈ lawIndex)); [done|].
  intros m law Hlaw IH k law'. rw jsmap_get_set.
  case_decide; [by intros [= <-]|by apply IH].
Qed.

Lemma abbrevMap_elem lawIndex abbreviations k law :
  (k, law) ∈ abbrevMap lawIndex abbreviations → law ∈ lawIndex.
Proof.
  unfold abbrevMap. revert k law.
  apply (foldl_invariant (fun m => ∀ k law, (k, law) ∈ m → law ∈ lawIndex));
    [by intros ?? ?%elem_of_nil|].
  intros m [key value] _ IH k law.
  destruct (truthy (law_id value)); [|by apply IH].
  destruct (JsMap.get _ (lawIdMap lawIndex)) as [law'|] eqn:Hget; [|by apply IH].
  intros [[= -> ->]|?]%jsmap_set_elem; [|by eapply IH].
  by apply lawIdMap_elem in Hget as [? _].
Qed.

Lemma knownLawNames_elem lawIndex abbreviations name law :
  (name, law) ∈ knownLawNames lawIndex abbreviations → law ∈ lawIndex.
Proof.
  unfold knownLawNames. rw js_sort_elem.
  intros [(law' & [= _ ->] & ?)%list_elem_of_fmap|?%abbrevMap_elem]%elem_of_app; done.
Qed.

Lemma lookupLaw_elem lawIndex abbreviations name law :
  lookupLaw (titleToLaw lawIndex) (abbrevMap lawIndex abbreviations) name = Some law →
  law ∈ lawIndex.
Proof.
  unfold lookupLaw.
  destruct (JsMap.get name (titleToLaw lawIndex)) as [law'|] eqn:Ht.
  - intros [= <-]. by eapply titleToLaw_elem.
  - intros ?%jsmap_get_elem. by eapply abbrevMap_elem.
Qed.

Lemma phase1_step_good lawIndex fromLaw xmlContent st name law :
  law ∈ lawIndex →
  Forall (good_ref lawIndex fromLaw) st.1 →
  Forall (good_ref lawIndex fromLaw) (phase1_step xmlContent fromLaw st (name, law)).1.
Proof.
  intros Hlaw Hst. destruct st as [references seen]. unfold phase1_step.
  repeat case_decide; try done.
  destruct (Js.indexOf xmlContent name) as [p|]; [|done].
  destruct (_ && _); [done|].
  destruct (match_prefix artPattern _) as [m|];
    destruct (match_prefix numPattern _); simpl;
    (apply Forall_app; split; [done|]; apply Forall_singleton; split; [done|];
     simpl; intros t [= <-]; split; [done|by exists law]).
Qed.

Lemma phase2_step_good lawIndex abbreviations fromLaw xmlContent st m :
  Forall (good_ref lawIndex fromLaw) st.1 →
  Forall (good_ref lawIndex fromLaw)
    (phase2_step (titleToLaw lawIndex) (abbrevMap lawIndex abbreviations)
       xmlContent fromLaw st m).1.
Proof.
  intros Hst. destruct st as [references seen]. unfold phase2_step.
  destruct (lookupLaw _ _ _) as [knownLaw|] eqn:Hlook.
  - apply lookupLaw_elem in Hlook.
    case_decide as Hd; [|done]. destruct Hd as [_ Hne]. simpl.
    apply Forall_app; split; [done|]. apply Forall_singleton; split; [done|].
    simpl; intros t [= <-]; split; [done|by exists knownLaw].
  - case_decide; [|done]. simpl.
    apply Forall_app; split; [done|]. apply Forall_singleton; split; [done|].
    by simpl.
Qed.

Lemma phase3_step_good lawIndex abbreviations fromLaw xmlContent st m :
  Forall (good_ref lawIndex fromLaw) st.1 →
  Forall (good_ref lawIndex fromLaw)
    (phase3_step (titleToLaw lawIndex) (abbrevMap lawIndex abbreviations)
       xmlContent fromLaw st m).1.
Proof.
  intros Hst. destruct st as [references seen]. unfold phase3_step.
  destruct (lookupLaw _ _ _) as [originalLaw|] eqn:Hlook; [|done].
  apply lookupLaw_elem in Hlook.
  case_decide as Hd; [|done]. destruct Hd as [_ Hne]. simpl.
  apply Forall_app; split; [done|]. apply Forall_singleton; split; [done|].
  simpl; intros t [= <-]; split; [done|by exists originalLaw].
Qed.

Lemma patterns_nonempty :
  1 ≤ min_len unknownLawWithNumPattern ∧ 1 ≤ min_len amendmentPattern.
Proof. vm_compute. lia. Qed.

Lemma analyzeFile_good lawIndex abbreviations lawId xmlContent :
  ∃ refs, analyzeFile lawIndex abbreviations lawId xmlContent = Some refs
    ∧ ∀ ref, ref ∈ refs →
        from_law_id ref = lawId
        ∧ ∀ t, to_law_id ref = Some t → t ≠ lawId ∧ ∃ law, law ∈ lawIndex ∧ id law = t.
Proof.
  unfold analyzeFile.
  destruct (JsMap.get lawId (lawIdMap lawIndex)) as [fromLaw|] eqn:Hfrom.
  - apply lawIdMap_elem in Hfrom as [_ <-]. unfold extractReferences.
    destruct (exec_all_total unknownLawWithNumPattern xmlContent) as [ms2 ->];
      [apply patterns_nonempty|].
    destruct (exec_all_total amendmentPattern xmlContent) as [ms3 ->];
      [apply patterns_nonempty|].
    simpl. eexists; split; [done|].
    apply Forall_forall.
    apply (foldl_invariant (fun st => Forall (good_ref lawIndex fromLaw) st.1));
      [|intros; by apply phase3_step_good].
    apply (foldl_invariant (fun st => Forall (good_ref lawIndex fromLaw) st.1));
      [|intros; by apply phase2_step_good].
    apply (foldl_invariant (fun st => Forall (good_ref lawIndex fromLaw) st.1));
      [by apply Forall_nil|].
    intros st [name law] Hin ?. apply phase1_step_good; [|done].
    by eapply knownLawNames_elem.
  - exists []. split; [done|]. by intros ? ?%elem_of_nil.
Qed.

(** C2: the worker ends on every chunk, and every reference it emits whose
    [to_law_id] is set cites another law than the one it comes from, and
    one of the registry; the three phases alike. *)
Theorem worker_references_no_self_known_target
    (lawIndex : list LawIndex) (abbreviations : list (jsstring * Abbreviation))
    (xmlFiles : list (jsstring * jsstring)) :
  ∃ refs, worker lawIndex abbreviations xmlFiles = Some refs
    ∧ ∀ ref t, ref ∈ refs → to_law_id ref = Some t →
        from_law_id ref ≠ t ∧ ∃ law, law ∈ lawIndex ∧ id law = t.
Proof.
  induction xmlFiles as [|[lawId xmlContent] rest (more & Hmore & IH)]; simpl.
  - exists []. split; [done|]. by intros ?? ?%elem_of_nil.
  - destruct (analyzeFile_good lawIndex abbreviations lawId xmlContent)
      as (refs & -> & Hrefs).
    rw Hmore. simpl. eexists; split; [done|].
    intros ref t [Hin|Hin]%elem_of_app Ht; [|by eapply IH].
    destruct (Hrefs ref Hin) as [Hfrom Hto].
    destruct (Hto t Ht) as [? ?]. split; [congruence|done].
Qed.

Lemma worker_references_no_self_known_target_witness :
  Js.str "B" ≠ Js.str "A"
  ∧ ∃ law, law ∈ scenarioRegistry None None None None ∧ id law = Js.str "A".
Proof.
  destruct (worker_references_no_self_known_target
              (scenarioRegistry None None None None) []
              [(Js.str "B", Js.str "民法（明治二十九年法律第八十九号）第三条")])
    as (refs & Hrefs & Hall).
  vm_compute in Hrefs. injection Hrefs as <-.
  exact (Hall _ (Js.str "A") (list_elem_of_here _ _) eq_refl).
Defined.

Lemma first_char_mismatch c r s st :
  s !! pos st ≠ Some c → rmatch (RSeq (RSeq (RChar c) REps) r) s st = [].
Proof.
  intros Hc. simpl. unfold step_char.
  destruct (s !! pos st) as [d|]; [|done].
  destruct (N.eqb_spec c d) as [->|]; [done|done].
Qed.

(** The two look-ahead patterns of phase 1 are anchored at the same place
    and start with different characters: text on which the
    promulgation-number pattern matches has no article match. *)
Lemma number_parenthetical_excludes_article afterText :
  is_Some (match_prefix numPattern afterText) → match_prefix artPattern afterText = None.
Proof.
  unfold match_prefix, match_at.
  destruct (decide (afterText !! 0 = Some 65288%N)) as [Hc|Hc].
  - intros _.
    change artPattern with
      (RSeq (RSeq (RChar 31532%N) REps)
         (cat [ RGroup 1 (RPlus (RClass false article_digit)); lit "条";
                ROpt (cat [lit "の"; RGroup 2 (RPlus (RClass false branch_digit))]);
                ROpt (cat [lit "第"; RGroup 3 (RPlus (RClass false branch_digit)); lit "項"]);
                ROpt (cat [lit "第"; RGroup 4 (RPlus (RClass false branch_digit)); lit "号"]) ])).
    rw first_char_mismatch; [done|]. simpl. by rw Hc.
  - change numPattern with
      (RSeq (RSeq (RChar 65288%N) REps) (cat [RGroup 1 era_number; lit "）"])).
    rw first_char_mismatch; [by intros [? [=]]|done].
Qed.

(** C1, as the code has it: for the document B with the text
    民法（明治二十九年法律第八十九号）第三条 the extractor yields exactly one
    reference, from B to A; the look-ahead reads the text right after the
    name, which is the parenthetical and not an article, so [article] is
    null and [ref_type] is [law_num_ref]; [to_law_num] is the [lawNum] of
    the registry record, not the number in the text. *)
Theorem scenario_parenthetical_is_law_num_ref (numA numB catA catB : option jsstring) :
  worker (scenarioRegistry numA numB catA catB) []
    [(Js.str "B", Js.str "民法（明治二十九年法律第八十九号）第三条")]
  = Some [ {| from_law_id := Js.str "B";
              from_law_title := Js.str "会社法";
              to_law_id := Some (Js.str "A");
              to_law_title := Js.str "民法";
              to_law_num := numA;
              article := None;
              paragraph := None;
              item := None;
              ref_type := law_num_ref |} ].
Proof. vm_compute. reflexivity. Qed.

(** C1 fails as stated: with the registry of the scenario (two records
    with an id and a title only) the one reference has no article (not
    第三条), the type [law_num_ref] (not [article_ref]) and no [to_law_num]
    (not 明治二十九年法律第八十九号). *)
Lemma scenario_parenthetical_counterexample :
  worker (scenarioRegistry None None None None) []
    [(Js.str "B", Js.str "民法（明治二十九年法律第八十九号）第三条")]
  = Some [ {| from_law_id := Js.str "B";
              from_law_title := Js.str "会社法";
              to_law_id := Some (Js.str "A");
              to_law_title := Js.str "民法";
              to_law_num := None;
              article := None;
              paragraph := None;
              item := None;
              ref_type := law_num_ref |} ].
Proof. vm_compute. reflexivity. Qed.

Lemma test_beforeChar c :
  test beforeCharPattern [c] = in_ranges c cjk_kana.
Proof.
  assert (H0 : rmatch beforeCharPattern [c] (MState 0 [])
               = if in_ranges c cjk_kana then [MState 1 []] else []) by reflexivity.
  assert (H1 : rmatch beforeCharPattern [c] (MState 1 []) = []) by reflexivity.
  unfold test. change (length [c]) with 1. unfold search, match_at.
  rw H0 H1. by destruct (in_ranges c cjk_kana).
Qed.

(** C8: in the scan of phase 1, a candidate whose first occurrence in the
    text comes right after a character of the class [一-龠ぁ-んァ-ヶ]
    leaves the references and the set [seen] as they were. So it is for
    the candidate 民法 in a text where it first occurs inside
    改正前民法第一条, and the document …改正前民法第一条… of the scenario
    yields no reference at all. *)
Theorem phase1_partial_match_guard :
  (∀ xmlContent fromLaw st name law p c,
     Js.indexOf xmlContent name = Some (S p) →
     xmlContent !! p = Some c →
     in_ranges c cjk_kana = true →
     phase1_step xmlContent fromLaw st (name, law) = st)
  ∧ (∀ before after fromLaw st law,
       Js.indexOf (before ++ Js.str "改正前民法第一条" ++ after) (Js.str "民法")
         = Some (length before + 3) →
       phase1_step (before ++ Js.str "改正前民法第一条" ++ after) fromLaw st
         (Js.str "民法", law) = st)
  ∧ (∀ numA numB catA catB,
       worker (scenarioRegistry numA numB catA catB) []
         [(Js.str "B", Js.str "…改正前民法第一条…")] = Some []).
Proof.
  assert (Hguard : ∀ xmlContent fromLaw st name law p c,
     Js.indexOf xmlContent name = Some (S p) →
     xmlContent !! p = Some c →
     in_ranges c cjk_kana = true →
     phase1_step xmlContent fromLaw st (name, law) = st).
  { intros xmlContent fromLaw [references seen] name law p c Hpos Hc Hcls.
    unfold phase1_step. repeat case_decide; try done.
    rw Hpos. simpl. rw Hc. simpl.
    by rw test_beforeChar Hcls. }
  split_and!; [done| |intros; by vm_compute].
  intros before after fromLaw st law Hpos.
  replace (length before + 3) with (S (length before + 2)) in Hpos by lia.
  eapply Hguard; [done| |].
  - rw lookup_app_r; [|lia].
    replace (length before + 2 - length before) with 2 by lia. reflexivity.
  - by vm_compute.
Qed.

Lemma phase1_partial_match_guard_witness :
  phase1_step (Js.str "改正前民法第一条") (mkLaw (Js.str "B") None (Js.str "会社法") None)
    ([], ∅) (Js.str "民法", mkLaw (Js.str "A") None (Js.str "民法") None) = ([], ∅).
Proof.
  apply (proj1 (proj2 phase1_partial_match_guard) [] []); vm_compute; reflexivity.
Defined.
End extractor_facts.

(** ** Reachability *)

Section bfs_facts.
Import Graph.
Context (neighborsOf : jsstring → list jsstring) (maxHops : option nat).
Context (startId : jsstring).

#[local] Abbreviation hops := (Graph.hops neighborsOf).
#[local] Abbreviation shortest := (Graph.shortest neighborsOf).
#[local] Abbreviation withinHops := (Graph.withinHops maxHops).
#[local] Abbreviation dist_of := (Graph.dist_of startId).
#[local] Abbreviation bfs_inv := (Graph.bfs_inv neighborsOf maxHops startId).

Lemma withinHops_0 : withinHops 0.
Proof. unfold withinHops. destruct maxHops; [lia|done]. Qed.

Lemma withinHops_next d : hopLimitReached d maxHops = false → withinHops (d + 1).
Proof.
  unfold withinHops, hopLimitReached. destruct maxHops; [|done].
  intros ?%bool_decide_eq_false. lia.
Qed.

Lemma withinHops_le d d' : d' ≤ d → withinHops d → withinHops d'.
Proof. unfold withinHops. destruct maxHops; [lia|done]. Qed.

Lemma not_reached_lt d d' :
  d < d' → withinHops d' → hopLimitReached d maxHops = false.
Proof.
  unfold withinHops, hopLimitReached. destruct maxHops; [|done].
  intros. apply bool_decide_eq_false. lia.
Qed.

Lemma reached_ge d d' :
  hopLimitReached d maxHops = true → hopLimitReached d' maxHops = false → d' < d.
Proof.
  unfold hopLimitReached. destruct maxHops; [|done].
  intros ?%bool_decide_eq_true ?%bool_decide_eq_false. lia.
Qed.

Lemma bfs_inv_init : bfs_inv [(startId, 0)] ∅ {[ startId ]}.
Proof.
  split.
  - intros v. unfold dist_of. rw elem_of_singleton lookup_empty.
    case_decide; split; try done.
  - done.
  - intros v d. unfold dist_of. rw lookup_empty.
    case_decide; [|done]. intros [= <-]. subst. split; [constructor|apply withinHops_0].
  - intros v d [= -> ->]%list_elem_of_singleton. unfold dist_of. by rw decide_True.
  - repeat constructor.
  - intros hv hd v d [= <- <-]. unfold dist_of. rw lookup_empty.
    case_decide; [|done]. intros [= <-]. lia.
  - intros v d. unfold dist_of. rw lookup_empty.
    case_decide; [|done]. subst. set_solver.
  - intros u w du dw. unfold dist_of. rw !lookup_empty.
    repeat case_decide; try done. intros [= <-] [= <-]. lia.
Qed.

Lemma dist_of_insert D w dw v :
  w ≠ startId →
  dist_of (<[w:=dw]> D) v = if decide (v = w) then Some dw else dist_of D v.
Proof.
  intros Hw. unfold dist_of. rw lookup_insert.
  repeat case_decide; simplify_eq; done.
Qed.

(** The inner loop, one neighbour [w] of the entry [(u, du)] in work. *)
Lemma visit_inv u du st w :
  bfs_inv ((u, du) :: queue st) (distances st) (visited st) →
  hopLimitReached du maxHops = false →
  w ∈ neighborsOf u →
  let st' := visit du st w in
  bfs_inv ((u, du) :: queue st') (distances st') (visited st')
  ∧ visited st ⊆ visited st' ∧ w ∈ visited st'.
Proof.
  intros Hinv Hdu Hw. unfold visit. case_decide as HwV; simpl; [done|].
  destruct st as [D q V]; simpl in *.
  destruct Hinv as [Hvis Hstart Hsound Hqueue Hsorted Hnear Hclosed Hedge].
  assert (Hws : w ≠ startId).
  { intros ->. apply HwV, Hvis. unfold dist_of. rw decide_True //. }
  assert (HwD : dist_of D w = None).
  { apply eq_None_not_Some. by rw -Hvis. }
  assert (Hu : dist_of D u = Some du) by (apply Hqueue; by left).
  assert (Hold : ∀ v d, dist_of D v = Some d → v ≠ w) by (intros v d ? ->; congruence).
  split; [|set_solver]. split.
  - intros v. rw dist_of_insert // elem_of_union elem_of_singleton Hvis.
    case_decide; [split; [by eexists|by left]|]. naive_solver.
  - by rw lookup_insert_ne.
  - intros v d. rw dist_of_insert //. case_decide; [|by apply Hsound].
    intros [= <-]. subst. split; [|by apply withinHops_next].
    rw Nat.add_1_r. apply hops_step with u; [by apply Hsound|done].
  - intros v d. rw dist_of_insert //.
    rw app_comm_cons elem_of_app list_elem_of_singleton.
    intros [Hin|[= -> ->]]; [|by rw decide_True].
    apply Hqueue in Hin. rw decide_False //. by eapply Hold.
  - rw app_comm_cons. apply StronglySorted_app_2; [|done|repeat constructor].
    intros [v d] x Hin ->%list_elem_of_singleton. simpl.
    eapply Hnear; [done|]. by apply Hqueue.
  - intros hv hd v d [= <- <-]. rw dist_of_insert //.
    case_decide; [intros [= <-]; lia|]. by apply (Hnear u).
  - intros v d. rw dist_of_insert //. rw app_comm_cons fmap_app not_elem_of_app.
    simpl. rw list_elem_of_singleton. intros Hd [Hnq Hne]. rw decide_False // in Hd.
    intros Hr x Hx. apply elem_of_union_r. by eapply Hclosed.
  - intros a b da db. rw !dist_of_insert //.
    destruct (decide (a = w)) as [->|Ha], (decide (b = w)) as [->|Hb].
    + intros [= <-] [= <-]. lia.
    + intros [= <-] Hb' _. pose proof (Hnear u du b db eq_refl Hb'). lia.
    + intros Ha' [= <-] Hab.
      destruct (decide (a ∈ ((u, du) :: q).*1)) as [Hq|Hq].
      * apply list_elem_of_fmap in Hq as ([a' da'] & -> & Hq). simpl in *.
        apply Hqueue in Hq as Hq'. rw Hq' in Ha'. injection Ha' as ->.
        apply elem_of_cons in Hq as [[= -> ->]|Hq]; [lia|].
        apply StronglySorted_cons in Hsorted as [Hall _].
        rw Forall_forall in Hall. specialize (Hall _ Hq). simpl in Hall. lia.
      * destruct (hopLimitReached da maxHops) eqn:Hr.
        -- pose proof (reached_ge _ _ Hr Hdu). lia.
        -- exfalso. apply HwV. by eapply Hclosed.
    + by apply Hedge.
Qed.

Lemma fold_visit_inv u du ws st :
  bfs_inv ((u, du) :: queue st) (distances st) (visited st) →
  hopLimitReached du maxHops = false →
  (∀ w, w ∈ ws → w ∈ neighborsOf u) →
  let st' := foldl (visit du) st ws in
  bfs_inv ((u, du) :: queue st') (distances st') (visited st')
  ∧ visited st ⊆ visited st' ∧ ∀ w, w ∈ ws → w ∈ visited st'.
Proof.
  revert st; induction ws as [|w ws IH]; intros st Hinv Hdu Hws; simpl.
  - split_and!; [done|done|by intros ? ?%elem_of_nil].
  - destruct (visit_inv u du st w Hinv Hdu) as (Hinv' & Hsub & Hw); [apply Hws; by left|].
    destruct (IH (visit du st w) Hinv' Hdu) as (Hinv'' & Hsub' & Hall).
    { intros. apply Hws. by right. }
    split_and!; [done|set_solver|].
    intros w' [->|?]%elem_of_cons; [set_solver|by apply Hall].
Qed.

(** The entry in work leaves the queue. *)
Lemma pop_inv u du q D V :
  bfs_inv ((u, du) :: q) D V →
  (hopLimitReached du maxHops = false → ∀ w, w ∈ neighborsOf u → w ∈ V) →
  bfs_inv q D V.
Proof.
  intros [Hvis Hstart Hsound Hqueue Hsorted Hnear Hclosed Hedge] Hu.
  apply StronglySorted_cons in Hsorted as [Hall Hsorted].
  split; try done.
  - intros v d ?. apply Hqueue. by right.
  - intros hv hd v d Hhd Hv. destruct q as [|[hv' hd'] q]; simplify_eq/=.
    apply Forall_cons in Hall as [? _]. simpl in *.
    pose proof (Hnear u du v d eq_refl Hv). lia.
  - intros v d Hv Hq Hr. destruct (decide (v = u)) as [->|Hne].
    + assert (dist_of D u = Some du) by (apply Hqueue; by left).
      simplify_eq. by apply Hu.
    + eapply Hclosed; [done| |done]. simpl. set_solver.
Qed.

Lemma bfs_round_inv st u du rest :
  queue st = (u, du) :: rest →
  bfs_inv (queue st) (distances st) (visited st) →
  let st' := bfs_round neighborsOf maxHops st u du rest in
  bfs_inv (queue st') (distances st') (visited st').
Proof.
  intros Hq Hinv. rw Hq in Hinv. unfold bfs_round.
  destruct (hopLimitReached du maxHops) eqn:Hr; simpl.
  - eapply pop_inv; [done|]. by rw Hr.
  - destruct (fold_visit_inv u du (neighborsOf u)
                {| distances := distances st; queue := rest; visited := visited st |})
      as (Hinv' & _ & Hall); [done..|].
    eapply pop_inv; [done|]. intros _. apply Hall.
Qed.

(** What the invariant says when the queue is empty. *)
Lemma bfs_inv_final D V :
  bfs_inv [] D V →
  (∀ v d, D !! v = Some d ↔ v ≠ startId ∧ withinHops d ∧ shortest startId v d)
  ∧ (∀ n v, hops startId n v → withinHops n → v ≠ startId →
       ∃ d, D !! v = Some d ∧ d ≤ n).
Proof.
  intros [Hvis Hstart Hsound Hqueue Hsorted Hnear Hclosed Hedge].
  assert (Hcomplete : ∀ n x, hops startId n x → withinHops n →
                      ∃ dx, dist_of D x = Some dx ∧ dx ≤ n).
  { intros n x Hhops. induction Hhops as [|n y w Hy IH Hw]; intros Hn.
    - exists 0. split; [|done]. unfold dist_of. by rw decide_True.
    - destruct IH as (dy & Hdy & Hle); [eapply withinHops_le; [|done]; lia|].
      assert (Hr : hopLimitReached dy maxHops = false).
      { eapply not_reached_lt; [|done]. lia. }
      assert (HwV : w ∈ V) by (eapply Hclosed; [done|set_solver|done|done]).
      apply Hvis in HwV as [dw Hdw]. exists dw. split; [done|].
      pose proof (Hedge y w dy dw Hdy Hdw Hw). lia. }
  assert (Hmin : ∀ x dx n, dist_of D x = Some dx → hops startId n x → dx ≤ n).
  { intros x dx n Hdx Hn.
    destruct (Hsound x dx Hdx) as [_ Hwithin].
    destruct (decide (n < dx)) as [Hlt|]; [|lia].
    destruct (Hcomplete n x Hn) as (dx' & Hdx' & ?);
      [eapply withinHops_le; [|done]; lia|].
    simplify_eq. lia. }
  split; [|intros n v Hn Hwithin Hne;
           destruct (Hcomplete n v Hn Hwithin) as (d & Hd & ?); exists d;
           unfold dist_of in Hd; by rw decide_False in Hd].
  intros v d. split.
  - intros Hd. assert (v ≠ startId) by (intros ->; congruence).
    assert (Hdv : dist_of D v = Some d) by (unfold dist_of; by rw decide_False).
    destruct (Hsound v d Hdv) as [? ?].
    split_and!; [done|done|]. split; [done|]. intros n. by apply Hmin.
  - intros (Hne & Hwithin & Hhops & Hleast).
    destruct (Hcomplete d v Hhops Hwithin) as (dv & Hdv & Hle).
    destruct (Hsound v dv Hdv) as [Hdv' _]. apply Hleast in Hdv'.
    assert (dv = d) as -> by lia.
    unfold dist_of in Hdv. by rw decide_False in Hdv.
Qed.

(** The loop ends: each round takes one entry from the queue, and every
    entry added is a node of [U] not seen before. *)
Context (U : gset jsstring) (HU : ∀ v w, w ∈ neighborsOf v → w ∈ U).

#[local] Abbreviation bfs_measure := (Graph.bfs_measure U).

Lemma visit_measure du st w :
  w ∈ U → bfs_measure (visit du st w) = bfs_measure st.
Proof.
  intros Hw. unfold visit, bfs_measure. case_decide as HwV; simpl; [done|].
  rw length_app /=.
  assert (U ∖ visited st = {[w]} ∪ U ∖ ({[w]} ∪ visited st)) as ->.
  { apply set_eq. intros x. destruct (decide (x = w)); set_solver. }
  rw size_union; [|set_solver]. rw size_singleton. lia.
Qed.

Lemma fold_visit_measure du ws st :
  (∀ w, w ∈ ws → w ∈ U) →
  bfs_measure (foldl (visit du) st ws) = bfs_measure st.
Proof.
  revert st; induction ws as [|w ws IH]; intros st Hws; simpl; [done|].
  rw IH; [|intros; apply Hws; by right].
  apply visit_measure. apply Hws. by left.
Qed.

Lemma bfs_round_measure st u du rest :
  queue st = (u, du) :: rest →
  S (bfs_measure (bfs_round neighborsOf maxHops st u du rest)) = bfs_measure st.
Proof.
  intros Hq. unfold bfs_round.
  destruct (hopLimitReached du maxHops).
  - unfold bfs_measure. simpl. by rw Hq.
  - rw fold_visit_measure; [|intros; by eapply HU].
    unfold bfs_measure. simpl. by rw Hq.
Qed.

Lemma bfs_loop_spec fuel st :
  bfs_measure st ≤ fuel →
  bfs_inv (queue st) (distances st) (visited st) →
  ∃ D V, bfs_loop neighborsOf maxHops fuel st = Some D ∧ bfs_inv [] D V.
Proof.
  revert st; induction fuel as [|fuel IH]; intros st Hfuel Hinv.
  - destruct st as [D [|[u du] rest] V]; simpl in *.
    + by exists D, V.
    + unfold bfs_measure in Hfuel. simpl in Hfuel. lia.
  - destruct st as [D [|[u du] rest] V]; cbn [bfs_loop queue].
    + by exists D, V.
    + apply IH.
      * pose proof (bfs_round_measure (BfsState D ((u, du) :: rest) V) u du rest eq_refl).
        lia.
      * by apply (bfs_round_inv (BfsState D ((u, du) :: rest) V)).
Qed.

(** The loop started at [startId]: it ends, and it records for each node
    other than the start, within the hop limit, the length of the shortest
    path to it, and nothing else. *)
Lemma bfs_correct fuel :
  S (size U) ≤ fuel →
  ∃ D, bfs_loop neighborsOf maxHops fuel (bfs_init startId) = Some D
    ∧ (∀ v d, D !! v = Some d ↔ v ≠ startId ∧ withinHops d ∧ shortest startId v d)
    ∧ (∀ n v, hops startId n v → withinHops n → v ≠ startId →
         ∃ d, D !! v = Some d ∧ d ≤ n).
Proof.
  intros Hfuel.
  destruct (bfs_loop_spec fuel (bfs_init startId)) as (D & V & HD & Hinv).
  - unfold bfs_measure. simpl.
    pose proof (subseteq_size (U ∖ {[startId]}) U). set_solver by lia.
  - apply bfs_inv_init.
  - exists D. split; [done|]. by eapply bfs_inv_final.
Qed.
End bfs_facts.

Section object_facts.
Import JsObject.
Context {A : Type}.
Implicit Types own target : gmap jsstring A.

Lemma objSet_delete key (value : A) own :
  delete protoKey (<[ key := value ]> own) = objSet key value (delete protoKey own).
Proof.
  unfold objSet. case_decide as Hk.
  - subst. by rw delete_insert_eq.
  - by rw delete_insert_ne.
Qed.

Lemma objSet_lookup key (value : A) own k :
  objSet key value own !! k
  = if decide (key = k ∧ key ≠ protoKey) then Some value else own !! k.
Proof.
  unfold objSet. case_decide as Hp.
  - rw decide_False //. by intros [_ ?].
  - rw lookup_insert. case_decide; [rw decide_True //|rw decide_False //]. by intros [? _].
Qed.

Lemma objSet_is_Some key (value : A) own k :
  is_Some (objSet key value own !! k) ↔ (k = key ∧ k ≠ protoKey) ∨ is_Some (own !! k).
Proof.
  rw objSet_lookup. case_decide as Hk.
  - destruct Hk as [-> ?]. split; [by left|by eexists].
  - split; [by right|]. intros [[-> ?]|?]; [|done]. by destruct Hk.
Qed.

Lemma objSet_union key (value : A) own target :
  objSet key value own ∪ target = objSet key value (own ∪ target).
Proof. unfold objSet. case_decide; [done|]. by rw insert_union_l. Qed.

Lemma objAssign_spec {B : Type} (f : B → A) target (source : gmap jsstring B) :
  objAssign f target source = delete protoKey (f <$> source) ∪ target.
Proof.
  unfold objAssign.
  apply (map_fold_weak_ind
           (fun r (m : gmap jsstring B) => r = delete protoKey (f <$> m) ∪ target)).
  - by rw fmap_empty delete_empty (left_id_L ∅ (∪)).
  - intros i x m r _ ->. by rw fmap_insert objSet_delete objSet_union.
Qed.

Lemma objAssign_lookup {B : Type} (f : B → A) (source : gmap jsstring B) k :
  objAssign f ∅ source !! k = if decide (k = protoKey) then None else f <$> source !! k.
Proof.
  rw objAssign_spec (right_id_L ∅ (∪)) lookup_delete lookup_fmap.
  repeat case_decide; simplify_eq; done.
Qed.

Lemma objAssign_proto {B : Type} (f : B → A) (source : gmap jsstring B) :
  objAssign f ∅ source !! protoKey = None.
Proof. rw objAssign_lookup. by case_decide. Qed.
End object_facts.

Section obj_bfs_facts.
Import JsObject Graph.
Context (adj : gmap jsstring (list jsstring)) (maxHops : option nat).
Context (startId : jsstring).

#[local] Abbreviation G := (neighborsObj adj).
#[local] Abbreviation bfs_inv := (Graph.bfs_inv G maxHops startId).
#[local] Abbreviation obj_safe := (Graph.obj_safe adj maxHops startId).

Lemma objGet_spec (v : jsstring) :
  match objGet adj v with
  | Own l => G v = l ∧ ¬ inheritedOnly adj v
  | Missing => G v = [] ∧ ¬ inheritedOnly adj v
  | Inherited => inheritedOnly adj v
  end.
Proof.
  unfold objGet, neighborsObj, inheritedOnly. destruct (adj !! v) eqn:Hv; simpl.
  - split; [done|]. by intros [? _].
  - case_decide; [done|]. split; [done|]. by intros [_ ?].
Qed.

Lemma hopLimit_below d d' :
  d' ≤ d → hopLimitReached d maxHops = false → hopLimitReached d' maxHops = false.
Proof.
  unfold hopLimitReached. destruct maxHops; [|done].
  intros ? ?%bool_decide_eq_false. apply bool_decide_eq_false. lia.
Qed.

Lemma hopLimit_within d : hopLimitReached d maxHops = false → withinHops maxHops d.
Proof.
  unfold hopLimitReached, withinHops. destruct maxHops; [|done].
  intros ?%bool_decide_eq_false. lia.
Qed.

Lemma obj_visit_sim du so sp w :
  obj_sim so sp → obj_sim (obj_visit du so w) (visit du sp w).
Proof.
  intros (Hq & Hv & Hd). unfold obj_visit, visit. rw Hv.
  case_decide; [done|]. split_and!; simpl; [by rw Hq|done|].
  by rw Hd objSet_delete.
Qed.

Lemma obj_fold_sim du ws so sp :
  obj_sim so sp → obj_sim (foldl (obj_visit du) so ws) (foldl (visit du) sp ws).
Proof.
  revert so sp; induction ws as [|w ws IH]; intros so sp Hsim; simpl; [done|].
  by apply IH, obj_visit_sim.
Qed.

(** The inner loop leaves the nodes seen before as they are, and puts
    every node it sees for the first time on the queue. *)
Lemma fold_visit_keeps du ws st v :
  let st' := foldl (visit du) st ws in
  (v ∈ visited st → v ∈ visited st' ∧ distances st' !! v = distances st !! v)
  ∧ (v ∈ visited st' → v ∈ visited st ∨ v ∈ (queue st').*1)
  ∧ (v ∈ (queue st).*1 → v ∈ (queue st').*1).
Proof.
  revert st; induction ws as [|w ws IH]; intros st; simpl; [by auto|].
  destruct (IH (visit du st w)) as (Hkeep & Hnew & Hq).
  unfold visit in *. case_decide as Hw; [done|]. simpl in *.
  split_and!.
  - intros Hv. destruct Hkeep as [? ->]; [set_solver|]. split; [done|].
    rw lookup_insert_ne //. by intros ->.
  - intros [[->%elem_of_singleton|?]%elem_of_union|?]%Hnew; [|by left|by right].
    right. apply Hq. rw fmap_app. set_solver.
  - intros ?. apply Hq. rw fmap_app. set_solver.
Qed.

Lemma obj_round_step so sp u du rest :
  queue sp = (u, du) :: rest → obj_sim so sp →
  bfs_inv (queue sp) (distances sp) (visited sp) → obj_safe sp →
  match obj_round adj maxHops so u du rest with
  | Returned so' =>
      obj_sim so' (bfs_round G maxHops sp u du rest)
      ∧ obj_safe (bfs_round G maxHops sp u du rest)
  | Thrown =>
      hops G startId du u ∧ hopLimitReached du maxHops = false ∧ inheritedOnly adj u
  end.
Proof.
  intros Hq (Hsq & Hsv & Hsd) Hinv Hsafe.
  assert (Hu : dist_of startId (distances sp) u = Some du).
  { apply (inv_queue _ _ _ _ _ _ Hinv). rw Hq. by left. }
  assert (HuV : u ∈ visited sp) by (apply (inv_visited _ _ _ _ _ _ Hinv); by eexists).
  set (sp0 := {| distances := distances sp; queue := rest; visited := visited sp |}).
  assert (Hsim0 : obj_sim {| distances := distances so; queue := rest; visited := visited so |} sp0)
    by done.
  assert (Hdone : ∀ sp', (∀ v, (v ∈ visited sp → v ∈ visited sp'
                                   ∧ distances sp' !! v = distances sp !! v)
                               ∧ (v ∈ visited sp' → v ∈ visited sp ∨ v ∈ (queue sp').*1)
                               ∧ (v ∈ rest.*1 → v ∈ (queue sp').*1)) →
            (hopLimitReached du maxHops = false → ¬ inheritedOnly adj u) →
            obj_safe sp').
  { intros sp' Hsp' Hufine v d Hv Hvq Hd Hr.
    destruct (Hsp' v) as (Hkeep & Hnew & Hrest).
    destruct (Hnew Hv) as [HvV|?]; [|done].
    destruct (Hkeep HvV) as [_ Hsame].
    assert (Hd' : dist_of startId (distances sp) v = Some d).
    { unfold dist_of in *. case_decide; [done|]. by rw -Hsame. }
    destruct (decide (v = u)) as [->|Hne]; [simplify_eq; by apply Hufine|].
    eapply Hsafe; [done| |done|done].
    rw Hq. simpl. intros [?|?]%elem_of_cons; [done|]. by apply Hvq, Hrest. }
  unfold obj_round, bfs_round. fold sp0.
  destruct (hopLimitReached du maxHops) eqn:Hr.
  - split; [done|]. apply Hdone; [|done]. intros v. simpl. by auto.
  - pose proof (objGet_spec u) as Hget.
    destruct (objGet adj u) as [l| |].
    + destruct Hget as [<- Hfine]. split; [by apply obj_fold_sim|].
      apply Hdone; [|done]. intros v. apply (fold_visit_keeps du (G u) sp0 v).
    + split_and!; [|done..]. by apply (inv_sound _ _ _ _ _ _ Hinv).
    + destruct Hget as [-> Hfine]. split; [done|].
      apply Hdone; [|done]. intros v. simpl. by auto.
Qed.

Context (U : gset jsstring) (HU : ∀ v w, w ∈ G v → w ∈ U).

Lemma obj_loop_spec fuel so sp :
  obj_sim so sp → bfs_measure U sp ≤ fuel →
  bfs_inv (queue sp) (distances sp) (visited sp) → obj_safe sp →
  ∃ r, obj_loop adj maxHops fuel so = Some r
    ∧ match r with
      | Returned D =>
          ∃ Dp V, D = delete protoKey Dp ∧ bfs_inv [] Dp V
            ∧ obj_safe {| distances := Dp; queue := []; visited := V |}
      | Thrown => meetsInherited adj maxHops startId
      end.
Proof.
  revert so sp; induction fuel as [|fuel IH]; intros so sp Hsim Hfuel Hinv Hsafe.
  - destruct Hsim as (Hq & Hv & Hd). destruct sp as [Dp [|[u du] rest] V]; simpl in *.
    + destruct so as [D q V']; simpl in *; subst. eexists. split; [done|].
      by exists Dp, V.
    + unfold bfs_measure in Hfuel. simpl in Hfuel. lia.
  - pose proof Hsim as (Hq & Hv & Hd).
    destruct sp as [Dp [|[u du] rest] V]; simpl in *.
    + destruct so as [D q V']; simpl in *; subst. eexists. split; [done|].
      by exists Dp, V.
    + destruct so as [D q V']; simpl in *; subst. cbn [obj_loop queue].
      pose proof (obj_round_step (BfsState (delete protoKey Dp) ((u, du) :: rest) V)
                    (BfsState Dp ((u, du) :: rest) V) u du rest eq_refl Hsim Hinv Hsafe)
        as Hstep.
      destruct (obj_round adj maxHops _ u du rest) as [so'|].
      * destruct Hstep as [Hsim' Hsafe']. apply (IH so' _ Hsim'); [|..|done].
        -- pose proof (bfs_round_measure G maxHops U HU
                         (BfsState Dp ((u, du) :: rest) V) u du rest eq_refl). lia.
        -- by apply (bfs_round_inv G maxHops startId (BfsState Dp ((u, du) :: rest) V)).
      * eexists. split; [done|]. by exists u, du.
Qed.

(** A search of [graph_worker.ts] ends: it throws when it meets a node
    that the adjacency object only inherits, and returns what a search on
    the graph of the own properties records, less [__proto__]. *)
Lemma obj_search fuel :
  S (size U) ≤ fuel →
  ∃ r, obj_loop adj maxHops fuel (bfs_init startId) = Some r
    ∧ searched adj maxHops startId r.
Proof.
  intros Hfuel.
  destruct (obj_loop_spec fuel (bfs_init startId) (bfs_init startId)) as (r & Hr & Hspec).
  - split_and!; [done..|]. simpl. by rw delete_empty.
  - unfold bfs_measure. simpl.
    pose proof (subseteq_size (U ∖ {[startId]}) U). set_solver by lia.
  - apply bfs_inv_init.
  - intros v d Hv Hq. simpl in *. set_solver.
  - exists r. split; [done|]. destruct r as [D|]; [|done].
    destruct Hspec as (Dp & V & -> & Hinv & Hsafe).
    destruct (bfs_inv_final G maxHops startId Dp V Hinv) as [HD Hcomplete].
    split_and!.
    + intros (v & d & Hhops & Hr' & Hbad).
      assert (∃ dv, dist_of startId Dp v = Some dv ∧ dv ≤ d) as (dv & Hdv & Hle).
      { unfold dist_of. case_decide; [exists 0; split; [done|lia]|].
        apply (Hcomplete d v); [done|by apply hopLimit_within|done]. }
      eapply (Hsafe v dv); simpl; [|set_solver|done| |done].
      * apply (inv_visited _ _ _ _ _ _ Hinv). by eexists.
      * by eapply hopLimit_below.
    + intros v d. rw lookup_delete. case_decide as Hp.
      * split; [done|]. by intros (_ & ? & _).
      * rw HD. naive_solver.
    + intros n v Hn Hw Hne Hp. rw lookup_delete_ne; [|done]. by apply Hcomplete.
Qed.
End obj_bfs_facts.

Section chunk_facts.
Import Graph Main.
Context {A : Type}.
Implicit Types (l : list A).

Lemma chunksOf_concat fuel c l :
  0 < c → length l ≤ fuel → concat (chunksOf fuel c l) = l.
Proof.
  intros Hc. revert l; induction fuel as [|fuel IH]; intros [|x l] Hl; simpl in *;
    [done|lia|done|].
  destruct c as [|c]; [lia|]. simpl.
  rw IH; [|rw length_drop; lia]. by rw take_drop.
Qed.

Lemma chunksOf_nonempty fuel c l :
  0 < c → Forall (fun ch => ch ≠ [] ∧ length ch ≤ c) (chunksOf fuel c l).
Proof.
  intros Hc. revert l; induction fuel as [|fuel IH]; intros [|x l]; simpl;
    [constructor..|].
  destruct c as [|c]; [lia|]. constructor; [|apply IH].
  split; [done|]. simpl. rw length_take. lia.
Qed.

Lemma chunksOf_count fuel c l :
  0 < c → length l ≤ fuel → (length (chunksOf fuel c l) - 1) * c < length l ∨ l = [].
Proof.
  intros Hc. revert l; induction fuel as [|fuel IH]; intros [|x l] Hl; simpl in *;
    [by right|lia|by right|].
  left. destruct c as [|c]; [lia|].
  destruct (IH (drop c l)) as [Hlt|Hnil]; [rw length_drop; lia| |].
  - rw length_drop in Hlt. simpl. nia.
  - simpl. rw Hnil. destruct fuel; simpl; lia.
Qed.

Lemma ceil_div_bound n w : 0 < w → n ≤ w * ((n + w - 1) / w).
Proof.
  intros Hw. pose proof (Nat.div_mod_eq (n + w - 1) w) as Hdm.
  pose proof (Nat.mod_upper_bound (n + w - 1) w). lia.
Qed.

(** The chunks are a partition of the list into at most [NUM_WORKERS]
    slices, none of them empty. *)
Lemma chunks_partition cpus l :
  concat (chunks cpus l) = l
  ∧ length (chunks cpus l) ≤ NUM_WORKERS cpus
  ∧ Forall (fun ch => ch ≠ []) (chunks cpus l).
Proof.
  unfold chunks. set (w := NUM_WORKERS cpus).
  assert (Hw : 0 < w) by (unfold w, NUM_WORKERS; lia).
  pose proof (ceil_div_bound (length l) w Hw) as Hceil.
  set (c := (length l + w - 1) / w) in *.
  destruct l as [|x l]; [simpl; split_and!; [done|lia|constructor]|].
  assert (Hc : 0 < c) by (simpl in Hceil; nia).
  split_and!.
  - by apply chunksOf_concat.
  - destruct (chunksOf_count (length (x :: l)) c (x :: l)) as [Hlt|?]; [done..| |done].
    nia.
  - eapply Forall_impl; [by apply chunksOf_nonempty|]. by intros ch [? _].
Qed.
End chunk_facts.

Section reachability_facts.
Import JsObject Graph Main.

Lemma targets_elem {A : Type} (f : A → list jsstring) (adj : gmap jsstring A) k a w :
  adj !! k = Some a → w ∈ f a → w ∈ targets f adj.
Proof.
  intros Hk Hw. unfold targets. apply elem_of_union_list.
  exists (list_to_set (f a)). split; [|by apply elem_of_list_to_set].
  apply list_elem_of_fmap. exists (k, a). split; [done|].
  by apply elem_of_map_to_list.
Qed.

Lemma neighborsObj_targets adj v w :
  w ∈ neighborsObj adj v → w ∈ targets (fun l => l) adj.
Proof.
  unfold neighborsObj. destruct (adj !! v) as [l|] eqn:Hv; simpl.
  - intros. by eapply (targets_elem (fun l => l)).
  - by intros ?%elem_of_nil.
Qed.

Lemma neighborsMap_targets adj v w :
  w ∈ neighborsMap adj v → w ∈ targets (fun m => m.*1) adj.
Proof.
  unfold neighborsMap. destruct (adj !! v) as [l|] eqn:Hv; simpl.
  - intros. by eapply (targets_elem (fun m => m.*1)).
  - by intros ?%elem_of_nil.
Qed.

Lemma computeReachability_searched startId outgoing maxHops :
  ∃ r, computeReachability startId outgoing maxHops = Some r
    ∧ searched outgoing maxHops startId r.
Proof.
  apply obj_search with (U := targets (fun l => l) outgoing); [|done].
  intros v w. apply neighborsObj_targets.
Qed.

Lemma computeReverseReachability_searched targetId incoming maxHops :
  ∃ r, computeReverseReachability targetId incoming maxHops = Some r
    ∧ searched incoming maxHops targetId r.
Proof. apply computeReachability_searched. Qed.

Lemma computeReachabilityFull_records startId outgoing maxHops :
  ∃ D, computeReachabilityFull startId outgoing maxHops = Some D
    ∧ records (neighborsMap outgoing) (Some maxHops) startId D.
Proof.
  apply bfs_correct with (U := targets (fun m => m.*1) outgoing); [|done].
  intros v w. apply neighborsMap_targets.
Qed.

Lemma computeReverseReachabilityFull_records targetId incoming outgoing maxHops :
  ∃ D, computeReverseReachabilityFull targetId incoming outgoing maxHops = Some D
    ∧ records (neighborsObj incoming) (Some maxHops) targetId D.
Proof.
  apply bfs_correct with (U := targets (fun l => l) incoming); [|done].
  intros v w. apply neighborsObj_targets.
Qed.

Lemma records_shortest neighborsOf maxHops startId D v d :
  records neighborsOf maxHops startId D → D !! v = Some d →
  shortest neighborsOf startId v d.
Proof. intros [HD _] Hd. by apply HD in Hd as (_ & _ & ?). Qed.

Lemma records_triangle neighborsOf maxHops startId D b c h :
  records neighborsOf maxHops startId D → D !! b = Some h → c ∈ neighborsOf b →
  hops neighborsOf startId (h + 1) c
  ∧ (∀ k, D !! c = Some k → k ≤ h + 1)
  ∧ (c ≠ startId → hopLimitReached h maxHops = false →
     ∃ k, D !! c = Some k ∧ k ≤ h + 1).
Proof.
  intros [HD Hcomplete] Hb Hc. apply HD in Hb as (_ & _ & Hhops & _).
  assert (Hhc : hops neighborsOf startId (h + 1) c).
  { rw Nat.add_1_r. by eapply hops_step. }
  split_and!; [done| |].
  - intros k (_ & _ & _ & Hleast)%HD. by apply Hleast in Hhc.
  - intros Hne Hr. destruct (Hcomplete (h + 1) c Hhc) as (k & ? & ?); [|done|].
    + by apply withinHops_next.
    + by exists k.
Qed.

Lemma records_start neighborsOf maxHops startId D :
  records neighborsOf maxHops startId D → D !! startId = None.
Proof.
  intros [HD _]. apply eq_None_not_Some. intros [d Hd]. by apply HD in Hd as [? _].
Qed.

Lemma records_capped neighborsOf maxHops startId D v d :
  records neighborsOf (Some maxHops) startId D → D !! v = Some d → d ≤ maxHops.
Proof. intros [HD _] Hd. by apply HD in Hd as (_ & ? & _). Qed.

Lemma records_mono neighborsOf H H' startId D D' :
  H ≤ H' →
  records neighborsOf (Some H) startId D → records neighborsOf (Some H') startId D' →
  D ⊆ D'.
Proof.
  intros Hle [HD _] [HD' _]. apply map_subseteq_spec. intros v d Hd.
  apply HD in Hd as (? & ? & ?). apply HD'. split_and!; [done| |done].
  simpl in *. lia.
Qed.

(** The same for the searches of [graph_worker.ts]. *)
Lemma records_obj_triangle adj maxHops startId D b c h :
  records_obj adj maxHops startId D → D !! b = Some h → c ∈ neighborsObj adj b →
  hops (neighborsObj adj) startId (h + 1) c
  ∧ (∀ k, D !! c = Some k → k ≤ h + 1)
  ∧ (c ≠ startId → c ≠ protoKey → hopLimitReached h maxHops = false →
     ∃ k, D !! c = Some k ∧ k ≤ h + 1).
Proof.
  intros (_ & HD & Hcomplete) Hb Hc. apply HD in Hb as (_ & _ & _ & Hhops & _).
  assert (Hhc : hops (neighborsObj adj) startId (h + 1) c).
  { rw Nat.add_1_r. by eapply hops_step. }
  split_and!; [done| |].
  - intros k (_ & _ & _ & _ & Hleast)%HD. by apply Hleast in Hhc.
  - intros Hne Hp Hr. destruct (Hcomplete (h + 1) c Hhc) as (k & ? & ?); [|done|done|].
    + by apply withinHops_next.
    + by exists k.
Qed.

Lemma records_obj_shortest_and_triangle adj maxHops startId D :
  records_obj adj maxHops startId D →
  shortest_and_triangle_obj (neighborsObj adj) maxHops startId D.
Proof.
  intros HD. split.
  - intros v d Hd. by apply HD in Hd as (_ & _ & _ & ?).
  - intros b c h. by apply records_obj_triangle.
Qed.

Lemma records_obj_start adj maxHops startId D :
  records_obj adj maxHops startId D → D !! startId = None.
Proof.
  intros (_ & HD & _). apply eq_None_not_Some. intros [d Hd]. by apply HD in Hd as [? _].
Qed.

Lemma records_obj_capped adj maxHops startId D v d :
  records_obj adj (Some maxHops) startId D → D !! v = Some d → d ≤ maxHops.
Proof. intros (_ & HD & _) Hd. by apply HD in Hd as (_ & _ & ? & _). Qed.

Lemma records_obj_mono adj H H' startId D D' :
  H ≤ H' →
  records_obj adj (Some H) startId D → records_obj adj (Some H') startId D' →
  D ⊆ D'.
Proof.
  intros Hle (_ & HD & _) (_ & HD' & _). apply map_subseteq_spec. intros v d Hd.
  apply HD in Hd as (? & ? & ? & ?). apply HD'. split_and!; [done|done| |done].
  simpl in *. lia.
Qed.

Lemma meetsInherited_mono adj H H' startId :
  H ≤ H' → meetsInherited adj (Some H) startId → meetsInherited adj (Some H') startId.
Proof.
  intros Hle (v & d & Hhops & Hr & Hbad). exists v, d. split_and!; [done| |done].
  simpl in *. apply bool_decide_eq_false in Hr. apply bool_decide_eq_false. lia.
Qed.

Lemma protoKey_inherited : protoKey ∈ objectPrototypeNames.
Proof. unfold objectPrototypeNames. rw !elem_of_cons. do 10 right. by left. Qed.

(** The search does not get beyond a node [__proto__] that has no
    property of its own: where it returns, it has not reached one. *)
Lemma records_obj_not_proto adj maxHops startId d :
  adj !! protoKey = None → ¬ meetsInherited adj maxHops startId →
  hops (neighborsObj adj) startId d protoKey → hopLimitReached d maxHops = true.
Proof.
  intros Hp Hno Hhops. apply not_false_is_true. intros Hr. apply Hno.
  exists protoKey, d. split_and!; [done..|]. split; [done|apply protoKey_inherited].
Qed.

Lemma graphWorkerLoop_spec laws outgoingObj incomingObj maxHops results :
  ∃ r, graphWorkerLoop laws outgoingObj incomingObj maxHops results = Some r
    ∧ match r with
      | Returned R =>
          ¬ workerMeetsInherited laws outgoingObj incomingObj maxHops
          ∧ (∀ k, is_Some (R !! k)
                  ↔ (k ∈ n_id <$> laws ∧ k ≠ protoKey) ∨ is_Some (results !! k))
          ∧ (∀ k e, R !! k = Some e →
               results !! k = Some e
               ∨ entry_records_obj outgoingObj incomingObj maxHops k e)
      | Thrown => workerMeetsInherited laws outgoingObj incomingObj maxHops
      end.
Proof.
  revert results; induction laws as [|law laws IH]; intros results; simpl.
  - eexists. split; [done|]. split_and!.
    + by intros (? & ?%elem_of_nil & _).
    + intros k. split; [by right|]. by intros [[?%elem_of_nil _]|?].
    + by left.
  - destruct (computeReachability_searched (n_id law) outgoingObj maxHops)
      as ([Df|] & -> & HDf); simpl; [|exists Thrown; split; [done|]; exists law; set_solver].
    destruct (computeReverseReachability_searched (n_id law) incomingObj maxHops)
      as ([Dt|] & -> & HDt); simpl; [|exists Thrown; split; [done|]; exists law; set_solver].
    destruct (IH (objSet (n_id law) (mkReach (n_title law) Df Dt) results))
      as (r & -> & Hr).
    exists r. split; [done|]. destruct r as [R|].
    + destruct Hr as (Hno & Hdom & Hent). split_and!.
      * intros (law' & [->|Hin]%elem_of_cons & Hm).
        -- destruct Hm as [Hm|Hm]; [by apply HDf|by apply HDt].
        -- apply Hno. by exists law'.
      * intros k. rw Hdom objSet_is_Some elem_of_cons. naive_solver.
      * intros k e [He|He]%Hent; [|by right].
        rw objSet_lookup in He. case_decide as Hk; [|by left].
        destruct Hk as [<- _]. simplify_eq. right. by split.
    + destruct Hr as (law' & Hin & Hm). exists law'. split; [by right|done].
Qed.

Lemma graphWorker_worked laws outgoingObj incomingObj maxHops :
  ∃ r, graphWorker laws outgoingObj incomingObj maxHops = Some r
    ∧ worked laws outgoingObj incomingObj maxHops r.
Proof.
  destruct (graphWorkerLoop_spec laws outgoingObj incomingObj maxHops ∅) as (r & Hr & Hspec).
  exists r. split; [done|]. destruct r as [R|]; [|done].
  destruct Hspec as (Hno & Hdom & Hent). split_and!; [done| |].
  - intros k. rw Hdom lookup_empty. split; [by intros [?|[? [=]]]|by left].
  - intros k e [?|?]%Hent; [by simplify_map_eq|done].
Qed.

Lemma landmarkLoop_spec importantLaws outgoing incoming reachability :
  ∃ R, landmarkLoop importantLaws outgoing incoming reachability = Some R
    ∧ (∀ k, is_Some (R !! k)
            ↔ (k ∈ n_id <$> importantLaws ∧ k ≠ protoKey) ∨ is_Some (reachability !! k))
    ∧ ∀ k e, R !! k = Some e →
        reachability !! k = Some e
        ∨ entry_records (neighborsMap outgoing) (neighborsObj incoming) (Some 50) k e.
Proof.
  revert reachability; induction importantLaws as [|law laws IH]; intros results; simpl.
  - exists results. split_and!; [done| |by left].
    intros k. split; [by right|]. by intros [[?%elem_of_nil _]|?].
  - destruct (computeReachabilityFull_records (n_id law) outgoing 50) as (Df & -> & HDf).
    destruct (computeReverseReachabilityFull_records (n_id law) incoming outgoing 50)
      as (Dt & -> & HDt). simpl.
    destruct (IH (objSet (n_id law) (mkReach (n_title law) Df Dt) results))
      as (R & -> & Hdom & HR).
    exists R. split_and!; [done| |].
    + intros k. rw Hdom objSet_is_Some elem_of_cons. naive_solver.
    + intros k e [He|He]%HR; [|by right].
      rw objSet_lookup in He. case_decide as Hk; [|by left].
      destruct Hk as [<- _]. simplify_eq. right. by split.
Qed.

(** The table does not depend on how the laws are shared among the
    workers. *)
Lemma graphWorkerLoop_app l1 l2 outgoingObj incomingObj maxHops results :
  graphWorkerLoop (l1 ++ l2) outgoingObj incomingObj maxHops results
  = andThen (graphWorkerLoop l1 outgoingObj incomingObj maxHops results)
      (graphWorkerLoop l2 outgoingObj incomingObj maxHops).
Proof.
  revert results; induction l1 as [|law l1 IH]; intros results; simpl; [done|].
  destruct (computeReachability _ _ _) as [[Df|]|]; simpl; [|done..].
  destruct (computeReverseReachability _ _ _) as [[Dt|]|]; simpl; [|done..].
  apply IH.
Qed.

Lemma graphWorkerLoop_union l outgoingObj incomingObj maxHops results :
  graphWorkerLoop l outgoingObj incomingObj maxHops results
  = andThen (graphWorkerLoop l outgoingObj incomingObj maxHops ∅)
      (fun R => Some (Returned (R ∪ results))).
Proof.
  revert results; induction l as [|law l IH]; intros results; simpl.
  - by rw (left_id_L ∅ (∪)).
  - destruct (computeReachability _ _ _) as [[Df|]|]; simpl; [|done..].
    destruct (computeReverseReachability _ _ _) as [[Dt|]|]; simpl; [|done..].
    rw IH (IH (objSet _ _ ∅)).
    destruct (graphWorkerLoop l outgoingObj incomingObj maxHops ∅) as [[R|]|]; simpl;
      [|done..].
    by rw -assoc_L objSet_union (left_id_L ∅ (∪)).
Qed.

Lemma runWorkers_concat (chunks : list (list GraphNode)) outgoingObj incomingObj maxHops acc :
  andThen (runWorkers (fun chunk => graphWorker chunk outgoingObj incomingObj maxHops) chunks)
    (fun results =>
       Some (Returned (foldl (fun reachability result =>
                                objAssign (fun e => e) reachability result) acc results)))
  = graphWorkerLoop (concat chunks) outgoingObj incomingObj maxHops acc.
Proof.
  revert acc; induction chunks as [|chunk chunks IH]; intros acc; simpl; [done|].
  rw graphWorkerLoop_app (graphWorkerLoop_union chunk).
  destruct (graphWorker_worked chunk outgoingObj incomingObj maxHops) as (r & Hr & Hw).
  unfold graphWorker in *. rw Hr.
  destruct (graphWorkerLoop_spec (concat chunks) outgoingObj incomingObj maxHops ∅)
    as (r' & Hr' & _).
  pose proof (IH ∅) as IH0. rw Hr' in IH0.
  destruct r as [R|]; simpl.
  - rw -IH. destruct (runWorkers _ chunks) as [[results|]|]; simpl; [|done..].
    rw objAssign_spec map_fmap_id delete_id //.
    destruct Hw as (_ & Hdom & _). apply eq_None_not_Some. rw Hdom. by intros [_ ?].
  - destruct (runWorkers _ chunks) as [[results|]|]; simpl in *; done.
Qed.

Lemma exhaustiveReachability_one_worker cpus laws references :
  exhaustiveReachability cpus laws references
  = if bool_decide (length laws = 0 ∨ length references = 0) then Some (Returned None)
    else
      andThen
        (graphWorker
           (activeNodes laws (buildAdjacencyList references).1
              (buildAdjacencyList references).2)
           (outgoingObjOf (buildAdjacencyList references).1)
           (incomingObjOf (buildAdjacencyList references).2) None)
        (fun R => Some (Returned (Some R))).
Proof.
  unfold exhaustiveReachability, graphWorker. case_bool_decide; [done|].
  destruct (buildAdjacencyList references) as [outgoing incoming]. simpl.
  pose proof (runWorkers_concat (chunks cpus (activeNodes laws outgoing incoming))
                (outgoingObjOf outgoing) (incomingObjOf incoming) None ∅) as Hc.
  rw (proj1 (chunks_partition cpus (activeNodes laws outgoing incoming))) in Hc.
  rw -Hc. unfold chunks, NUM_WORKERS, graphWorker.
  by destruct (runWorkers _ _) as [[results|]|].
Qed.

(** How a run of [build_graph_multi.ts] ends. *)
Lemma exhaustiveReachability_spec cpus laws references :
  ∃ r, exhaustiveReachability cpus laws references = Some r
    ∧ match r with
      | Returned None => length laws = 0 ∨ length references = 0
      | Returned (Some R) =>
          worked
            (activeNodes laws (buildAdjacencyList references).1
               (buildAdjacencyList references).2)
            (outgoingObjOf (buildAdjacencyList references).1)
            (incomingObjOf (buildAdjacencyList references).2) None (Returned R)
      | Thrown =>
          workerMeetsInherited
            (activeNodes laws (buildAdjacencyList references).1
               (buildAdjacencyList references).2)
            (outgoingObjOf (buildAdjacencyList references).1)
            (incomingObjOf (buildAdjacencyList references).2) None
      end.
Proof.
  rw exhaustiveReachability_one_worker. case_bool_decide; [by eexists|].
  destruct (graphWorker_worked
              (activeNodes laws (buildAdjacencyList references).1
                 (buildAdjacencyList references).2)
              (outgoingObjOf (buildAdjacencyList references).1)
              (incomingObjOf (buildAdjacencyList references).2) None) as (r & -> & Hw).
  destruct r as [R|]; simpl; by eexists.
Qed.

(** How a run of [build_full_graph.ts] ends. *)
Lemma landmarkReachability_spec laws references :
  ∃ r, landmarkReachability laws references = Some r
    ∧ match r with
      | None => length laws = 0 ∨ length references = 0
      | Some R =>
          (∀ k, is_Some (R !! k)
                ↔ k ∈ n_id <$> take 100 (js_sort byInDegreeDesc
                                 (activeNodes laws (buildAdjacencyList references).1
                                    (buildAdjacencyList references).2))
                  ∧ k ≠ protoKey)
          ∧ ∀ k e, R !! k = Some e →
              entry_records (neighborsMap (buildAdjacencyList references).1)
                (neighborsObj (buildAdjacencyList references).2) (Some 50) k e
      end.
Proof.
  unfold landmarkReachability. case_bool_decide; [by eexists|].
  destruct (buildAdjacencyList references) as [outgoing incoming]. simpl.
  destruct (landmarkLoop_spec
              (take 100 (js_sort byInDegreeDesc (activeNodes laws outgoing incoming)))
              outgoing incoming ∅) as (R & -> & Hdom & HR).
  exists (Some R). split; [done|]. split.
  - intros k. rw Hdom lookup_empty. split; [by intros [?|[? [=]]]|by left].
  - intros k e [?|?]%HR; [by simplify_map_eq|done].
Qed.

Lemma records_shortest_and_triangle neighborsOf maxHops startId D :
  records neighborsOf maxHops startId D →
  shortest_and_triangle neighborsOf maxHops startId D.
Proof.
  intros HD. split.
  - intros v d. by eapply records_shortest.
  - intros b c h. by apply records_triangle.
Qed.

(** C3: the reachability search ends, and what it records for a node is
    the length of the shortest directed path from the source; the recorded
    hop counts obey the triangle inequality. So for the search of
    [build_full_graph.ts], which always returns, and for the one of
    [graph_worker.ts] when it returns: that one works on a plain object,
    throws when it comes to a node that the object only inherits from
    [Object.prototype], and records nothing for the node [__proto__]. *)
Theorem computeReachability_shortest_triangle
    (startId : jsstring) (outgoingObj : gmap jsstring (list jsstring))
    (outgoing : gmap jsstring (list (jsstring * nat)))
    (maxHops : option nat) (cap : nat) :
  (∃ r, computeReachability startId outgoingObj maxHops = Some r
     ∧ match r with
       | Returned D =>
           ¬ meetsInherited outgoingObj maxHops startId
           ∧ shortest_and_triangle_obj (neighborsObj outgoingObj) maxHops startId D
       | Thrown => meetsInherited outgoingObj maxHops startId
       end)
  ∧ (∃ D, computeReachabilityFull startId outgoing cap = Some D
       ∧ shortest_and_triangle (neighborsMap outgoing) (Some cap) startId D).
Proof.
  split.
  - destruct (computeReachability_searched startId outgoingObj maxHops) as (r & ? & Hr).
    exists r. split; [done|]. destruct r as [D|]; [|done].
    split; [by destruct Hr|]. by apply records_obj_shortest_and_triangle.
  - destruct (computeReachabilityFull_records startId outgoing cap) as (D & ? & ?).
    exists D. split; [done|]. by apply records_shortest_and_triangle.
Qed.

Lemma computeReachability_shortest_triangle_witness :
  shortest (neighborsMap abcGraph) (Js.str "A") (Js.str "C") 2.
Proof.
  destruct (proj2 (computeReachability_shortest_triangle
                     (Js.str "A") ∅ abcGraph None 50)) as (D & HD & Hshortest & _).
  vm_compute in HD. injection HD as <-.
  apply Hshortest. vm_compute. reflexivity.
Defined.

Lemma entry_records_capped outgoingOf incomingOf cap k e :
  entry_records outgoingOf incomingOf (Some cap) k e → entry_capped cap e.
Proof.
  intros [Hf Ht] v d [?|?];
    [by apply (records_capped _ _ _ _ v d Hf)|by apply (records_capped _ _ _ _ v d Ht)].
Qed.

Lemma entry_records_obj_capped outgoingObj incomingObj cap k e :
  entry_records_obj outgoingObj incomingObj (Some cap) k e → entry_capped cap e.
Proof.
  intros [Hf Ht] v d [?|?];
    [by apply (records_obj_capped _ _ _ _ v d Hf)|by apply (records_obj_capped _ _ _ _ v d Ht)].
Qed.

Lemma records_obj_unbounded adj k D :
  adj !! protoKey = None → records_obj adj None k D →
  ∀ v d, D !! v = Some d ↔ v ≠ k ∧ shortest (neighborsObj adj) k v d.
Proof.
  intros Hp (Hno & HD & _) v d. rw HD. split; [naive_solver|].
  intros [? Hs]. split_and!; [done| |done..].
  intros ->. destruct Hs as [Hhops _].
  by pose proof (records_obj_not_proto adj None k d Hp Hno Hhops).
Qed.

Lemma entry_records_obj_unbounded
    (outgoing : gmap jsstring (list (jsstring * nat)))
    (incoming : gmap jsstring (list jsstring)) k e :
  entry_records_obj (outgoingObjOf outgoing) (incomingObjOf incoming) None k e →
  entry_unbounded (neighborsObj (outgoingObjOf outgoing))
    (neighborsObj (incomingObjOf incoming)) k e.
Proof.
  intros [Hf Ht]. split; apply records_obj_unbounded; try done; apply objAssign_proto.
Qed.

(** C4, as the code has it: the landmark script ([build_full_graph.ts])
    runs every forward and reverse search with the limit 50, and records no
    hop count above 50; a worker that is given a limit records no hop
    count above it. The exhaustive script ([build_graph_multi.ts]) gives
    its workers no limit: their searches are unbounded, and the table it
    writes records every node that can be reached. (Either script writes
    no table when there is no law or no reference; a worker, and with it
    the exhaustive script, ends with an exception when a search comes to
    a node that the adjacency object only inherits from
    [Object.prototype].) *)
Theorem hop_cap_by_mode :
  (∀ laws references,
     ∃ r, landmarkReachability laws references = Some r
       ∧ match r with
         | Some R => ∀ k e, R !! k = Some e → entry_capped 50 e
         | None => length laws = 0 ∨ length references = 0
         end)
  ∧ (∀ laws outgoingObj incomingObj cap,
       ∃ r, graphWorker laws outgoingObj incomingObj (Some cap) = Some r
         ∧ match r with
           | Returned R => ∀ k e, R !! k = Some e → entry_capped cap e
           | Thrown => workerMeetsInherited laws outgoingObj incomingObj (Some cap)
           end)
  ∧ (∀ cpus laws references,
       ∃ r, exhaustiveReachability cpus laws references = Some r
         ∧ match r with
           | Returned (Some R) =>
               ∀ k e, R !! k = Some e →
                 entry_unbounded
                   (neighborsObj (outgoingObjOf (buildAdjacencyList references).1))
                   (neighborsObj (incomingObjOf (buildAdjacencyList references).2)) k e
           | Returned None => length laws = 0 ∨ length references = 0
           | Thrown =>
               workerMeetsInherited
                 (activeNodes laws (buildAdjacencyList references).1
                    (buildAdjacencyList references).2)
                 (outgoingObjOf (buildAdjacencyList references).1)
                 (incomingObjOf (buildAdjacencyList references).2) None
           end).
Proof.
  split_and!.
  - intros laws references.
    destruct (landmarkReachability_spec laws references) as (r & -> & Hr).
    exists r. split; [done|]. destruct r as [R|]; [|done].
    intros k e ?%(proj2 Hr). by eapply entry_records_capped.
  - intros laws outgoingObj incomingObj cap.
    destruct (graphWorker_worked laws outgoingObj incomingObj (Some cap)) as (r & -> & Hr).
    exists r. split; [done|]. destruct r as [R|]; [|done].
    destruct Hr as (_ & _ & Hent). intros k e ?%Hent. by eapply entry_records_obj_capped.
  - intros cpus laws references.
    destruct (exhaustiveReachability_spec cpus laws references) as (r & -> & Hr).
    exists r. split; [done|]. destruct r as [[R|]|]; [|done..].
    destruct Hr as (_ & _ & Hent). intros k e ?%Hent.
    by apply entry_records_obj_unbounded.
Qed.

Lemma hop_cap_by_mode_witness :
  ∃ e, mjoin (landmarkReachability sampleRegistry
                [sampleRef (Js.str "A") (Js.str "B") None;
                 sampleRef (Js.str "B") (Js.str "C") None])
       ≫= (.!! Js.str "A") = Some e
    ∧ entry_capped 50 e.
Proof.
  destruct (proj1 hop_cap_by_mode sampleRegistry
              [sampleRef (Js.str "A") (Js.str "B") None; sampleRef (Js.str "B") (Js.str "C") None])
    as (r & Hr & Hcap).
  rw Hr. destruct r as [R|]; simpl.
  - destruct (R !! Js.str "A") as [e|] eqn:He.
    + exists e. split; [done|]. by eapply Hcap.
    + vm_compute in Hr. injection Hr as <-. by vm_compute in He.
  - by vm_compute in Hr.
Defined.

(** C4 fails as stated: on the chain the exhaustive script records the
    last law at 51 hops from the first, and the first at 51 hops towards
    the last, above the limit of 50 (which the landmark script keeps: it
    records the law 50 hops away and not the next). *)
Lemma exhaustive_mode_uncapped_counterexample :
  hopsFrom (written (exhaustiveReachability 4 chainLaws chainReferences))
    (chainNode 0) (chainNode 51) = Some 51
  ∧ hopsTo (written (exhaustiveReachability 4 chainLaws chainReferences))
      (chainNode 51) (chainNode 0) = Some 51
  ∧ hopsFrom (mjoin (landmarkReachability chainLaws chainReferences))
      (chainNode 0) (chainNode 50) = Some 50
  ∧ hopsFrom (mjoin (landmarkReachability chainLaws chainReferences))
      (chainNode 0) (chainNode 51) = None.
Proof. vm_compute. done. Qed.

(** C5: a search with the limit [H] records a subset of what the search
    with a larger limit [H'] records, with the same hop counts. For the
    search of [graph_worker.ts] this compares the two searches when the
    one with the larger limit returns; then the one with the smaller limit
    returns too. *)
Theorem computeReachability_monotone_in_cap
    (startId : jsstring) (outgoingObj : gmap jsstring (list jsstring))
    (outgoing : gmap jsstring (list (jsstring * nat))) (H H' : nat) :
  H < H' →
  (∃ r r', computeReachability startId outgoingObj (Some H) = Some r
     ∧ computeReachability startId outgoingObj (Some H') = Some r'
     ∧ match r' with
       | Returned D' =>
           ∃ D, r = Returned D ∧ dom D ⊆ dom D'
             ∧ ∀ v d d', D !! v = Some d → D' !! v = Some d' → d = d'
       | Thrown => meetsInherited outgoingObj (Some H') startId
       end)
  ∧ (∃ D D', computeReachabilityFull startId outgoing H = Some D
       ∧ computeReachabilityFull startId outgoing H' = Some D'
       ∧ dom D ⊆ dom D'
       ∧ ∀ v d d', D !! v = Some d → D' !! v = Some d' → d = d').
Proof.
  intros Hlt.
  assert (Hsub : ∀ D D' : gmap jsstring nat, D ⊆ D' →
            dom D ⊆ dom D' ∧ ∀ v d d', D !! v = Some d → D' !! v = Some d' → d = d').
  { intros D D' Hsub. split; [by apply subseteq_dom|].
    intros v d d' Hd Hd'. eapply lookup_weaken in Hd; [|done]. congruence. }
  split.
  - destruct (computeReachability_searched startId outgoingObj (Some H)) as (r & ? & Hr).
    destruct (computeReachability_searched startId outgoingObj (Some H')) as (r' & ? & Hr').
    exists r, r'. split_and!; [done|done|]. destruct r' as [D'|]; [|done].
    destruct r as [D|].
    + exists D. split; [done|]. apply Hsub. eapply records_obj_mono; [|done|done]. lia.
    + exfalso. destruct Hr' as [Hno _]. apply Hno.
      eapply meetsInherited_mono; [|done]. lia.
  - destruct (computeReachabilityFull_records startId outgoing H) as (D & ? & HD).
    destruct (computeReachabilityFull_records startId outgoing H') as (D' & ? & HD').
    exists D, D'. split_and!; [done|done|..]; apply Hsub;
      (eapply records_mono; [|done|done]; lia).
Qed.

Lemma computeReachability_monotone_in_cap_witness :
  ∃ D D', computeReachabilityFull (Js.str "A") abcGraph 1 = Some D
    ∧ computeReachabilityFull (Js.str "A") abcGraph 2 = Some D'
    ∧ dom D ⊆ dom D'
    ∧ ∀ v d d', D !! v = Some d → D' !! v = Some d' → d = d'.
Proof.
  apply (computeReachability_monotone_in_cap (Js.str "A") ∅ abcGraph 1 2). lia.
Defined.

(** C10: the start node is never a key of the result, forward or
    reverse, in either script: a law on a citation cycle is not reported as
    reachable from itself. (A search of [graph_worker.ts] has a result
    when it does not throw.) *)
Theorem reachability_excludes_start
    (startId : jsstring) (outgoingObj incomingObj : gmap jsstring (list jsstring))
    (outgoing : gmap jsstring (list (jsstring * nat)))
    (incoming : gmap jsstring (list jsstring)) (maxHops : option nat) (cap : nat) :
  (∃ r, computeReachability startId outgoingObj maxHops = Some r
     ∧ match r with
       | Returned D => D !! startId = None
       | Thrown => meetsInherited outgoingObj maxHops startId
       end)
  ∧ (∃ r, computeReverseReachability startId incomingObj maxHops = Some r
       ∧ match r with
         | Returned D => D !! startId = None
         | Thrown => meetsInherited incomingObj maxHops startId
         end)
  ∧ (∃ D, computeReachabilityFull startId outgoing cap = Some D ∧ D !! startId = None)
  ∧ (∃ D, computeReverseReachabilityFull startId incoming outgoing cap = Some D
       ∧ D !! startId = None).
Proof.
  split_and!.
  - destruct (computeReachability_searched startId outgoingObj maxHops) as (r & ? & Hr).
    exists r. split; [done|]. destruct r; [by eapply records_obj_start|done].
  - destruct (computeReverseReachability_searched startId incomingObj maxHops)
      as (r & ? & Hr).
    exists r. split; [done|]. destruct r; [by eapply records_obj_start|done].
  - destruct (computeReachabilityFull_records startId outgoing cap) as (D & ? & ?).
    exists D. split; [done|]. by eapply records_start.
  - destruct (computeReverseReachabilityFull_records startId incoming outgoing cap)
      as (D & ? & ?).
    exists D. split; [done|]. by eapply records_start.
Qed.
End reachability_facts.

(** ** The path finder *)

Section path_facts.
Import Graph.
Context (neighborsOf : jsstring → list jsstring) (fromId toId : jsstring).
Context (U : gset jsstring) (HU : ∀ v w, w ∈ neighborsOf v → w ∈ U).

#[local] Abbreviation walk := (Graph.walk neighborsOf).
#[local] Abbreviation path_inv := (Graph.path_inv neighborsOf fromId).
#[local] Abbreviation path_measure := (Graph.path_measure U).

Lemma walk_hops u v p : walk u v p → hops neighborsOf u (length p - 1) v.
Proof.
  induction 1 as [|v w p Hp IH Hw]; simpl; [constructor|].
  rw length_app /=.
  assert (0 < length p) by (destruct Hp; [simpl; lia|rw length_app /=; lia]).
  replace (length p + 1 - 1) with (S (length p - 1)) by lia.
  by eapply hops_step.
Qed.

Lemma path_scan_spec nodeId path ws st :
  walk fromId nodeId path →
  (∀ w, w ∈ ws → w ∈ neighborsOf nodeId) →
  path_inv st →
  match path_scan toId path ws st with
  | inl found => walk fromId toId found
  | inr st' => path_inv st' ∧ path_measure st' = path_measure st
  end.
Proof.
  intros Hnode. revert st; induction ws as [|w ws IH]; intros st Hws Hinv; simpl; [done|].
  assert (Hw : w ∈ neighborsOf nodeId) by (apply Hws; by left).
  assert (Hws' : ∀ w', w' ∈ ws → w' ∈ neighborsOf nodeId) by (intros; apply Hws; by right).
  case_decide as Hto; [subst; by eapply walk_step|].
  case_decide as Hvis; [by apply IH|].
  set (st1 := {| pqueue := pqueue st ++ [(w, path ++ [w])];
                 pvisited := {[w]} ∪ pvisited st |}).
  assert (Hinv1 : path_inv st1).
  { intros x p [?|[= -> ->]%list_elem_of_singleton]%elem_of_app; [by eapply Hinv|].
    by eapply walk_step. }
  assert (Hm1 : path_measure st1 = path_measure st).
  { unfold path_measure, st1. simpl. rw length_app /=.
    assert (U ∖ pvisited st = {[w]} ∪ U ∖ ({[w]} ∪ pvisited st)) as ->.
    { apply set_eq. intros x. pose proof (HU _ _ Hw).
      destruct (decide (x = w)); set_solver. }
    rw size_union; [|set_solver]. rw size_singleton. lia. }
  specialize (IH st1 Hws' Hinv1).
  destruct (path_scan toId path ws st1); [done|].
  destruct IH as [? ?]. split; [done|lia].
Qed.

Lemma path_loop_spec fuel st :
  path_measure st ≤ fuel → path_inv st →
  ∃ r, path_loop neighborsOf toId fuel st = Some r
    ∧ ∀ p, r = Some p → walk fromId toId p.
Proof.
  revert st; induction fuel as [|fuel IH]; intros [q V] Hfuel Hinv;
    destruct q as [|[nodeId path] rest]; cbn [path_loop pqueue pvisited].
  - by exists None.
  - unfold path_measure in Hfuel. simpl in Hfuel. lia.
  - by exists None.
  - assert (Hn : walk fromId nodeId path) by (apply Hinv; by left).
    pose proof (path_scan_spec nodeId path (neighborsOf nodeId)
                  {| pqueue := rest; pvisited := V |} Hn (fun _ H => H)) as Hscan.
    destruct (path_scan toId path (neighborsOf nodeId) _) as [found|st'].
    + exists (Some found). split; [done|]. intros p [= <-]. apply Hscan.
      intros x p ?. apply (Hinv x p). by right.
    + destruct Hscan as [Hinv' Hm]; [intros x p ?; apply (Hinv x p); by right|].
      apply IH; [|done]. unfold path_measure in *. simpl in *. lia.
Qed.

Lemma path_loop_from_start fuel :
  S (size U) ≤ fuel →
  ∃ r, path_loop neighborsOf toId fuel
         {| pqueue := [(fromId, [fromId])]; pvisited := {[ fromId ]} |} = Some r
    ∧ ∀ p, r = Some p → walk fromId toId p.
Proof.
  intros Hfuel. apply path_loop_spec.
  - unfold path_measure. simpl.
    pose proof (subseteq_size (U ∖ {[fromId]}) U). set_solver by lia.
  - intros x p [= -> ->]%list_elem_of_singleton. constructor.
Qed.
End path_facts.

Section findShortestPath_facts.
Import Graph.

Lemma findShortestPath_spec fromId toId outgoing :
  ∃ r, findShortestPath fromId toId outgoing = Some r
    ∧ ∀ p, r = Some p → walk (neighborsMap outgoing) fromId toId p.
Proof.
  unfold findShortestPath. case_decide as Heq.
  - subst. eexists. split; [done|]. intros p [= <-]. constructor.
  - apply path_loop_from_start with (U := targets (fun m => m.*1) outgoing); [|done].
    intros v w. apply neighborsMap_targets.
Qed.

(** C9: [findShortestPath] returns the path of the one node when the two
    ends are the same; on the graph with the edges A→B and B→C it returns
    [A, B, C] (2 hops) from A to C and [null] from C to A; and it returns
    [null] whenever no directed path leads from the source to the
    target. It always ends, and a path it returns is a directed path from
    the source to the target. (The [findPath] of [build_graph_multi.ts] is
    the same code.) *)
Theorem findShortestPath_trivial_example_unreachable :
  (∀ fromId outgoing, findShortestPath fromId fromId outgoing = Some (Some [fromId]))
  ∧ findShortestPath (Js.str "A") (Js.str "C") abcGraph
    = Some (Some [Js.str "A"; Js.str "B"; Js.str "C"])
  ∧ length [Js.str "A"; Js.str "B"; Js.str "C"] - 1 = 2
  ∧ findShortestPath (Js.str "C") (Js.str "A") abcGraph = Some None
  ∧ (∀ fromId toId outgoing,
       (∀ n, ¬ hops (neighborsMap outgoing) fromId n toId) →
       findShortestPath fromId toId outgoing = Some None)
  ∧ (∀ fromId toId outgoing,
       ∃ r, findShortestPath fromId toId outgoing = Some r
         ∧ ∀ p, r = Some p → walk (neighborsMap outgoing) fromId toId p).
Proof.
  split_and!.
  - intros fromId outgoing. unfold findShortestPath. by rw decide_True.
  - by vm_compute.
  - done.
  - by vm_compute.
  - intros fromId toId outgoing Hno.
    destruct (findShortestPath_spec fromId toId outgoing) as ([p|] & -> & Hr); [|done].
    specialize (Hr p eq_refl). apply walk_hops in Hr. by apply Hno in Hr.
  - apply findShortestPath_spec.
Qed.

Lemma findShortestPath_unreachable_witness :
  findShortestPath (Js.str "C") (Js.str "A") abcGraph = Some None.
Proof.
  apply (proj1 (proj2 (proj2 (proj2 (proj2 findShortestPath_trivial_example_unreachable))))).
  assert (Hstay : ∀ n v, hops (neighborsMap abcGraph) (Js.str "C") n v → v = Js.str "C").
  { intros n v Hn. induction Hn as [|n v w _ -> Hw]; [done|].
    vm_compute in Hw. by apply elem_of_nil in Hw. }
  intros n Hn. apply Hstay in Hn. by vm_compute in Hn.
Defined.
End findShortestPath_facts.

(** ** Backlinks *)

Section backlink_facts.
Import JsObject Coordinator.

Lemma fromMap_set_sum k (fm : list (jsstring * nat)) :
  sum_list_with snd (JsMap.set k (default 0 (JsMap.get k fm) + 1) fm)
  = sum_list_with snd fm + 1.
Proof.
  induction fm as [|[k0 v0] fm IH]; simpl; [done|].
  case_decide; simpl; [lia|]. rw IH. lia.
Qed.

Lemma truthy_Some o : truthy o = true → o = Some (default [] o).
Proof. by destruct o as [[|]|]. Qed.

Lemma countStep_get cm ref to :
  JsMap.get to (countStep cm ref)
  = if decide (cites to ref) then
      Some (JsMap.set (from_law_id ref)
              (default 0 (JsMap.get (from_law_id ref) (default [] (JsMap.get to cm))) + 1)
              (default [] (JsMap.get to cm)))
    else JsMap.get to cm.
Proof.
  unfold countStep, JsMap.has.
  destruct (decide (cites to ref)) as [[Ht Hs]|Hn].
  - rw Ht Hs /=. rw jsmap_get_set decide_True //.
    case_bool_decide as Hhas; [done|].
    rw jsmap_get_set decide_True //.
    apply eq_None_not_Some in Hhas. by rw Hhas.
  - destruct (truthy (to_law_id ref)) eqn:Ht; [|done].
    apply truthy_Some in Ht as Hsome. set (to' := default [] (to_law_id ref)) in *.
    assert (to ≠ to') by (intros ->; by apply Hn).
    rw jsmap_get_set decide_False //.
    case_bool_decide; [done|]. by rw jsmap_get_set decide_False.
Qed.

Lemma countStep_keys_NoDup cm ref : NoDup cm.*1 → NoDup (countStep cm ref).*1.
Proof.
  intros Hcm. unfold countStep. destruct (truthy _); [|done].
  apply jsmap_set_keys_NoDup. case_match; [done|by apply jsmap_set_keys_NoDup].
Qed.

Lemma buildCountMap_keys_NoDup refs : NoDup (buildCountMap refs).*1.
Proof.
  apply (foldl_invariant (fun cm => NoDup cm.*1)); [constructor|].
  intros. by apply countStep_keys_NoDup.
Qed.

Lemma buildCountMap_sum refs to :
  sum_list_with snd (default [] (JsMap.get to (buildCountMap refs)))
  = length (filter (cites to) refs).
Proof.
  unfold buildCountMap.
  enough (∀ cm, sum_list_with snd (default [] (JsMap.get to (foldl countStep cm refs)))
                = sum_list_with snd (default [] (JsMap.get to cm))
                  + length (filter (cites to) refs)) as H by apply (H []).
  induction refs as [|ref refs IH]; intros cm; simpl; [lia|].
  rw IH countStep_get filter_cons.
  case_decide; simpl; [|done]. rw fromMap_set_sum. lia.
Qed.

Lemma buildCountMap_None refs to :
  (∀ ref, ref ∈ refs → ¬ cites to ref) → JsMap.get to (buildCountMap refs) = None.
Proof.
  intros Hno. unfold buildCountMap.
  apply (foldl_invariant (fun cm => JsMap.get to cm = None)); [done|].
  intros cm ref Href Hcm. rw countStep_get decide_False //. by apply Hno.
Qed.


Lemma seedBacklinks_lookup laws :
  (∀ k e, b_own (seedBacklinks laws) !! k = Some e →
     k ≠ protoKey ∧ e_law_id e = k ∧ referenced_by e = [])
  ∧ (∀ e, b_proto (seedBacklinks laws) = Some e →
       e_law_id e = protoKey ∧ referenced_by e = []).
Proof.
  unfold seedBacklinks.
  apply (foldl_invariant
           (fun b : backlinksObj =>
              (∀ k e, b_own b !! k = Some e →
                 k ≠ protoKey ∧ e_law_id e = k ∧ referenced_by e = [])
              ∧ (∀ e, b_proto b = Some e → e_law_id e = protoKey ∧ referenced_by e = [])));
    [done|].
  intros b law _ [IHown IHproto]. unfold backlinksSet. case_decide as Hid; simpl.
  - split; [done|]. intros e [= <-]. by rw Hid.
  - split; [|done]. intros k e. rw lookup_insert.
    case_decide; [intros [= <-]; by subst|by apply IHown].
Qed.

Lemma seedBacklinks_is_Some laws k :
  (is_Some (b_own (seedBacklinks laws) !! k) ↔ k ≠ protoKey ∧ ∃ law, law ∈ laws ∧ id law = k)
  ∧ (is_Some (b_proto (seedBacklinks laws)) ↔ ∃ law, law ∈ laws ∧ id law = protoKey).
Proof.
  unfold seedBacklinks.
  enough (∀ b : backlinksObj,
            let b' := foldl (fun b law =>
                               backlinksSet (id law) (mkEntry (id law) (title law) []) b)
                            b laws in
            (is_Some (b_own b' !! k)
             ↔ is_Some (b_own b !! k) ∨ (k ≠ protoKey ∧ ∃ law, law ∈ laws ∧ id law = k))
            ∧ (is_Some (b_proto b')
               ↔ is_Some (b_proto b) ∨ ∃ law, law ∈ laws ∧ id law = protoKey)) as H.
  { destruct (H {| b_own := ∅; b_proto := None |}) as [-> ->]. simpl. rw lookup_empty.
    split; (split; [intros [[? [=]]|?]; done|by right]). }
  induction laws as [|law laws IH]; intros b; simpl.
  - split; (split; [by left|]).
    + by intros [?|(_ & ? & ?%elem_of_nil & _)].
    + by intros [?|(? & ?%elem_of_nil & _)].
  - destruct (IH (backlinksSet (id law) (mkEntry (id law) (title law) []) b)) as [-> ->].
    unfold backlinksSet. case_decide as Hid; simpl.
    + split.
      * split; [intros [?|(? & law' & ? & ?)]; [by left|right]|].
        -- split; [done|]. exists law'. split; [by right|done].
        -- intros [?|(? & law' & [->|?]%elem_of_cons & ?)]; [by left|congruence|].
           right. split; [done|]. by exists law'.
      * split; [intros _; right; exists law; split; [by left|done]|].
        intros _. left. by eexists.
    + split.
      * rw lookup_insert. split.
        -- intros [Hs|(? & law' & ? & ?)]; [|right; split; [done|]; exists law';
                                               split; [by right|done]].
           case_decide; [|by left]. subst. right. split; [done|].
           exists law. split; [by left|done].
        -- intros [Hs|(? & law' & [->|?]%elem_of_cons & ?)].
           ++ left. case_decide; [by eexists|done].
           ++ left. rw decide_True //.
           ++ right. split; [done|]. by exists law'.
      * split.
        -- intros [?|(law' & ? & ?)]; [by left|right]. exists law'. split; [by right|done].
        -- intros [?|(law' & [->|?]%elem_of_cons & ?)]; [by left|done|right]. by exists law'.
Qed.


Lemma backlinkStep_kind laws b e b' :
  backlinkStep laws b e = Returned b' →
  ∀ k, backlinksGet b' k = OtherTruthy ↔ backlinksGet b k = OtherTruthy.
Proof.
  destruct e as [to fm]. unfold backlinkStep.
  destruct (backlinksGet b to) as [entry|entry| |] eqn:Hget; intros [= <-] k; [| |done].
  - unfold backlinksGet in *. simpl. rw lookup_insert.
    destruct (b_own b !! to) as [entry'|] eqn:Hto; [|by repeat case_match].
    case_decide; [subst; by rw Hto|done].
  - unfold backlinksGet in *. simpl.
    destruct (b_own b !! to); [done|]. destruct (b_own b !! k); [done|].
    destruct (b_proto b) as [entry'|]; [|by case_decide]. simpl.
    repeat case_decide; simplify_eq; done.
Qed.

(** The third loop throws for a cited id under which the object has a
    truthy value that is no entry; else it leaves in each entry its
    referrers, sorted. *)
Lemma backlink_fold_spec (laws : list LawIndex)
    (cm : list (jsstring * list (jsstring * nat))) (b : backlinksObj) :
  NoDup cm.*1 →
  match foldC (backlinkStep laws) b cm with
  | Returned b' =>
      (∀ to fm, (to, fm) ∈ cm → backlinksGet b to ≠ OtherTruthy)
      ∧ ∀ k, b_own b' !! k
             = match JsMap.get k cm with
               | Some fromMap =>
                   (fun entry =>
                      mkEntry (e_law_id entry) (e_law_title entry)
                        (js_sort byCountDesc
                           (pushReferrers laws fromMap (referenced_by entry))))
                     <$> b_own b !! k
               | None => b_own b !! k
               end
  | Thrown => ∃ to fm, (to, fm) ∈ cm ∧ backlinksGet b to = OtherTruthy
  end.
Proof.
  revert b; induction cm as [|[k0 fm0] cm IH]; intros b Hnd.
  - simpl. split; [by intros ?? ?%elem_of_nil|done].
  - rw fmap_cons in Hnd. apply NoDup_cons in Hnd as [Hk0 Hcm].
    change (foldC (backlinkStep laws) b ((k0, fm0) :: cm))
      with (match backlinkStep laws b (k0, fm0) with
            | Returned b1 => foldC (backlinkStep laws) b1 cm
            | Thrown => Thrown
            end).
    destruct (backlinkStep laws b (k0, fm0)) as [b1|] eqn:Hstep.
    + pose proof (backlinkStep_kind laws b (k0, fm0) b1 Hstep) as Hkind.
      specialize (IH b1 Hcm). destruct (foldC (backlinkStep laws) b1 cm) as [b'|].
      * destruct IH as [Hno Hlook]. split.
        -- intros to fm [[= -> ->]|Hin]%elem_of_cons.
           ++ unfold backlinkStep in Hstep. by destruct (backlinksGet b k0).
           ++ rw -Hkind. by eapply Hno.
        -- intros k. rw Hlook. unfold backlinkStep in Hstep. simpl.
           assert (Hown : backlinksGet b k0 = OtherTruthy ∨
                          b_own b1 = match b_own b !! k0 with
                                     | Some entry =>
                                         <[ k0 := mkEntry (e_law_id entry) (e_law_title entry)
                                                    (js_sort byCountDesc
                                                       (pushReferrers laws fm0
                                                          (referenced_by entry))) ]> (b_own b)
                                     | None => b_own b
                                     end).
           { unfold backlinksGet in *. destruct (b_own b !! k0) as [entry|] eqn:Hb.
             - injection Hstep as <-. by right.
             - destruct (b_proto b); repeat case_decide; simplify_eq; by auto. }
           destruct Hown as [Hthrow| ->]; [by rw Hthrow in Hstep|].
           case_decide as Hk; subst.
           ++ rw jsmap_get_None //.
              destruct (b_own b !! k0) as [entry|] eqn:Hb; [by rw lookup_insert_eq|by rw Hb].
           ++ destruct (b_own b !! k0) as [entry|] eqn:Hb; [by rw lookup_insert_ne|done].
      * destruct IH as (to & fm & Hin & Hget). exists to, fm. split; [by right|].
        by apply Hkind.
    + exists k0, fm0. split; [by left|].
      unfold backlinkStep in Hstep. by destruct (backlinksGet b k0).
Qed.

Lemma buildCountMap_cited refs to :
  is_Some (JsMap.get to (buildCountMap refs)) ↔ ∃ ref, ref ∈ refs ∧ cites to ref.
Proof.
  pose proof (buildCountMap_sum refs to) as Hsum. split.
  - intros [fm Hfm].
    destruct (decide (Exists (cites to) refs)) as [(ref & ? & ?)%Exists_exists|Hno];
      [by exists ref|].
    rw buildCountMap_None in Hfm; [done|].
    intros ref Href Hc. apply Hno, Exists_exists. by exists ref.
  - intros (ref & Href & Hc).
    destruct (JsMap.get to (buildCountMap refs)); [by eexists|]. simpl in Hsum.
    assert (ref ∈ filter (cites to) refs) as Hin by (by apply list_elem_of_filter).
    destruct (filter (cites to) refs); [by apply elem_of_nil in Hin|done].
Qed.

(** How [buildBacklinks] ends. *)
Lemma buildBacklinks_spec references laws :
  match buildBacklinks references laws with
  | Returned b =>
      (∀ ref to, ref ∈ references → cites to ref →
         backlinksGet (seedBacklinks laws) to ≠ OtherTruthy)
      ∧ ∀ k, b_own b !! k
             = match JsMap.get k (buildCountMap references) with
               | Some fromMap =>
                   (fun entry =>
                      mkEntry (e_law_id entry) (e_law_title entry)
                        (js_sort byCountDesc
                           (pushReferrers laws fromMap (referenced_by entry))))
                     <$> b_own (seedBacklinks laws) !! k
               | None => b_own (seedBacklinks laws) !! k
               end
  | Thrown =>
      ∃ ref to, ref ∈ references ∧ cites to ref
        ∧ backlinksGet (seedBacklinks laws) to = OtherTruthy
        ∧ ∀ law, law ∈ laws → id law ≠ to
  end.
Proof.
  unfold buildBacklinks.
  pose proof (backlink_fold_spec laws (buildCountMap references) (seedBacklinks laws)
                (buildCountMap_keys_NoDup references)) as Hfold.
  destruct (foldC _ _ _) as [b|].
  - destruct Hfold as [Hno Hlook]. split; [|done].
    intros ref to Href Hc.
    destruct (proj2 (buildCountMap_cited references to)) as [fm Hfm]; [by exists ref|].
    eapply Hno. by apply jsmap_get_elem.
  - destruct Hfold as (to & fm & Hin & Hget).
    destruct (proj1 (buildCountMap_cited references to)) as (ref & Href & Hc).
    { by eapply jsmap_elem_get. }
    exists ref, to. split_and!; [done..|].
    intros law Hlaw <-.
    destruct (seedBacklinks_is_Some laws (id law)) as [Hown Hproto].
    unfold backlinksGet in Hget.
    destruct (b_own (seedBacklinks laws) !! id law) eqn:Hb; [done|].
    destruct (decide (id law = protoKey)) as [Hid|Hid].
    + destruct (proj2 Hproto) as [e He]; [by exists law|].
      by rw He in Hget.
    + destruct (proj2 Hown) as [e He]; [split; [done|by exists law]|]. congruence.
Qed.


End backlink_facts.

(** ** Deduplication *)

Section dedupe.
Import Coordinator.

Lemma dedupe_filter_elem seen refs r :
  r ∈ dedupe_filter seen refs → r ∈ refs ∧ dedupKey r ∉ seen.
Proof.
  revert seen; induction refs as [|x refs IH]; intros seen; simpl.
  - by intros ?%elem_of_nil.
  - case_decide as Hx.
    + intros [??]%IH. split; [by right|done].
    + intros [->|[? Hn]%IH]%elem_of_cons; [by split; [left|]|].
      split; [by right|set_solver].
Qed.

Lemma dedupe_filter_idem seen refs :
  dedupe_filter seen (dedupe_filter seen refs) = dedupe_filter seen refs.
Proof.
  revert seen; induction refs as [|x refs IH]; intros seen; simpl; [done|].
  case_decide as Hx; [done|].
  simpl. rw decide_False //. by rw IH.
Qed.

Lemma dedupe_filter_sublist seen refs : sublist (dedupe_filter seen refs) refs.
Proof.
  revert seen; induction refs as [|x refs IH]; intros seen; simpl; [done|].
  case_decide; [by apply sublist_cons|by apply sublist_skip].
Qed.

Lemma dedupe_filter_NoDup seen refs : NoDup (dedupKey <$> dedupe_filter seen refs).
Proof.
  revert seen; induction refs as [|x refs IH]; intros seen; simpl; [constructor|].
  case_decide as Hx; [done|].
  rw fmap_cons. constructor; [|done].
  intros (r & Hk & [_ Hr]%dedupe_filter_elem)%list_elem_of_fmap.
  rw Hk in Hr. set_solver.
Qed.

Lemma dedupe_filter_first seen refs k :
  k ∉ seen →
  snd <$> list_find (fun r => dedupKey r = k) (dedupe_filter seen refs)
  = snd <$> list_find (fun r => dedupKey r = k) refs.
Proof.
  revert seen; induction refs as [|x refs IH]; intros seen Hk; simpl; [done|].
  case_decide as Hx.
  - rw decide_False; [|by intros <-].
    rw -option_fmap_compose /=. by rw IH.
  - simpl. case_decide as Hxk; [done|].
    rw -!option_fmap_compose /=. rw IH //. set_solver.
Qed.

Lemma split_at_sep (c : N) (a a' b b' : jsstring) :
  c ∉ a → c ∉ a' → a ++ c :: b = a' ++ c :: b' → a = a' ∧ b = b'.
Proof.
  revert a'; induction a as [|x a IH]; intros [|x' a'] Ha Ha'; simpl.
  - by intros [= ->].
  - intros [= <- _]. set_solver.
  - intros [= -> _]. set_solver.
  - intros [= -> Heq]. destruct (IH a') as [-> ->]; [set_solver..|done|done].
Qed.

(** C6: [dedupeReferences] is idempotent; its result keeps the order of
    the input, holds each key once, and the record it holds for a key is
    the first record of the input with that key. The key is made of
    [from_law_id], [to_law_id || to_law_title] and [article] (the empty
    string for none): records
    that agree on the three have the same key, and records with the same
    key agree on the three when the first two hold no colon. *)
Theorem dedupeReferences_first_seen_idempotent (refs : list Reference) :
  dedupeReferences (dedupeReferences refs) = dedupeReferences refs
  ∧ sublist (dedupeReferences refs) refs
  ∧ NoDup (dedupKey <$> dedupeReferences refs)
  ∧ (∀ k, snd <$> list_find (fun r => dedupKey r = k) (dedupeReferences refs)
          = snd <$> list_find (fun r => dedupKey r = k) refs)
  ∧ (∀ r r',
       from_law_id r = from_law_id r' →
       or_else (to_law_id r) (to_law_title r) = or_else (to_law_id r') (to_law_title r') →
       or_else (article r) [] = or_else (article r') [] →
       dedupKey r = dedupKey r')
  ∧ (∀ r r',
       58%N ∉ from_law_id r → 58%N ∉ from_law_id r' →
       58%N ∉ or_else (to_law_id r) (to_law_title r) →
       58%N ∉ or_else (to_law_id r') (to_law_title r') →
       dedupKey r = dedupKey r' →
       from_law_id r = from_law_id r'
       ∧ or_else (to_law_id r) (to_law_title r) = or_else (to_law_id r') (to_law_title r')
       ∧ or_else (article r) [] = or_else (article r') []).
Proof.
  unfold dedupeReferences. split_and!.
  - apply dedupe_filter_idem.
  - apply dedupe_filter_sublist.
  - apply dedupe_filter_NoDup.
  - intros k. apply dedupe_filter_first. set_solver.
  - intros r r' H1 H2 H3. unfold dedupKey. by rw H1 H2 H3.
  - intros r r' H1 H1' H2 H2'. unfold dedupKey.
    change (Js.str ":") with [58%N]. simpl.
    intros [-> [-> ->]%split_at_sep]%split_at_sep; done.
Qed.

Lemma dedupeReferences_first_seen_idempotent_witness :
  dedupKey (sampleRef (Js.str "B") (Js.str "A") None)
  = dedupKey (sampleRef (Js.str "B") (Js.str "A") (Some [])).
Proof.
  apply (proj1 (proj2 (proj2 (proj2 (proj2
           (dedupeReferences_first_seen_idempotent
              [sampleRef (Js.str "B") (Js.str "A") None;
               sampleRef (Js.str "B") (Js.str "A") (Some [])]))))));
    reflexivity.
Defined.
End dedupe.

(** * Further properties of the code *)

Lemma filter_all {A : Type} (P : A → Prop) `{∀ x, Decision (P x)} (l : list A) :
  (∀ x, x ∈ l → P x) → filter P l = l.
Proof.
  induction l as [|x l IH]; intros Hl; [done|].
  rw filter_cons_True; [|apply Hl; by left]. rw IH //. intros. apply Hl. by right.
Qed.

Section bfs_order.
Import Graph.
Context (neighborsOf : jsstring → list jsstring) (maxHops : option nat).
Context (startId : jsstring).

(** While the queue holds no entry below [hd] hops, every node nearer
    than [hd] hops has its hop count, and has left the queue. *)
Lemma bfs_inv_below q D V hd m w :
  bfs_inv neighborsOf maxHops startId q D V →
  Forall (fun e => hd ≤ e.2) q →
  hops neighborsOf startId m w → m < hd → withinHops maxHops m →
  ∃ dw, dist_of startId D w = Some dw ∧ dw ≤ m.
Proof.
  intros [Hvis Hstart Hsound Hqueue Hsorted Hnear Hclosed Hedge] Hq Hhops.
  induction Hhops as [|m y w Hy IH Hw]; intros Hm Hwithin.
  - exists 0. split; [|done]. unfold dist_of. by rw decide_True.
  - destruct IH as (dy & Hdy & Hle); [lia|eapply withinHops_le; [|done]; lia|].
    assert (Hyq : y ∉ q.*1).
    { intros ([y' d] & -> & Hin)%list_elem_of_fmap. simpl in *.
      rw Forall_forall in Hq. specialize (Hq _ Hin). simpl in Hq.
      apply Hqueue in Hin. simplify_eq. lia. }
    assert (Hr : hopLimitReached dy maxHops = false).
    { eapply not_reached_lt; [|done]. lia. }
    assert (HwV : w ∈ V) by (by eapply Hclosed).
    apply Hvis in HwV as [dw Hdw]. exists dw. split; [done|].
    pose proof (Hedge y w dy dw Hdy Hdw Hw). lia.
Qed.

End bfs_order.

Section visit_facts.
Import Graph.

Lemma visit_new du st w :
  visited (visit du st w) ⊆ visited st ∪ list_to_set (queue (visit du st w)).*1
  ∧ (∃ more, queue (visit du st w) = queue st ++ more).
Proof.
  unfold visit. case_decide; simpl.
  - split; [set_solver|]. exists []. by rw app_nil_r.
  - split; [|by eexists]. rw fmap_app list_to_set_app_L /=. set_solver.
Qed.

Lemma fold_visit_new du ws st :
  let st' := foldl (visit du) st ws in
  (∀ x, x ∈ visited st' → x ∈ visited st ∨ x ∈ (queue st').*1)
  ∧ (∃ more, queue st' = queue st ++ more).
Proof.
  revert st; induction ws as [|w ws IH]; intros st; simpl.
  - split; [by left|]. exists []. by rw app_nil_r.
  - destruct (IH (visit du st w)) as [Hv [more Hq]].
    destruct (visit_new du st w) as [Hv1 [more1 Hq1]].
    split.
    + intros x [Hx|Hx]%Hv; [|by right].
      apply Hv1 in Hx. apply elem_of_union in Hx as [?|Hx]; [by left|].
      right. rw Hq. rw fmap_app. apply elem_of_app. left.
      by apply elem_of_list_to_set in Hx.
    + exists (more1 ++ more). by rw Hq Hq1 assoc.
Qed.
End visit_facts.

Section path_shortest.
Import Graph PathSpec.
Context (neighborsOf : jsstring → list jsstring) (fromId toId : jsstring).
Context (Hne : fromId ≠ toId).

#[local] Abbreviation onward := (PathSpec.onward neighborsOf toId).

(** A path to [toId] meets [toId] a first time: up to there it is a path
    of the search that goes around [toId]. *)
Lemma hops_first_hit n x :
  hops neighborsOf fromId n x →
  (x ≠ toId ∧ hops onward fromId n x)
  ∨ (∃ m w, hops onward fromId m w ∧ toId ∈ neighborsOf w ∧ m < n).
Proof.
  induction 1 as [|n v w Hv IH Hw].
  - left. split; [done|constructor].
  - destruct IH as [[Hvne Hv']|(m & y & ? & ? & ?)].
    + destruct (decide (w = toId)) as [->|Hwne].
      * right. exists n, v. split_and!; [done|done|lia].
      * left. split; [done|]. apply hops_step with v; [done|].
        apply list_elem_of_filter. by split.
    + right. exists m, y. split_and!; [done|done|lia].
Qed.

(** The inner loop of the path search does, on the hop counts, what the
    inner loop of the reachability search does, until it meets [toId]. *)
Lemma path_scan_sim D du path ws st :
  length path = du + 1 →
  match path_scan toId path ws st with
  | inl found => toId ∈ ws ∧ found = path ++ [toId]
  | inr st' =>
      toId ∉ ws
      ∧ let b := foldl (visit du) (BfsState D (strip (pqueue st)) (pvisited st)) ws in
        strip (pqueue st') = queue b ∧ pvisited st' = visited b
        ∧ ∃ more, pqueue st' = pqueue st ++ more
  end.
Proof.
  intros Hlen. revert D st. induction ws as [|w ws IH]; intros D st; simpl.
  - split_and!; [by intros ?%elem_of_nil|done|done|]. exists []. by rw app_nil_r.
  - case_decide as Hto.
    { rw Hto. split; [apply list_elem_of_here|done]. }
    destruct (decide (w ∈ pvisited st)) as [Hvis|Hvis].
    + assert (visit du (BfsState D (strip (pqueue st)) (pvisited st)) w
              = BfsState D (strip (pqueue st)) (pvisited st)) as ->
        by (unfold visit; simpl; by rw decide_True).
      specialize (IH D st). destruct (path_scan toId path ws st) as [found|st'].
      * destruct IH as [? ?]. split; [by right|done].
      * destruct IH as (? & ? & ? & ?). split_and!; [set_solver|done..].
    + assert (visit du (BfsState D (strip (pqueue st)) (pvisited st)) w
              = BfsState (<[w:=du + 1]> D) (strip (pqueue st) ++ [(w, du + 1)])
                  ({[w]} ∪ pvisited st)) as ->
        by (unfold visit; simpl; by rw decide_False).
      specialize (IH (<[w:=du + 1]> D)
                     {| pqueue := pqueue st ++ [(w, path ++ [w])];
                        pvisited := {[w]} ∪ pvisited st |}).
      destruct (path_scan toId path ws _) as [found|st'].
      * destruct IH as [? ?]. split; [by right|done].
      * destruct IH as (? & Hq & Hv & more & Hmore). simpl in *.
        assert (strip (pqueue st ++ [(w, path ++ [w])])
                = strip (pqueue st) ++ [(w, du + 1)]) as Hstrip.
        { unfold strip. rw fmap_app /=. rw length_app /= Hlen.
          by replace (du + 1 + 1 - 1) with (du + 1) by lia. }
        rw Hstrip in Hq. rw Hstrip in Hv.
        split_and!; [set_solver|done|done|].
        exists ((w, path ++ [w]) :: more). by rw Hmore -assoc.
Qed.

Lemma strip_nodes (q : list (jsstring * list jsstring)) : (strip q).*1 = q.*1.
Proof. unfold strip. rw -list_fmap_compose. by apply list_fmap_ext. Qed.

Lemma walk_nonempty u v p : walk neighborsOf u v p → length p = (length p - 1) + 1.
Proof. destruct 1; [simpl; lia|rw length_app /=; lia]. Qed.

Lemma path_bfs_inv_init :
  path_bfs_inv neighborsOf fromId toId
    {| pqueue := [(fromId, [fromId])]; pvisited := {[ fromId ]} |}.
Proof.
  split_and!.
  - intros x p [= -> ->]%list_elem_of_singleton. constructor.
  - exists ∅. apply bfs_inv_init.
  - simpl. set_solver.
Qed.

(** The node [w] is one hop from [toId] and fewer than [hd] hops from the
    start, while the queue holds no entry below [hd] hops: impossible, the
    search would have met [toId] when it scanned [w]. *)
Lemma path_bfs_inv_far st hd m w :
  path_bfs_inv neighborsOf fromId toId st →
  Forall (fun e => hd ≤ e.2) (strip (pqueue st)) →
  hops onward fromId m w → toId ∈ neighborsOf w → hd ≤ m.
Proof.
  intros (Hpath & [D HD] & Hgone) Hq Hw Hto.
  destruct (decide (hd ≤ m)) as [|Hlt]; [done|]. exfalso.
  destruct (bfs_inv_below onward None fromId _ D _ hd m w HD Hq Hw) as (dw & Hdw & Hle);
    [lia|done|].
  apply (Hgone w); [|rw -strip_nodes|done].
  - apply (inv_visited _ _ _ _ _ _ HD). by eexists.
  - intros ([w' d] & -> & Hin)%list_elem_of_fmap. simpl in *.
    rw Forall_forall in Hq. specialize (Hq _ Hin). simpl in Hq.
    apply (inv_queue _ _ _ _ _ _ HD) in Hin. simplify_eq. lia.
Qed.

Context (U : gset jsstring) (HU : ∀ v w, w ∈ neighborsOf v → w ∈ U).

Lemma path_loop_shortest fuel st :
  path_measure U st ≤ fuel →
  path_bfs_inv neighborsOf fromId toId st →
  ∃ r, path_loop neighborsOf toId fuel st = Some r
    ∧ match r with
      | Some p => walk neighborsOf fromId toId p
                  ∧ ∀ n, hops neighborsOf fromId n toId → length p - 1 ≤ n
      | None => ∀ n, ¬ hops neighborsOf fromId n toId
      end.
Proof.
  revert st; induction fuel as [|fuel IH]; intros [q V] Hfuel Hinv;
    destruct q as [|[u path] rest]; cbn [path_loop pqueue pvisited].
  1,3: exists None; split; [done|]; intros n Hn;
       apply hops_first_hit in Hn as [[? _]|(m & w & Hw & Hto & _)]; [done|];
       pose proof (path_bfs_inv_far _ (S m) m w Hinv (Forall_nil_2 _) Hw Hto); lia.
  - unfold path_measure in Hfuel. simpl in Hfuel. lia.
  - destruct Hinv as (Hpath & [D HD] & Hgone).
    assert (Hu : walk neighborsOf fromId u path) by (apply Hpath; by left).
    pose proof (walk_nonempty _ _ _ Hu) as Hlen.
    set (du := length path - 1) in *.
    pose proof (path_scan_spec neighborsOf fromId toId U HU u path (neighborsOf u)
                  {| pqueue := rest; pvisited := V |} Hu (fun _ H => H)) as Hscan.
    pose proof (path_scan_sim D du path (neighborsOf u)
                  {| pqueue := rest; pvisited := V |} Hlen) as Hsim.
    destruct (path_scan toId path (neighborsOf u) _) as [found|st'].
    + destruct Hsim as [Hto ->]. exists (Some (path ++ [toId])). split; [done|]. split.
      * by eapply walk_step.
      * intros n Hn. rw length_app /= Hlen.
        apply hops_first_hit in Hn as [[? _]|(m & w & Hw & Htow & ?)]; [done|].
        enough (du ≤ m) by lia.
        eapply (path_bfs_inv_far {| pqueue := (u, path) :: rest; pvisited := V |});
          [by split_and!; [|exists D|]| |done|done].
        simpl. constructor; [simpl; lia|].
        pose proof (inv_sorted _ _ _ _ _ _ HD) as Hs. simpl in Hs.
        by apply StronglySorted_cons in Hs as [Hall _].
    + destruct Hsim as (Hto & Hq' & HV' & more & Hmore). simpl in *.
      destruct Hscan as [Hpath' Hm]; [intros x p ?; apply (Hpath x p); by right|].
      assert (Hon : onward u = neighborsOf u).
      { unfold PathSpec.onward. apply filter_all. by intros w ? ->. }
      apply IH.
      * unfold path_measure in *. simpl in *. lia.
      * split_and!; [done| |].
        -- exists (distances (foldl (visit du) (BfsState D (strip rest) V) (neighborsOf u))).
           rw Hq' HV'.
           pose proof (bfs_round_inv onward None fromId
                         (BfsState D (strip ((u, path) :: rest)) V) u du (strip rest)
                         eq_refl HD) as Hround.
           by rw /bfs_round /= Hon in Hround.
        -- intros x Hx Hxq.
           destruct (fold_visit_new du (neighborsOf u) (BfsState D (strip rest) V))
             as [Hnew _].
           rw HV' in Hx. apply Hnew in Hx as [Hx|Hx]; simpl in Hx.
           ++ destruct (decide (x = u)) as [->|Hxu]; [done|].
              apply Hgone; [done|]. simpl. rw Hmore fmap_app in Hxq. set_solver.
           ++ rw -Hq' strip_nodes in Hx. done.
Qed.
End path_shortest.

Section findShortestPath_shortest.
Import Graph.

Lemma findShortestPath_complete_spec fromId toId outgoing :
  ∃ r, findShortestPath fromId toId outgoing = Some r
    ∧ match r with
      | Some p => walk (neighborsMap outgoing) fromId toId p
                  ∧ shortest (neighborsMap outgoing) fromId toId (length p - 1)
      | None => ∀ n, ¬ hops (neighborsMap outgoing) fromId n toId
      end.
Proof.
  unfold findShortestPath. case_decide as Heq.
  - subst. eexists. split; [done|]. split; [constructor|]. split; [constructor|].
    simpl. lia.
  - destruct (path_loop_shortest (neighborsMap outgoing) fromId toId Heq
                (targets (fun m => m.*1) outgoing)
                (fun v w => neighborsMap_targets outgoing v w)
                (S (size (targets (fun m => m.*1) outgoing)))
                {| pqueue := [(fromId, [fromId])]; pvisited := {[ fromId ]} |})
      as (r & Hr & Hspec).
    + unfold path_measure. simpl.
      pose proof (subseteq_size (targets (fun m => m.*1) outgoing ∖ {[fromId]})
                    (targets (fun m => m.*1) outgoing)). set_solver by lia.
    + by apply path_bfs_inv_init.
    + exists r. split; [done|]. destruct r as [p|]; [|done].
      destruct Hspec as [Hwalk Hmin]. split; [done|]. split; [|done].
      by apply walk_hops.
Qed.
End findShortestPath_shortest.

Section adjacency_facts.
Import Graph GraphSpec.

Lemma adjacencyStep_skip adj ref :
  (∀ a b, ¬ isEdge a b ref) → adjacencyStep adj ref = adj.
Proof.
  intros Hno. destruct adj as [outgoing incoming]. unfold adjacencyStep.
  destruct (decide (from_law_id ref = [])) as [Hf|Hf].
  - rw bool_decide_eq_false_2 //. by intros ?.
  - rw bool_decide_eq_true_2 //. simpl.
    destruct (to_law_id ref) as [[|c t]|] eqn:Ht; simpl; [done| |done].
    exfalso. apply (Hno (from_law_id ref) (c :: t)). by split_and!.
Qed.

Lemma adjacencyStep_edge outgoing incoming ref f t :
  isEdge f t ref →
  adjacencyStep (outgoing, incoming) ref
  = (<[ f := JsMap.set t (default 0 (JsMap.get t (default [] (outgoing !! f))) + 1)
                (default [] (outgoing !! f)) ]> outgoing,
     <[ t := set_add f (default [] (incoming !! t)) ]> incoming).
Proof.
  intros (Hf & Hfne & Ht & Htne). unfold adjacencyStep.
  rw Hf Ht. rw bool_decide_eq_true_2 //. by destruct t.
Qed.

Lemma isEdge_inj a b f t ref : isEdge f t ref → isEdge a b ref ↔ a = f ∧ b = t.
Proof. unfold isEdge. intros (? & ? & ? & ?). split; [|intros [-> ->]; done]. naive_solver. Qed.

Lemma edgeCount_snoc refs ref a b :
  edgeCount (refs ++ [ref]) a b
  = edgeCount refs a b + (if decide (isEdge a b ref) then 1 else 0).
Proof.
  unfold edgeCount. rw filter_app length_app. f_equal.
  rw filter_cons filter_nil. by case_decide.
Qed.

Lemma set_add_elem x y l : x ∈ set_add y l ↔ x = y ∨ x ∈ l.
Proof. unfold set_add. case_decide; set_solver. Qed.

Lemma set_add_NoDup y l : NoDup l → NoDup (set_add y l).
Proof.
  unfold set_add. case_decide; [done|]. intros. apply NoDup_app. split_and!; [done| |].
  - intros x ? ->%list_elem_of_singleton. done.
  - apply NoDup_singleton.
Qed.

(** What [buildAdjacencyList] holds after the references [refs]. *)
Lemma buildAdjacencyList_inv refs :
  let '(outgoing, incoming) := buildAdjacencyList refs in
  (∀ a b, JsMap.get b (default [] (outgoing !! a))
          = if decide (edgeCount refs a b = 0) then None else Some (edgeCount refs a b))
  ∧ (∀ a, NoDup (default [] (outgoing !! a)).*1)
  ∧ (∀ a b, a ∈ default [] (incoming !! b) ↔ 0 < edgeCount refs a b)
  ∧ (∀ b, NoDup (default [] (incoming !! b))).
Proof.
  induction refs as [|ref refs IH] using rev_ind.
  - simpl. split_and!.
    + intros a b. by rw lookup_empty.
    + intros a. rw lookup_empty. constructor.
    + intros a b. rw lookup_empty /=. unfold edgeCount. simpl.
      split; [by intros ?%elem_of_nil|lia].
    + intros b. rw lookup_empty. constructor.
  - unfold buildAdjacencyList in *. rw foldl_app /=.
    destruct (foldl adjacencyStep (∅, ∅) refs) as [outgoing incoming].
    destruct IH as (Hget & Hnd & Hinc & Hincnd).
    destruct (decide (isEdge (from_law_id ref) (default [] (to_law_id ref)) ref))
      as [Hft'|Hno'].
    1: assert (∃ f t, isEdge f t ref) as (f & t & Hft) by eauto; clear Hft'.
    2: assert (Hno : ¬ ∃ f t, isEdge f t ref)
         by (intros (f & t & Hft); apply Hno';
             destruct Hft as (<- & ? & Ht & ?); by rw Ht).
    + rw (adjacencyStep_edge _ _ _ f t Hft).
      split_and!.
      * intros a b. rw edgeCount_snoc. rw lookup_insert.
        destruct (decide (f = a)) as [<-|Hfa]; simpl.
        -- rw jsmap_get_set. rw Hget.
           destruct (decide (b = t)) as [->|Hbt].
           ++ rw (decide_True (P := isEdge f t ref)) //.
              rw (decide_False (P := _ + 1 = 0)); [|lia].
              case_decide as Hc; simpl; [by rw Hc|done].
           ++ rw (decide_False (P := isEdge f b ref)); [|by intros [? ?]%(isEdge_inj _ _ _ _ _ Hft)].
              rw Nat.add_0_r. apply Hget.
        -- rw (decide_False (P := isEdge a b ref)); [|by intros [? ?]%(isEdge_inj _ _ _ _ _ Hft)].
           rw Nat.add_0_r. apply Hget.
      * intros a. rw lookup_insert. case_decide; simpl; [|done].
        by apply jsmap_set_keys_NoDup.
      * intros a b. rw edgeCount_snoc lookup_insert.
        destruct (decide (t = b)) as [<-|Htb]; simpl.
        -- rw set_add_elem Hinc. case_decide as Hd.
           ++ apply (isEdge_inj _ _ _ _ _ Hft) in Hd as [-> _]. split; [lia|by left].
           ++ split; [intros [->|?]; [exfalso; apply Hd; done|lia]|intros; right; lia].
        -- rw (decide_False (P := isEdge a b ref)); [|by intros [? ?]%(isEdge_inj _ _ _ _ _ Hft)].
           rw Nat.add_0_r. apply Hinc.
      * intros b. rw lookup_insert. case_decide; simpl; [|done].
        by apply set_add_NoDup.
    + rw adjacencyStep_skip; [|by intros a b ?; apply Hno; eauto].
      split_and!; [|done| |done].
      * intros a b. rw edgeCount_snoc (decide_False (P := isEdge a b ref)); [|by intros ?; apply Hno; eauto].
        rw Nat.add_0_r. apply Hget.
      * intros a b. rw edgeCount_snoc (decide_False (P := isEdge a b ref)); [|by intros ?; apply Hno; eauto].
        rw Nat.add_0_r. apply Hinc.
Qed.
End adjacency_facts.

Section transpose_facts.
Import JsObject Graph GraphSpec.

Lemma hops_cons neighborsOf u w n v :
  w ∈ neighborsOf u → hops neighborsOf w n v → hops neighborsOf u (S n) v.
Proof.
  intros Hw. induction 1 as [|n v x Hv IH Hx].
  - apply hops_step with u; [constructor|done].
  - by apply hops_step with v.
Qed.

(** A path in the reverse graph is a path in the graph, read backwards. *)
Lemma hops_transpose (N N' : jsstring → list jsstring) :
  (∀ a b, a ∈ N' b ↔ b ∈ N a) →
  ∀ u n v, hops N' u n v → hops N v n u.
Proof.
  intros HT u n v. induction 1 as [|n v w Hv IH Hw]; [constructor|].
  apply hops_cons with v; [by apply HT|done].
Qed.

Lemma shortest_transpose (N N' : jsstring → list jsstring) :
  (∀ a b, a ∈ N' b ↔ b ∈ N a) →
  ∀ u v d, shortest N' u v d ↔ shortest N v u d.
Proof.
  intros HT u v d.
  assert (HT' : ∀ a b, a ∈ N b ↔ b ∈ N' a) by (intros; by rw HT).
  unfold shortest. split; intros [Hd Hmin].
  - split; [by apply (hops_transpose N N')|].
    intros n Hn. apply Hmin. by apply (hops_transpose N' N).
  - split; [by apply (hops_transpose N' N)|].
    intros n Hn. apply Hmin. by apply (hops_transpose N N').
Qed.

Lemma records_transpose (N N' : jsstring → list jsstring) maxHops k v Dk Dv :
  (∀ a b, a ∈ N' b ↔ b ∈ N a) →
  records N' maxHops k Dk → records N maxHops v Dv →
  Dk !! v = Dv !! k.
Proof.
  intros HT [Hk _] [Hv _]. apply option_eq. intros d.
  rw Hk Hv (shortest_transpose N N' HT). naive_solver.
Qed.

Lemma neighborsMap_keys (outgoing : gmap jsstring (list (jsstring * nat))) a :
  neighborsMap outgoing a = (default [] (outgoing !! a)).*1.
Proof. unfold neighborsMap. by destruct (outgoing !! a). Qed.

Lemma neighborsObj_outgoingObjOf (outgoing : gmap jsstring (list (jsstring * nat))) a :
  neighborsObj (outgoingObjOf outgoing) a
  = if decide (a = protoKey) then [] else neighborsMap outgoing a.
Proof.
  unfold neighborsObj, outgoingObjOf, neighborsMap. rw objAssign_lookup.
  case_decide; [done|]. by destruct (outgoing !! a).
Qed.

Lemma neighborsObj_incomingObjOf (incoming : gmap jsstring (list jsstring)) a :
  neighborsObj (incomingObjOf incoming) a
  = if decide (a = protoKey) then [] else neighborsObj incoming a.
Proof.
  unfold neighborsObj, incomingObjOf. rw objAssign_lookup.
  case_decide; [done|]. by destruct (incoming !! a).
Qed.

(** Paths to a node other than [p] in a graph where [p] has no
    neighbour: they do not pass [p]. *)
Lemma hops_avoid (N : jsstring → list jsstring) (p : jsstring) u n v :
  N p = [] → v ≠ p → hops N u n v → hops (fun x => filter (fun w => w ≠ p) (N x)) u n v.
Proof.
  intros Hp Hv Hhops. induction Hhops as [|n x w Hx IH Hw]; [constructor|].
  apply hops_step with x.
  - apply IH. intros ->. rw Hp in Hw. by apply elem_of_nil in Hw.
  - by apply list_elem_of_filter.
Qed.

Lemma hops_filter (N : jsstring → list jsstring) (P : jsstring → Prop)
    `{∀ x, Decision (P x)} u n v :
  hops (fun x => filter P (N x)) u n v → hops N u n v.
Proof.
  induction 1 as [|n x w Hx IH Hw]; [constructor|].
  apply hops_step with x; [done|]. by apply list_elem_of_filter in Hw as [_ ?].
Qed.

Lemma shortest_avoid (N : jsstring → list jsstring) (p : jsstring) u v d :
  N p = [] → v ≠ p →
  shortest N u v d ↔ shortest (fun x => filter (fun w => w ≠ p) (N x)) u v d.
Proof.
  intros Hp Hv. unfold shortest. split; intros [Hd Hmin].
  - split; [by apply hops_avoid|]. intros n Hn%hops_filter. by apply Hmin.
  - split; [by apply hops_filter in Hd|]. intros n Hn. by apply Hmin, hops_avoid.
Qed.

(** The two adjacency objects of the workers are the transpose of each
    other between nodes other than [__proto__], which has no neighbour in
    either. *)
Lemma shortest_transpose_obj (N N' : jsstring → list jsstring) (p : jsstring) u v d :
  N p = [] → N' p = [] → (∀ a b, a ≠ p → b ≠ p → (a ∈ N' b ↔ b ∈ N a)) →
  u ≠ p → v ≠ p →
  shortest N' u v d ↔ shortest N v u d.
Proof.
  intros Hp Hp' HT Hu Hv.
  rw (shortest_avoid N' p u v d Hp' Hv) (shortest_avoid N p v u d Hp Hu).
  apply shortest_transpose. intros a b. rw !list_elem_of_filter.
  destruct (decide (a = p)) as [->|Ha].
  - rw Hp. split; [by intros [? _]|by intros [_ ?%elem_of_nil]].
  - destruct (decide (b = p)) as [->|Hb].
    + rw Hp'. split; [by intros [_ ?%elem_of_nil]|by intros [? _]].
    + rw HT //. naive_solver.
Qed.

Lemma jsmap_keys_get {V : Type} (k : jsstring) (m : list (jsstring * V)) :
  k ∈ m.*1 ↔ is_Some (JsMap.get k m).
Proof.
  split.
  - intros ([k' v] & -> & Hin)%list_elem_of_fmap. by eapply jsmap_elem_get.
  - intros [v Hv]. apply jsmap_get_elem in Hv. apply list_elem_of_fmap. by exists (k, v).
Qed.

Lemma buildAdjacencyList_edge refs a b :
  (b ∈ neighborsMap (buildAdjacencyList refs).1 a ↔ 0 < edgeCount refs a b)
  ∧ (a ∈ neighborsObj (buildAdjacencyList refs).2 b ↔ 0 < edgeCount refs a b).
Proof.
  pose proof (buildAdjacencyList_inv refs) as Hinv.
  destruct (buildAdjacencyList refs) as [outgoing incoming].
  destruct Hinv as (Hget & _ & Hinc & _). simpl. split.
  - rw neighborsMap_keys jsmap_keys_get Hget.
    case_decide; split; [by intros [? ?]|lia|lia|by eexists].
  - apply Hinc.
Qed.

Lemma buildAdjacencyList_transpose refs a b :
  a ∈ neighborsObj (buildAdjacencyList refs).2 b
  ↔ b ∈ neighborsMap (buildAdjacencyList refs).1 a.
Proof. destruct (buildAdjacencyList_edge refs a b) as [-> ->]. done. Qed.
End transpose_facts.

Section table_facts.
Import JsObject Graph GraphSpec.

Lemma entry_records_symmetric (N N' : jsstring → list jsstring) maxHops k v ek ev :
  (∀ a b, a ∈ N' b ↔ b ∈ N a) →
  entry_records N N' maxHops k ek → entry_records N N' maxHops v ev →
  reachable_to ek !! v = reachable_from ev !! k.
Proof. intros HT [_ Hk] [Hv _]. by eapply records_transpose. Qed.

End table_facts.

Section worker_count_facts.
Import Extractor Coordinator Graph Main.

Lemma worker_total lawIndex abbreviations xmlFiles :
  is_Some (worker lawIndex abbreviations xmlFiles).
Proof.
  induction xmlFiles as [|[lawId xmlContent] rest [more Hmore]]; simpl; [by eexists|].
  destruct (analyzeFile_good lawIndex abbreviations lawId xmlContent) as (refs & -> & _).
  rw Hmore. by eexists.
Qed.

(** The references of a list of files are those of its parts, one after
    the other: what a file yields does not depend on the other files. *)
Lemma worker_app lawIndex abbreviations xs ys :
  worker lawIndex abbreviations (xs ++ ys)
  = rx ← worker lawIndex abbreviations xs;
    ry ← worker lawIndex abbreviations ys;
    Some (rx ++ ry).
Proof.
  induction xs as [|[lawId xmlContent] xs IH]; simpl.
  - by destruct (worker lawIndex abbreviations ys).
  - destruct (analyzeFile lawIndex abbreviations lawId xmlContent) as [refs|]; simpl; [|done].
    rw IH. destruct (worker lawIndex abbreviations xs) as [rx|]; simpl; [|done].
    destruct (worker lawIndex abbreviations ys) as [ry|]; simpl; [|done].
    by rw assoc.
Qed.

Lemma worker_concat lawIndex abbreviations (chunks : list (list (jsstring * jsstring))) :
  (mapM (worker lawIndex abbreviations) chunks ≫= fun results => Some (concat results))
  = worker lawIndex abbreviations (concat chunks).
Proof.
  induction chunks as [|chunk chunks IH]; simpl; [done|].
  rw worker_app -IH.
  destruct (worker lawIndex abbreviations chunk) as [rx|]; simpl; [|done].
  by destruct (mapM (worker lawIndex abbreviations) chunks).
Qed.

Lemma uniqueRefs_worker cpus laws abbreviations xmlFiles :
  uniqueRefs cpus laws abbreviations xmlFiles
  = dedupeReferences <$> worker laws abbreviations xmlFiles.
Proof.
  unfold uniqueRefs.
  rw -{2}(proj1 (chunks_partition cpus xmlFiles)) -worker_concat.
  by destruct (mapM (worker laws abbreviations) (chunks cpus xmlFiles)).
Qed.

End worker_count_facts.

Section active_facts.
Import Graph GraphSpec.


End active_facts.

Section graph_extras.
Import JsObject Graph GraphSpec Main.

(** X1: [findShortestPath] (and the [findPath] of
    [build_graph_multi.ts], the same code) always ends; the path it returns
    is a directed path from the source to the target with the least number
    of edges a directed path between them can have, and it returns [null]
    only when no directed path leads from the source to the target. *)
Theorem findShortestPath_returns_shortest_path
    (fromId toId : jsstring) (outgoing : gmap jsstring (list (jsstring * nat))) :
  ∃ r, findShortestPath fromId toId outgoing = Some r
    ∧ match r with
      | Some p => walk (neighborsMap outgoing) fromId toId p
                  ∧ shortest (neighborsMap outgoing) fromId toId (length p - 1)
      | None => ∀ n, ¬ hops (neighborsMap outgoing) fromId n toId
      end.
Proof. apply findShortestPath_complete_spec. Qed.

Lemma shortest_unique neighborsOf u v d d' :
  shortest neighborsOf u v d → shortest neighborsOf u v d' → d = d'.
Proof. intros [H1 H2] [H1' H2']. apply H2 in H1'. apply H2' in H1. lia. Qed.

(** X2: the number of edges of the path [findShortestPath] returns is
    the hop count [computeReachability] records for the target, when that
    number is within the hop limit; the search records nothing for a
    target that is further away or that [findShortestPath] does not
    reach. *)
Theorem findShortestPath_agrees_with_computeReachability
    (fromId toId : jsstring) (outgoing : gmap jsstring (list (jsstring * nat)))
    (maxHops : nat) :
  fromId ≠ toId →
  ∃ r D, findShortestPath fromId toId outgoing = Some r
    ∧ computeReachabilityFull fromId outgoing maxHops = Some D
    ∧ D !! toId = match r with
                  | Some p => if decide (length p - 1 ≤ maxHops)
                              then Some (length p - 1) else None
                  | None => None
                  end.
Proof.
  intros Hne.
  destruct (findShortestPath_complete_spec fromId toId outgoing) as (r & Hr & Hspec).
  destruct (computeReachabilityFull_records fromId outgoing maxHops) as (D & HD & [Hrec _]).
  exists r, D. split_and!; [done..|].
  destruct r as [p|].
  - destruct Hspec as [_ Hshort]. case_decide as Hcap.
    + apply Hrec. by split_and!.
    + apply eq_None_not_Some. intros [d (_ & Hd & Hshort')%Hrec].
      rw (shortest_unique _ _ _ _ _ Hshort Hshort') in Hcap. simpl in Hd. lia.
  - apply eq_None_not_Some. intros [d (_ & _ & Hd & _)%Hrec]. by eapply Hspec.
Qed.

Lemma findShortestPath_agrees_with_computeReachability_witness :
  ∃ D, computeReachabilityFull (Js.str "A") abcGraph 50 = Some D
    ∧ D !! Js.str "C" = Some 2.
Proof.
  destruct (findShortestPath_agrees_with_computeReachability
              (Js.str "A") (Js.str "C") abcGraph 50) as (r & D & Hr & HD & Heq);
    [by vm_compute|].
  exists D. split; [done|]. rw Heq.
  vm_compute in Hr. by injection Hr as <-.
Defined.

(** X3: what [buildAdjacencyList] builds from a list of references. A
    law [b] is among the targets of [a] exactly when [a] is among the
    sources of [b], exactly when some reference with both ids set (not
    [null], not empty) goes from [a] to [b]; the count kept for the edge is
    the number of these references; and no target and no source is listed
    twice. *)
Theorem buildAdjacencyList_edges_and_counts (references : list Reference) (a b : jsstring) :
  (b ∈ neighborsMap (buildAdjacencyList references).1 a ↔ 0 < edgeCount references a b)
  ∧ (a ∈ neighborsObj (buildAdjacencyList references).2 b ↔ 0 < edgeCount references a b)
  ∧ default 0 (JsMap.get b (default [] ((buildAdjacencyList references).1 !! a)))
    = edgeCount references a b
  ∧ NoDup (neighborsMap (buildAdjacencyList references).1 a)
  ∧ NoDup (neighborsObj (buildAdjacencyList references).2 b).
Proof.
  destruct (buildAdjacencyList_edge references a b) as [Hout Hin].
  pose proof (buildAdjacencyList_inv references) as Hinv.
  destruct (buildAdjacencyList references) as [outgoing incoming].
  destruct Hinv as (Hget & Hnd & _ & Hincnd). simpl in *.
  split_and!; [done|done| | |].
  - rw Hget. by case_decide.
  - rw neighborsMap_keys. apply Hnd.
  - apply Hincnd.
Qed.

(** X4: in the table either script writes, the entry of [k] lists [v]
    among the laws that reach [k] exactly when the entry of [v] lists [k]
    among the laws [v] reaches, with the same hop count. *)
Theorem reachability_table_forward_reverse_agree :
  (∀ cpus laws references R k v ek ev,
     exhaustiveReachability cpus laws references = Some (Returned (Some R)) →
     R !! k = Some ek → R !! v = Some ev →
     reachable_to ek !! v = reachable_from ev !! k)
  ∧ (∀ laws references R k v ek ev,
       landmarkReachability laws references = Some (Some R) →
       R !! k = Some ek → R !! v = Some ev →
       reachable_to ek !! v = reachable_from ev !! k).
Proof.
  split.
  - intros cpus laws references R k v ek ev HR Hk Hv.
    destruct (exhaustiveReachability_spec cpus laws references) as (r & Hr & Hspec).
    rw HR in Hr. injection Hr as <-. destruct Hspec as (_ & Hdom & Hent).
    assert (Hkp : k ≠ protoKey) by (apply (Hdom k); by eexists).
    assert (Hvp : v ≠ protoKey) by (apply (Hdom v); by eexists).
    destruct (Hent k ek Hk) as [_ (_ & Hto & _)].
    destruct (Hent v ev Hv) as [(_ & Hfrom & _) _].
    apply option_eq. intros d. rw Hto Hfrom.
    rw (shortest_transpose_obj
          (neighborsObj (outgoingObjOf (buildAdjacencyList references).1))
          (neighborsObj (incomingObjOf (buildAdjacencyList references).2))
          protoKey k v d); [naive_solver|..|done|done].
    + rw neighborsObj_outgoingObjOf. by case_decide.
    + rw neighborsObj_incomingObjOf. by case_decide.
    + intros a b Ha Hb.
      rw neighborsObj_outgoingObjOf neighborsObj_incomingObjOf.
      repeat case_decide; try done. apply buildAdjacencyList_transpose.
  - intros laws references R k v ek ev HR Hk Hv.
    destruct (landmarkReachability_spec laws references) as (r & Hr & Hspec).
    rw HR in Hr. injection Hr as <-. destruct Hspec as [_ Hent].
    eapply entry_records_symmetric; [|by apply Hent..].
    intros a b. apply buildAdjacencyList_transpose.
Qed.
End graph_extras.

Section table_extras.
Import JsObject Graph GraphSpec Main.

Lemma reachability_table_forward_reverse_agree_witness :
  ∃ R ek ev,
    exhaustiveReachability 4 sampleRegistry
      [sampleRef (Js.str "A") (Js.str "B") None; sampleRef (Js.str "B") (Js.str "C") None]
    = Some (Returned (Some R))
    ∧ R !! Js.str "C" = Some ek ∧ R !! Js.str "A" = Some ev
    ∧ reachable_to ek !! Js.str "A" = reachable_from ev !! Js.str "C".
Proof.
  eexists _, _, _. split_and!; [vm_compute; reflexivity..|].
  eapply (proj1 reachability_table_forward_reverse_agree 4 sampleRegistry
            [sampleRef (Js.str "A") (Js.str "B") None; sampleRef (Js.str "B") (Js.str "C") None]);
    vm_compute; reflexivity.
Defined.


Lemma size_list_to_set_le (l : list jsstring) :
  size (list_to_set (C := gset jsstring) l) ≤ length l.
Proof.
  induction l as [|x l IH]; [done|].
  rw list_to_set_cons size_union_alt size_singleton /=.
  pose proof (subseteq_size (list_to_set l ∖ {[x]}) (list_to_set (C := gset jsstring) l)).
  set_solver by lia.
Qed.

Lemma byInDegreeDesc_spec a b :
  byInDegreeDesc a b = (Z.of_nat (in_degree b) - Z.of_nat (in_degree a))%Z.
Proof. done. Qed.

(** X6: [build_full_graph.ts] writes no table when there is no law or no
    reference. Else its table has an entry for the first 100 nodes of the
    graph in the order of the laws that cite them, most cited first (all
    nodes when there are fewer), but for a node with the id [__proto__]:
    no node left out is cited by more laws than a node taken. *)
Theorem landmark_table_top_100 (laws : list LawIndex) (references : list Reference) :
  ∃ r, landmarkReachability laws references = Some r
    ∧ match r with
      | None => length laws = 0 ∨ length references = 0
      | Some R =>
          ∃ selected rest,
            selected ++ rest
            ≡ₚ activeNodes laws (buildAdjacencyList references).1
                 (buildAdjacencyList references).2
            ∧ length selected
              = 100 `min` length (activeNodes laws (buildAdjacencyList references).1
                                    (buildAdjacencyList references).2)
            ∧ (∀ x y, x ∈ selected → y ∈ rest → in_degree y ≤ in_degree x)
            ∧ (∀ k, is_Some (R !! k) ↔ k ∈ n_id <$> selected ∧ k ≠ protoKey)
            ∧ size (dom R) ≤ 100
      end.
Proof.
  destruct (landmarkReachability_spec laws references) as (r & Hr & Hspec).
  exists r. split; [done|]. destruct r as [R|]; [|done]. destruct Hspec as [Hdom _].
  destruct (buildAdjacencyList references) as [outgoing incoming]. simpl in *.
  set (sorted := js_sort byInDegreeDesc (activeNodes laws outgoing incoming)) in *.
  exists (take 100 sorted), (drop 100 sorted). split_and!; [| | |done|].
  - by rw take_drop /sorted js_sort_perm.
  - by rw length_take /sorted js_sort_perm.
  - intros x y Hx Hy.
    pose proof (js_sort_sorted byInDegreeDesc in_degree byInDegreeDesc_spec
                  (activeNodes laws outgoing incoming)) as Hs.
    fold sorted in Hs. rw -(take_drop 100 sorted) in Hs.
    by apply (StronglySorted_app_1_elem_of _ _ _ _ _ Hs).
  - assert (dom R ⊆ list_to_set (n_id <$> take 100 sorted)) as Hsub.
    { intros k Hk. apply elem_of_list_to_set, (Hdom k). by apply elem_of_dom. }
    apply subseteq_size in Hsub.
    pose proof (size_list_to_set_le (n_id <$> take 100 sorted)) as Hsz.
    rw length_fmap length_take in Hsz. lia.
Qed.
End table_extras.

Section main_extras.
Import Extractor Coordinator Graph Main.

(** X7: the chunks [main] hands to its workers (in
    [analyze_references_multi.ts] and in [build_graph_multi.ts]) are a
    partition of the list: joined in order they give the list back, none
    is empty, and there are at most [NUM_WORKERS] of them. *)
Theorem chunks_partition_the_work {A : Type} (cpus : nat) (l : list A) :
  concat (chunks cpus l) = l
  ∧ length (chunks cpus l) ≤ NUM_WORKERS cpus
  ∧ Forall (fun ch => ch ≠ []) (chunks cpus l).
Proof. apply chunks_partition. Qed.

(** X8: the references [analyze_references_multi.ts] writes do not
    depend on the number of worker processes: they are the references of
    one worker run on all files, deduplicated. *)
Theorem uniqueRefs_any_worker_count
    (laws : list LawIndex) (abbreviations : list (jsstring * Abbreviation))
    (xmlFiles : list (jsstring * jsstring)) :
  ∃ refs, worker laws abbreviations xmlFiles = Some refs
    ∧ ∀ cpus, uniqueRefs cpus laws abbreviations xmlFiles = Some (dedupeReferences refs).
Proof.
  destruct (worker_total laws abbreviations xmlFiles) as [refs Hrefs].
  exists refs. split; [done|]. intros cpus. by rw uniqueRefs_worker Hrefs.
Qed.
End main_extras.

Section regex_capture_facts.
Import Regex RegexSpec.

Lemma rep_loop_caps step greedy lo n cnt st st' :
  (∀ st st', st' ∈ step st → caps st' = caps st) →
  st' ∈ rep_loop step greedy lo n cnt st → caps st' = caps st.
Proof.
  intros Hstep. revert cnt st. induction n as [|n IH]; intros cnt st; simpl.
  - destruct (cnt <? lo)%nat; [by intros ?%elem_of_nil|].
    destruct greedy; simpl; by intros ->%list_elem_of_singleton.
  - assert (Hmore : st' ∈ (filter (fun st1 => cnt < lo ∨ pos st < pos st1) (step st)
                             ≫= rep_loop step greedy lo n (S cnt)) →
                    caps st' = caps st).
    { intros (st1 & Hst' & [_ Hst1]%list_elem_of_filter)%list_elem_of_bind.
      apply IH in Hst'. apply Hstep in Hst1. congruence. }
    destruct (cnt <? lo)%nat; [done|].
    destruct greedy.
    + intros [?| ->%list_elem_of_singleton]%elem_of_app; [by apply Hmore|done].
    + intros [->|?]%elem_of_cons; [done|by apply Hmore].
Qed.

(** A pattern without group leaves the groups as they are. *)
Lemma rmatch_groupless r s st st' :
  groupless r = true → st' ∈ rmatch r s st → caps st' = caps st.
Proof.
  revert st st'.
  induction r as [c|neg ranges| |a IHa b IHb|a IHa b IHb|greedy lo hi a IHa|k a IHa];
    intros st st'; simpl.
  - intros _. unfold step_char. destruct (s !! pos st) as [d|]; [|by intros ?%elem_of_nil].
    destruct (N.eqb c d); [|by intros ?%elem_of_nil]. by intros ->%list_elem_of_singleton.
  - intros _. unfold step_char. destruct (s !! pos st) as [d|]; [|by intros ?%elem_of_nil].
    destruct (xorb _ _); [|by intros ?%elem_of_nil]. by intros ->%list_elem_of_singleton.
  - by intros _ ->%list_elem_of_singleton.
  - intros [Ha Hb]%andb_true_iff (st1 & Hst' & Hst1)%list_elem_of_bind.
    apply IHb in Hst'; [|done]. apply IHa in Hst1; [|done]. congruence.
  - intros [Ha Hb]%andb_true_iff [?|?]%elem_of_app; [by apply IHa|by apply IHb].
  - intros Ha. apply rep_loop_caps. intros. by apply IHa.
  - done.
Qed.

(** A literal matches the text it spells. *)
Lemma rmatch_RStr l s st st' :
  st' ∈ rmatch (RStr l) s st →
  caps st' = caps st ∧ pos st' = pos st + length l
  ∧ take (length l) (drop (pos st) s) = l.
Proof.
  revert st; induction l as [|c l IH]; intros st; simpl.
  - intros ->%list_elem_of_singleton. rw Nat.add_0_r. by rw take_0.
  - intros (st1 & Hst' & Hst1)%list_elem_of_bind.
    unfold step_char in Hst1. destruct (s !! pos st) as [d|] eqn:Hd; [|by apply elem_of_nil in Hst1].
    destruct (N.eqb_spec c d) as [->|]; [|by apply elem_of_nil in Hst1].
    apply list_elem_of_singleton in Hst1 as ->.
    apply IH in Hst' as (-> & -> & Htake). simpl in *.
    split_and!; [done|lia|].
    rw (drop_S _ _ _ Hd). simpl. by rw Htake.
Qed.

(** A group around a pattern without group records the span of the
    match. *)
Lemma rmatch_RGroup k a s st st' :
  groupless a = true → st' ∈ rmatch (RGroup k a) s st →
  caps st' = (k, (pos st, pos st')) :: caps st
  ∧ pos st + min_len a ≤ pos st'
  ∧ (pos st ≤ length s → pos st' ≤ length s).
Proof.
  intros Ha. simpl. intros (st1 & -> & Hst1)%list_elem_of_fmap. simpl.
  pose proof (rmatch_groupless a s st st1 Ha Hst1) as ->.
  by destruct (rmatch_advances a s st st1 Hst1).
Qed.

(** An optional part is left out or matched once. *)
Lemma rmatch_ROpt a s st st' :
  st' ∈ rmatch (ROpt a) s st → st' = st ∨ st' ∈ rmatch a s st.
Proof.
  unfold ROpt. simpl.
  intros [(st1 & Hst' & [_ Hst1]%list_elem_of_filter)%list_elem_of_bind
         | ->%list_elem_of_singleton]%elem_of_app; [|by left].
  apply list_elem_of_singleton in Hst' as ->. by right.
Qed.

Lemma rmatch_RSeq a b s st st' :
  st' ∈ rmatch (RSeq a b) s st ↔ ∃ st1, st1 ∈ rmatch a s st ∧ st' ∈ rmatch b s st1.
Proof. simpl. rw list_elem_of_bind. naive_solver. Qed.

Lemma match_at_is_match r s i m : match_at r s i = Some m → is_match r s m ∧ m_start m = i.
Proof.
  unfold match_at. destruct (rmatch r s (MState i [])) as [|st l] eqn:Hm; [done|].
  intros [= <-]. split; [|done]. exists st. simpl. rw Hm. split; [by left|done].
Qed.

Lemma search_is_match r s fuel i m : search r s fuel i = Some m → is_match r s m.
Proof.
  revert i; induction fuel as [|fuel IH]; intros i; simpl;
    destruct (match_at r s i) as [m'|] eqn:Hm; try done.
  - intros [= <-]. by apply match_at_is_match in Hm as [? _].
  - intros [= <-]. by apply match_at_is_match in Hm as [? _].
  - apply IH.
Qed.

Lemma exec_loop_is_match r s fuel lastIndex ms :
  exec_loop fuel r s lastIndex = Some ms →
  Forall (fun m => is_match r s m ∧ m_end m ≤ length s) ms.
Proof.
  revert lastIndex ms; induction fuel as [|fuel IH]; intros lastIndex ms; simpl; [done|].
  destruct (exec r s lastIndex) as [m|] eqn:Hm; [|intros [= <-]; constructor].
  destruct (exec_loop fuel r s (m_end m)) as [ms'|] eqn:Hms; [|done].
  intros [= <-]. constructor; [|by eapply IH].
  split; [|by apply exec_spec in Hm as (_ & _ & ?)].
  unfold exec in Hm. case_decide; [done|]. by eapply search_is_match.
Qed.
End regex_capture_facts.

Section seen_facts.
Import Regex RegexSpec Patterns Extractor ExtractorSpec.

Lemma seen_inv_push references seen r :
  seen_inv (references, seen) →
  match to_law_id r with
  | Some t => t ∉ seen
  | None => Js.str "unknown:" ++ to_law_title r ∉ seen
  end →
  seen_inv (references ++ [r],
            {[ match to_law_id r with
               | Some t => t
               | None => Js.str "unknown:" ++ to_law_title r
               end ]} ∪ seen).
Proof.
  intros (Hin & Hknown & Hunknown) Hnew. simpl in *. split_and!; simpl.
  - intros r' [Hr'| ->%list_elem_of_singleton]%elem_of_app.
    + specialize (Hin r' Hr'). destruct (to_law_id r'); set_solver.
    + destruct (to_law_id r); set_solver.
  - rw omap_app. simpl. destruct (to_law_id r) as [t'|] eqn:Hr; simpl; [|by rw app_nil_r].
    apply NoDup_app. split_and!; [done| |apply NoDup_singleton].
    intros t (r' & Hr' & Ht)%list_elem_of_omap ->%list_elem_of_singleton.
    specialize (Hin r' Hr'). by rw Ht in Hin.
  - rw filter_app fmap_app filter_cons filter_nil.
    case_decide as Hr; simpl; [|by rw app_nil_r].
    apply NoDup_app. split_and!; [done| |apply NoDup_singleton].
    intros n (r' & -> & [Hnone Hr']%list_elem_of_filter)%list_elem_of_fmap
           Heq%list_elem_of_singleton.
    specialize (Hin r' Hr'). rw Hnone Heq in Hin. by rw Hr in Hnew.
Qed.

Lemma phase1_step_seen xmlContent fromLaw st cand :
  seen_inv st → seen_inv (phase1_step xmlContent fromLaw st cand).
Proof.
  intros Hst. destruct st as [references seen], cand as [name law]. unfold phase1_step.
  repeat case_decide; try done.
  destruct (Js.indexOf xmlContent name) as [p|]; [|done].
  destruct (_ && _); [done|].
  destruct (match_prefix artPattern _) as [m|];
    destruct (match_prefix numPattern _);
    by apply (seen_inv_push references seen
                {| to_law_id := Some (id law) |}).
Qed.

Lemma phase2_step_seen titleToLaw abbrevMap xmlContent fromLaw st m :
  seen_inv st → seen_inv (phase2_step titleToLaw abbrevMap xmlContent fromLaw st m).
Proof.
  intros Hst. destruct st as [references seen]. unfold phase2_step.
  destruct (lookupLaw _ _ _) as [knownLaw|].
  - case_decide as Hd; [|done]. destruct Hd as [Hd _].
    by apply (seen_inv_push references seen
                (knownRef fromLaw knownLaw _ None law_num_ref)).
  - case_decide as Hd; [|done].
    by apply (seen_inv_push references seen {| to_law_id := None |}).
Qed.

Lemma phase3_step_seen titleToLaw abbrevMap xmlContent fromLaw st m :
  seen_inv st → seen_inv (phase3_step titleToLaw abbrevMap xmlContent fromLaw st m).
Proof.
  intros Hst. destruct st as [references seen]. unfold phase3_step.
  destruct (lookupLaw _ _ _) as [originalLaw|]; [|done].
  case_decide as Hd; [|done]. destruct Hd as [Hd _].
  by apply (seen_inv_push references seen
              (knownRef fromLaw originalLaw _ None amendment_ref)).
Qed.

(** An invariant of the three loops holds for the result of
    [analyzeFile]. *)
Lemma analyzeFile_invariant (P : LawIndex → xstate → Prop)
    lawIndex abbreviations lawId xmlContent :
  (∀ fromLaw, P fromLaw ([], ∅)) →
  (∀ fromLaw st cand, JsMap.get lawId (lawIdMap lawIndex) = Some fromLaw →
     cand ∈ knownLawNames lawIndex abbreviations →
     P fromLaw st → P fromLaw (phase1_step xmlContent fromLaw st cand)) →
  (∀ fromLaw st m, JsMap.get lawId (lawIdMap lawIndex) = Some fromLaw →
     is_match unknownLawWithNumPattern xmlContent m → m_end m ≤ length xmlContent →
     P fromLaw st →
     P fromLaw (phase2_step (titleToLaw lawIndex) (abbrevMap lawIndex abbreviations)
                  xmlContent fromLaw st m)) →
  (∀ fromLaw st m, JsMap.get lawId (lawIdMap lawIndex) = Some fromLaw →
     is_match amendmentPattern xmlContent m → m_end m ≤ length xmlContent →
     P fromLaw st →
     P fromLaw (phase3_step (titleToLaw lawIndex) (abbrevMap lawIndex abbreviations)
                  xmlContent fromLaw st m)) →
  ∃ refs, analyzeFile lawIndex abbreviations lawId xmlContent = Some refs
    ∧ match JsMap.get lawId (lawIdMap lawIndex) with
      | Some fromLaw => ∃ seen, P fromLaw (refs, seen)
      | None => refs = []
      end.
Proof.
  intros H0 H1 H2 H3. unfold analyzeFile.
  destruct (JsMap.get lawId (lawIdMap lawIndex)) as [fromLaw|] eqn:Hfrom; [|by exists []].
  unfold extractReferences.
  destruct (exec_all_total unknownLawWithNumPattern xmlContent) as [ms2 Hms2];
    [apply patterns_nonempty|].
  destruct (exec_all_total amendmentPattern xmlContent) as [ms3 Hms3];
    [apply patterns_nonempty|].
  rw Hms2 Hms3.
  apply exec_loop_is_match in Hms2, Hms3. rw Forall_forall in Hms2. rw Forall_forall in Hms3.
  simpl. eexists; split; [done|].
  match goal with |- ∃ seen, P _ ((?st).1, seen) => exists (st.2); destruct st eqn:Hst end.
  simpl. rw -Hst.
  apply (foldl_invariant (P fromLaw)); [|intros st m [? ?]%Hms3 ?; by apply H3].
  apply (foldl_invariant (P fromLaw)); [|intros st m [? ?]%Hms2 ?; by apply H2].
  apply (foldl_invariant (P fromLaw)); [by apply H0|intros; by apply H1].
Qed.
End seen_facts.

Section extractor_invariants.
Import Regex Patterns Extractor ExtractorSpec.

(** X9: among the references [extractReferences] returns for one
    document, no two have the same [to_law_id], and no two of those without
    [to_law_id] have the same [to_law_title]: a law is cited once for a
    document, whatever the phase that finds it. *)
Theorem extractReferences_cites_each_law_once
    (lawIndex : list LawIndex) (abbreviations : list (jsstring * Abbreviation))
    (lawId xmlContent : jsstring) :
  ∃ refs, analyzeFile lawIndex abbreviations lawId xmlContent = Some refs
    ∧ NoDup (omap to_law_id refs)
    ∧ NoDup (to_law_title <$> filter (fun r => to_law_id r = None) refs).
Proof.
  destruct (analyzeFile_invariant (fun _ => seen_inv) lawIndex abbreviations lawId xmlContent)
    as (refs & Hrefs & Hinv).
  - intros _. split_and!; simpl; [by intros ? ?%elem_of_nil|constructor..].
  - intros. by apply phase1_step_seen.
  - intros. by apply phase2_step_seen.
  - intros. by apply phase3_step_seen.
  - exists refs. split; [done|].
    destruct (JsMap.get lawId (lawIdMap lawIndex)); [|subst; split; constructor].
    by destruct Hinv as (seen & _ & ? & ?).
Qed.

Ltac fields_fit_of law :=
  apply Forall_app; split; [done|]; apply Forall_singleton;
  unfold fields_fit, is_Some; simpl;
  split_and!; [done|done|by split|split; intros; by eauto|
               intros; by eauto|intros t [= <-]; by exists law].

Lemma phase1_step_fields lawIndex fromLaw xmlContent st name law :
  law ∈ lawIndex →
  Forall (fields_fit lawIndex fromLaw) st.1 →
  Forall (fields_fit lawIndex fromLaw) (phase1_step xmlContent fromLaw st (name, law)).1.
Proof.
  intros Hlaw Hst. destruct st as [references seen]. unfold phase1_step.
  repeat case_decide; try done.
  destruct (Js.indexOf xmlContent name) as [p|]; [|done].
  destruct (_ && _); [done|].
  set (afterText := Js.substring xmlContent _ _).
  pose proof (number_parenthetical_excludes_article afterText) as Hexcl.
  destruct (match_prefix numPattern afterText) as [mn|].
  - rw Hexcl; [|by eexists]. simpl.
    apply Forall_app; split; [done|]. apply Forall_singleton.
    unfold fields_fit, is_Some. simpl.
    split_and!; [done|done|by split|split; [by intros [? ?]|done]|
                 by intros [[? ?]|[? ?]]|intros t [= <-]; by exists law].
  - destruct (match_prefix artPattern afterText) as [m|]; simpl.
    + fields_fit_of law.
    + apply Forall_app; split; [done|]. apply Forall_singleton.
      unfold fields_fit, is_Some. simpl.
      split_and!; [done|done|by split|split; [by intros [? ?]|done]|
                   by intros [[? ?]|[? ?]]|intros t [= <-]; by exists law].
Qed.

Lemma phase2_step_fields lawIndex abbreviations fromLaw xmlContent st m :
  Forall (fields_fit lawIndex fromLaw) st.1 →
  Forall (fields_fit lawIndex fromLaw)
    (phase2_step (titleToLaw lawIndex) (abbrevMap lawIndex abbreviations)
       xmlContent fromLaw st m).1.
Proof.
  intros Hst. destruct st as [references seen]. unfold phase2_step.
  destruct (lookupLaw _ _ _) as [knownLaw|] eqn:Hlook.
  - apply lookupLaw_elem in Hlook.
    case_decide as Hd; [|done]. simpl.
    apply Forall_app; split; [done|]. apply Forall_singleton.
    unfold fields_fit, is_Some. simpl.
    split_and!; [done|done|by split|split; [by intros [? ?]|done]|
                 by intros [[? ?]|[? ?]]|intros t [= <-]; by exists knownLaw].
  - case_decide; [|done]. simpl.
    apply Forall_app; split; [done|]. apply Forall_singleton.
    unfold fields_fit, is_Some. simpl.
    split_and!; [done|done|by split|split; [by intros [? ?]|done]|
                 by intros [[? ?]|[? ?]]|done].
Qed.

Lemma phase3_step_fields lawIndex abbreviations fromLaw xmlContent st m :
  Forall (fields_fit lawIndex fromLaw) st.1 →
  Forall (fields_fit lawIndex fromLaw)
    (phase3_step (titleToLaw lawIndex) (abbrevMap lawIndex abbreviations)
       xmlContent fromLaw st m).1.
Proof.
  intros Hst. destruct st as [references seen]. unfold phase3_step.
  destruct (lookupLaw _ _ _) as [originalLaw|] eqn:Hlook; [|done].
  apply lookupLaw_elem in Hlook.
  case_decide as Hd; [|done]. simpl.
  apply Forall_app; split; [done|]. apply Forall_singleton.
  unfold fields_fit, is_Some. simpl.
  split_and!; [done|done|by split|split; [by intros [? ?]|done]|
               by intros [[? ?]|[? ?]]|intros t [= <-]; by exists originalLaw].
Qed.
End extractor_invariants.


Section substring_facts.

Lemma substring_take_drop (s : jsstring) p n : Js.substring s p (p + n) = take n (drop p s).
Proof. unfold Js.substring. f_equal. lia. Qed.

Lemma substring_app (s : jsstring) a b c :
  a ≤ b → b ≤ c → Js.substring s a b ++ Js.substring s b c = Js.substring s a c.
Proof.
  intros Hab Hbc. unfold Js.substring.
  replace (drop b s) with (drop (b - a) (drop a s)) by (rw drop_drop; f_equal; lia).
  rw take_take_drop. f_equal. lia.
Qed.

Lemma substring_length (s : jsstring) a b :
  b ≤ length s → length (Js.substring s a b) = b - a.
Proof. intros Hb. unfold Js.substring. rw length_take length_drop. lia. Qed.

Lemma substring_occurs (s : jsstring) a b :
  ∃ pre post, s = pre ++ Js.substring s a b ++ post.
Proof.
  exists (take a s), (drop (b - a) (drop a s)). unfold Js.substring.
  by rw take_drop take_drop.
Qed.

Lemma substring_truthy (s : jsstring) a b :
  a < b → b ≤ length s → truthy (Some (Js.substring s a b)) = true.
Proof.
  intros Hab Hb. pose proof (substring_length s a b Hb) as Hlen.
  destruct (Js.substring s a b); [simpl in Hlen; lia|done].
Qed.

Lemma substring_0_prefix (s : jsstring) e : Js.substring s 0 e `prefix_of` s.
Proof. exists (drop e s). unfold Js.substring. by rw Nat.sub_0_r drop_0 take_drop. Qed.

(** Text at the start of the 50 code units after an occurrence of [name]
    stands in the string right after [name]. *)
Lemma after_name_occurs (xmlContent name c : jsstring) p :
  name `prefix_of` drop p xmlContent →
  c `prefix_of` Js.substring xmlContent (p + length name) (p + length name + 50) →
  ∃ pre post, xmlContent = pre ++ name ++ c ++ post.
Proof.
  intros [rest Hrest] [post Hpost].
  assert (drop (p + length name) xmlContent = rest) as Hdrop.
  { rw -drop_drop Hrest. by rw drop_app_length. }
  rw substring_take_drop Hdrop in Hpost.
  exists (take p xmlContent), (post ++ drop 50 rest).
  rw -{1}(take_drop p xmlContent) Hrest. do 2 f_equal.
  rw assoc -Hpost. by rw take_drop.
Qed.
End substring_facts.

Section pattern_facts.
Import Regex RegexSpec Patterns.

(** A pattern made of a first group, a literal, a second group and a rest
    without group: where the groups lie. *)
Lemma two_groups_match X L Y tail s i st :
  groupless X = true → groupless Y = true → groupless tail = true →
  st ∈ rmatch (RSeq (RGroup 1 X) (RSeq (RStr L) (RSeq (RGroup 2 Y) tail))) s (MState i []) →
  pos st ≤ length s →
  ∃ p1 p3,
    caps st = [(2, (p1 + length L, p3)); (1, (i, p1))]
    ∧ i + min_len X ≤ p1
    ∧ take (length L) (drop p1 s) = L
    ∧ p1 + length L + min_len Y ≤ p3
    ∧ p3 ≤ pos st
    ∧ st ∈ rmatch tail s (MState p3 [(2, (p1 + length L, p3)); (1, (i, p1))]).
Proof.
  intros HX HY Htail (st1 & H1 & (st2 & H2 & (st3 & H3 & H4)%rmatch_RSeq)%rmatch_RSeq)%rmatch_RSeq Hlen.
  apply (rmatch_RGroup _ _ _ _ _ HX) in H1 as (Hc1 & Hp1 & _).
  apply rmatch_RStr in H2 as (Hc2 & Hp2 & Ht2).
  apply (rmatch_RGroup _ _ _ _ _ HY) in H3 as (Hc3 & Hp3 & _).
  pose proof (rmatch_groupless _ _ _ _ Htail H4) as Hc4.
  pose proof (rmatch_advances tail s st3 st H4) as [Hp4 _].
  destruct st1 as [p1 c1], st2 as [p2 c2], st3 as [p3 c3]. simpl in *. subst.
  exists p1, p3. split_and!; [done|done|done|lia|lia|done].
Qed.

Lemma rmatch_lit_end L s st st' :
  st' ∈ rmatch (RSeq (RStr L) REps) s st →
  caps st' = caps st ∧ pos st' = pos st + length L ∧ take (length L) (drop (pos st) s) = L.
Proof.
  intros (st1 & H1 & ->%list_elem_of_singleton)%rmatch_RSeq. by apply rmatch_RStr.
Qed.

(** A match of [unknownLawWithNumPattern] is a name of at least three code
    units (the first group), an opening bracket, a number (the second
    group) and a closing bracket. *)
Lemma unknownLawWithNumPattern_match s m :
  is_match unknownLawWithNumPattern s m → m_end m ≤ length s →
  ∃ lawName lawNum,
    group s m 1 = Some lawName ∧ group s m 2 = Some lawNum
    ∧ Js.substring s (m_start m) (m_end m) = lawName ++ Js.str "（" ++ lawNum ++ Js.str "）"
    ∧ 3 ≤ length lawName.
Proof.
  intros (st & Hst & Hend & Hcaps) Hlen. rw Hend in Hlen.
  change unknownLawWithNumPattern with
    (RSeq (RGroup 1
             (cat [ RRep false 2 (Some 50)
                      (RClass false
                         (cjk_kana ++ range "ａ" "ｚ" ++ range "Ａ" "Ｚ"
                            ++ range "a" "z" ++ range "A" "Z" ++ chars "・"));
                    alt [lit "法"; lit "令"; lit "規則"; lit "条例"] ]))
       (RSeq (RStr (Js.str "（")) (RSeq (RGroup 2 era_number) (RSeq (RStr (Js.str "）")) REps))))
    in Hst.
  apply two_groups_match in Hst as (p1 & p3 & Hc & Hp1 & Ht1 & Hp3 & Hle & Htail);
    [|by vm_compute..|done].
  apply rmatch_lit_end in Htail as (_ & Hp4 & Ht4). simpl in Hp4, Ht4.
  change (length (Js.str "（")) with 1 in *. change (length (Js.str "）")) with 1 in *.
  change (min_len _) with 3 in Hp1.
  exists (Js.substring s (m_start m) p1), (Js.substring s (p1 + 1) p3).
  split_and!.
  - unfold group. by rw Hcaps Hc.
  - unfold group. by rw Hcaps Hc.
  - rw Hend Hp4. rw -Ht1 -Ht4 -!substring_take_drop.
    rw !substring_app; [done|lia..].
  - rw substring_length; lia.
Qed.

(** A match of [amendmentPattern] starts with a name of at least two code
    units, the first group. *)
Lemma amendmentPattern_match s m :
  is_match amendmentPattern s m → m_end m ≤ length s →
  ∃ p1, group s m 1 = Some (Js.substring s (m_start m) p1)
    ∧ m_start m + 2 ≤ p1 ∧ p1 ≤ length s.
Proof.
  intros (st & Hst & Hend & Hcaps) Hlen. rw Hend in Hlen.
  change amendmentPattern with
    (RSeq (RGroup 1 (RRep false 2 (Some 50) (RClass false cjk_kana)))
       (RSeq (RStr (Js.str "の一部を改正する"))
          (RSeq (RGroup 2 (alt [lit "法律"; lit "政令"; lit "省令"; lit "規則"])) REps)))
    in Hst.
  apply two_groups_match in Hst as (p1 & p3 & Hc & Hp1 & Ht1 & Hp3 & Hle & Htail);
    [|by vm_compute..|done].
  change (min_len _) with 2 in Hp1.
  exists p1. unfold group. rw Hcaps Hc /=. split_and!; [done|lia|lia].
Qed.
End pattern_facts.

Section article_facts.
Import Regex RegexSpec Patterns.

(** An optional part made of a literal, a group of one or more characters
    of a class and a rest that matches a literal: it is left out, or the
    text it matches is the literal, the group and the literal of the
    rest. *)
Lemma opt_block k L C tail R s st st' :
  (∀ st1 st2, st2 ∈ rmatch tail s st1 →
     caps st2 = caps st1 ∧ pos st2 = pos st1 + length R
     ∧ take (length R) (drop (pos st1) s) = R) →
  st' ∈ rmatch (ROpt (RSeq (RStr L) (RSeq (RGroup k (RPlus (RClass false C))) tail))) s st →
  st' = st
  ∨ ∃ b, caps st' = (k, (pos st + length L, b)) :: caps st
       ∧ pos st + length L < b
       ∧ pos st' = b + length R
       ∧ Js.substring s (pos st) (pos st') = L ++ Js.substring s (pos st + length L) b ++ R.
Proof.
  intros Htail [->|(st1 & H1 & (st2 & H2 & H3)%rmatch_RSeq)%rmatch_RSeq]%rmatch_ROpt;
    [by left|right].
  apply rmatch_RStr in H1 as (Hc1 & Hp1 & Ht1).
  apply rmatch_RGroup in H2 as (Hc2 & Hp2 & _); [|done].
  apply Htail in H3 as (Hc3 & Hp3 & Ht3).
  change (min_len _) with 1 in Hp2.
  exists (pos st2). rw Hc3 Hc2 Hc1 Hp1. split_and!; [done|lia|done|].
  rw Hp3.
  rw -(substring_app s (pos st) (pos st + length L) (pos st2 + length R)); [|lia..].
  rw -(substring_app s (pos st + length L) (pos st2) (pos st2 + length R)); [|lia..].
  rw !substring_take_drop -Hp1 Ht3. by rw Hp1 Ht1.
Qed.

Lemma rmatch_REps_lit s st1 st2 :
  st2 ∈ rmatch REps s st1 →
  caps st2 = caps st1 ∧ pos st2 = pos st1 + length (@nil N)
  ∧ take (length (@nil N)) (drop (pos st1) s) = [].
Proof. intros ->%list_elem_of_singleton. simpl. split_and!; [done|lia|by rw take_0]. Qed.

Section article_shape.
Context (a j n a3 k a4 h : jsstring) (D B : list (N * N)).
#[local] Arguments truthy : simpl never.

Lemma article_shape_match s st :
  st ∈ rmatch (article_shape a j n a3 k a4 h D B) s (MState 0 []) → pos st ≤ length s →
  let g i := group s (RMatched 0 (pos st) (caps st)) i in
  (a ++ default [] (g 1) ++ j ++ (if truthy (g 2) then n ++ default [] (g 2) else []))
  ++ (if truthy (g 3) then a3 ++ default [] (g 3) ++ k else [])
  ++ (if truthy (g 4) then a4 ++ default [] (g 4) ++ h else [])
  = Js.substring s 0 (pos st).
Proof.
  unfold article_shape. intros Hst Hlen.
  apply rmatch_RSeq in Hst as (st1 & H1 & Hst).
  apply rmatch_RSeq in Hst as (st2 & H2 & Hst).
  apply rmatch_RSeq in Hst as (st3 & H3 & Hst).
  apply rmatch_RSeq in Hst as (st4 & H4 & Hst).
  apply rmatch_RSeq in Hst as (st5 & H5 & Hst).
  apply rmatch_RSeq in Hst as (st6 & H6 & ->%list_elem_of_singleton).
  apply rmatch_RStr in H1 as (Hc1 & Hp1 & Ht1).
  apply rmatch_RGroup in H2 as (Hc2 & Hp2 & _); [|done].
  apply rmatch_RStr in H3 as (Hc3 & Hp3 & Ht3).
  apply (opt_block _ _ _ _ [] _ _ _ (rmatch_REps_lit s)) in H4.
  apply (opt_block _ _ _ _ k _ _ _ (rmatch_lit_end _ s)) in H5.
  apply (opt_block _ _ _ _ h _ _ _ (rmatch_lit_end _ s)) in H6.
  change (min_len _) with 1 in Hp2. change (length (@nil N)) with 0 in *.
  destruct st1 as [p1 c1], st2 as [p2 c2], st3 as [p3 c3], st4 as [p4 c4],
           st5 as [p5 c5], st6 as [p6 c6].
  cbn [pos caps Nat.add] in *. subst c1 c2 c3 p1 p3.
  assert (Hhead : a ++ Js.substring s (length a) p2 ++ j
                  = Js.substring s 0 (p2 + length j)).
  { rw -(substring_app s 0 (length a) (p2 + length j)); [|lia..].
    rw -(substring_app s (length a) p2 (p2 + length j)); [|lia..].
    rw (substring_take_drop s 0) (substring_take_drop s p2).
    by rw Ht1 Ht3. }
  unfold group. cbn [m_caps].
  destruct H4 as [[= -> ->]|(b4 & -> & ? & -> & Hs4)];
    destruct H5 as [[= -> ->]|(b5 & -> & ? & -> & Hs5)];
    destruct H6 as [[= -> ->]|(b6 & -> & ? & -> & Hs6)];
    simpl; try (rw app_nil_r in Hs4);
    repeat match goal with H : context [?x + 0] |- _ => rw (Nat.add_0_r x) in H end;
    rw ?Nat.add_0_r; rw ?substring_truthy; try lia; simpl; rw ?app_nil_r;
    repeat match goal with
      | Hs : Js.substring s ?x ?y = _ |- context [Js.substring s 0 ?y] =>
          rw -(substring_app s 0 x y); [rw Hs; clear Hs|lia|lia]
      end;
    rw -?Hhead; by rw -?assoc.
Qed.
End article_shape.

(** The text [artPattern] matches is the article, the paragraph and the
    item the extractor makes of its groups, one after the other. *)
Lemma artPattern_match s m :
  match_prefix artPattern s = Some m →
  let g i := group s m i in
  (Js.str "第" ++ default [] (g 1) ++ Js.str "条"
     ++ (if truthy (g 2) then Js.str "の" ++ default [] (g 2) else []))
  ++ (if truthy (g 3) then Js.str "第" ++ default [] (g 3) ++ Js.str "項" else [])
  ++ (if truthy (g 4) then Js.str "第" ++ default [] (g 4) ++ Js.str "号" else [])
  = Js.substring s 0 (m_end m).
Proof.
  unfold match_prefix. intros Hm.
  pose proof (match_at_spec _ _ _ _ Hm) as (Hstart & _ & Hlen).
  specialize (Hlen (Nat.le_0_l _)).
  apply match_at_is_match in Hm as [(st & Hst & Hend & Hcaps) _].
  rw Hstart in Hst. rw Hend in Hlen.
  change artPattern with
    (article_shape (Js.str "第") (Js.str "条") (Js.str "の") (Js.str "第") (Js.str "項")
       (Js.str "第") (Js.str "号") article_digit branch_digit) in Hst.
  pose proof (article_shape_match _ _ _ _ _ _ _ _ _ s st Hst Hlen) as Hshape.
  unfold group in *. rw Hend Hcaps. exact Hshape.
Qed.
End article_facts.

Section text_facts.
Import Regex RegexSpec Patterns Extractor ExtractorSpec.

Lemma occurs_substring (s : jsstring) a b : occurs (Js.substring s a b) s.
Proof. apply substring_occurs. Qed.

Lemma occurs_prefix_part (t u s : jsstring) : occurs (t ++ u) s → occurs t s.
Proof. intros (pre & post & ->). exists pre, (u ++ post). by rw -assoc. Qed.

Lemma phase1_step_text xmlContent fromLaw st cand :
  Forall (from_text xmlContent) st.1 →
  Forall (from_text xmlContent) (phase1_step xmlContent fromLaw st cand).1.
Proof.
  intros Hst. destruct st as [references seen], cand as [name law]. unfold phase1_step.
  repeat case_decide; try done.
  destruct (Js.indexOf xmlContent name) as [p|] eqn:Hp; [|done].
  destruct (_ && _); [done|].
  apply indexOf_first in Hp as [Hpre _].
  set (afterText := Js.substring xmlContent _ _).
  assert (Hocc : ∀ c, c `prefix_of` afterText → occurs (name ++ c) xmlContent).
  { intros c Hc. destruct (after_name_occurs xmlContent name c p Hpre Hc) as (pre & post & ->).
    exists pre, post. by rw -assoc. }
  pose proof (artPattern_match afterText) as Hart.
  destruct (match_prefix artPattern afterText) as [m|].
  - specialize (Hart m eq_refl). cbv zeta beta in Hart.
    remember (Js.str "第") as dai eqn:Hdai. remember (Js.str "条") as jo eqn:Hjo.
    remember (Js.str "の") as no eqn:Hno. remember (Js.str "項") as ko eqn:Hko.
    remember (Js.str "号") as go eqn:Hgo. clear Hdai Hjo Hno Hko Hgo.
    assert (Hcite : occurs (name ++ (dai ++ default [] (group afterText m 1) ++ jo
                             ++ (if truthy (group afterText m 2)
                                 then no ++ default [] (group afterText m 2) else []))
                             ++ default [] (if truthy (group afterText m 3)
                                            then Some (dai ++ default [] (group afterText m 3) ++ ko)
                                            else None)
                             ++ default [] (if truthy (group afterText m 4)
                                            then Some (dai ++ default [] (group afterText m 4) ++ go)
                                            else None)) xmlContent).
    { apply Hocc.
      match goal with |- ?c `prefix_of` _ =>
        replace c with (Js.substring afterText 0 (m_end m)); [apply substring_0_prefix|]
      end.
      rw -Hart.
      by destruct (truthy (group afterText m 3)), (truthy (group afterText m 4)). }
    destruct (match_prefix numPattern afterText);
      (apply Forall_app; split; [done|]; apply Forall_singleton;
       split_and!; [simpl; lia|exact Hcite|done]).
  - assert (Hcite : occurs (name ++ [] ++ [] ++ []) xmlContent)
      by (apply Hocc, prefix_nil).
    destruct (match_prefix numPattern afterText);
      (apply Forall_app; split; [done|]; apply Forall_singleton;
       split_and!; [simpl; lia|exact Hcite|done]).
Qed.

Lemma phase2_step_text titleToLaw abbrevMap xmlContent fromLaw st m :
  is_match unknownLawWithNumPattern xmlContent m → m_end m ≤ length xmlContent →
  Forall (from_text xmlContent) st.1 →
  Forall (from_text xmlContent)
    (phase2_step titleToLaw abbrevMap xmlContent fromLaw st m).1.
Proof.
  intros Hm Hlen Hst. destruct st as [references seen]. unfold phase2_step.
  destruct (unknownLawWithNumPattern_match _ _ Hm Hlen)
    as (lawName & lawNum & -> & -> & Htext & Hname).
  pose proof (occurs_substring xmlContent (m_start m) (m_end m)) as Hocc. rw Htext in Hocc.
  assert (Hcite : occurs (lawName ++ [] ++ [] ++ []) xmlContent).
  { rw !app_nil_r. by eapply occurs_prefix_part. }
  cbn [default from_option id].
  destruct (lookupLaw _ _ _) as [knownLaw|].
  - case_decide; [|done].
    apply Forall_app; split; [done|]. apply Forall_singleton.
    split_and!; [simpl; lia|exact Hcite|done].
  - case_decide; [|done].
    apply Forall_app; split; [done|]. apply Forall_singleton.
    split_and!; [simpl; lia|exact Hcite|]. intros _. by exists lawNum.
Qed.

Lemma phase3_step_text titleToLaw abbrevMap xmlContent fromLaw st m :
  is_match amendmentPattern xmlContent m → m_end m ≤ length xmlContent →
  Forall (from_text xmlContent) st.1 →
  Forall (from_text xmlContent)
    (phase3_step titleToLaw abbrevMap xmlContent fromLaw st m).1.
Proof.
  intros Hm Hlen Hst. destruct st as [references seen]. unfold phase3_step.
  destruct (amendmentPattern_match _ _ Hm Hlen) as (p1 & -> & Hp1 & Hp1').
  cbn [default from_option id].
  destruct (lookupLaw _ _ _) as [originalLaw|]; [|done].
  case_decide; [|done].
  apply Forall_app; split; [done|]. apply Forall_singleton.
  split_and!; [simpl; rw substring_length; lia| |done].
  unfold cited_text. simpl. rw !app_nil_r. apply occurs_substring.
Qed.
End text_facts.

Section extractor_extras.
Import Regex RegexSpec Patterns Extractor ExtractorSpec.

(** X10: the fields of every reference [extractReferences] returns
    for a document fit together: [from_law_id] and [from_law_title] are
    those of the law of the document; [to_law_id] is [null] exactly for the
    type [unknown_law]; [article] is set exactly for the type
    [article_ref], and [paragraph] and [item] only with an article; and for
    a known law, [to_law_num] is the [lawNum] of a record of the registry
    with that id. *)
Theorem extractReferences_fields_fit_together
    (lawIndex : list LawIndex) (abbreviations : list (jsstring * Abbreviation))
    (lawId xmlContent : jsstring) :
  ∃ refs, analyzeFile lawIndex abbreviations lawId xmlContent = Some refs
    ∧ ∀ r, r ∈ refs →
        ∃ fromLaw, fromLaw ∈ lawIndex ∧ id fromLaw = lawId
          ∧ fields_fit lawIndex fromLaw r.
Proof.
  destruct (analyzeFile_invariant
              (fun fromLaw st => Forall (fields_fit lawIndex fromLaw) st.1)
              lawIndex abbreviations lawId xmlContent)
    as (refs & Hrefs & Hinv).
  - intros ?. constructor.
  - intros fromLaw st [name law] _ Hcand ?. apply phase1_step_fields; [|done].
    by eapply knownLawNames_elem.
  - intros. by apply phase2_step_fields.
  - intros. by apply phase3_step_fields.
  - exists refs. split; [done|]. intros r Hr.
    destruct (JsMap.get lawId (lawIdMap lawIndex)) as [fromLaw|] eqn:Hfrom;
      [|subst; by apply elem_of_nil in Hr].
    destruct Hinv as [seen Hall]. apply lawIdMap_elem in Hfrom as [? ?].
    exists fromLaw. split_and!; [done..|].
    rw Forall_forall in Hall. by apply Hall.
Qed.

Lemma analyzeFile_from_text lawIndex abbreviations lawId xmlContent :
  ∃ refs, analyzeFile lawIndex abbreviations lawId xmlContent = Some refs
    ∧ Forall (from_text xmlContent) refs.
Proof.
  destruct (analyzeFile_invariant
              (fun _ st => Forall (from_text xmlContent) st.1)
              lawIndex abbreviations lawId xmlContent)
    as (refs & Hrefs & Hinv).
  - intros _. constructor.
  - intros. by apply phase1_step_text.
  - intros. by apply phase2_step_text.
  - intros. by apply phase3_step_text.
  - exists refs. split; [done|].
    destruct (JsMap.get lawId (lawIdMap lawIndex)); [|subst; constructor].
    by destruct Hinv as [seen Hall].
Qed.

(** X11: every reference [extractReferences] returns is read off the
    text of the document: the name in [to_law_title] has two code units or
    more and stands in the text, followed at once by the article, the
    paragraph and the item of the reference. So an empty document yields
    no reference. *)
Theorem extractReferences_cites_text_of_document
    (lawIndex : list LawIndex) (abbreviations : list (jsstring * Abbreviation))
    (lawId xmlContent : jsstring) :
  (∃ refs, analyzeFile lawIndex abbreviations lawId xmlContent = Some refs
     ∧ ∀ r, r ∈ refs →
         2 ≤ length (to_law_title r) ∧ occurs (cited_text r) xmlContent)
  ∧ analyzeFile lawIndex abbreviations lawId [] = Some [].
Proof.
  split.
  - destruct (analyzeFile_from_text lawIndex abbreviations lawId xmlContent)
      as (refs & Hrefs & Hall).
    exists refs. split; [done|]. intros r Hr. rw Forall_forall in Hall.
    by destruct (Hall r Hr) as (? & ? & _).
  - destruct (analyzeFile_from_text lawIndex abbreviations lawId [])
      as ([|r refs] & Hrefs & Hall); [done|].
    apply Forall_cons in Hall as [(Hlen & (pre & post & Hocc) & _) _].
    apply (f_equal length) in Hocc. unfold cited_text in Hocc.
    rw !length_app /= in Hocc. lia.
Qed.

(** X12: a reference to a law that is not known ([to_law_id] is
    [null]) carries the number that stands in the text in brackets right
    after the name: the name, an opening bracket, [to_law_num] and a
    closing bracket stand in the document one after the other. *)
Theorem extractReferences_unknown_law_number_from_text
    (lawIndex : list LawIndex) (abbreviations : list (jsstring * Abbreviation))
    (lawId xmlContent : jsstring) :
  ∃ refs, analyzeFile lawIndex abbreviations lawId xmlContent = Some refs
    ∧ ∀ r, r ∈ refs → to_law_id r = None →
        ∃ num, to_law_num r = Some num
          ∧ occurs (to_law_title r ++ Js.str "（" ++ num ++ Js.str "）") xmlContent.
Proof.
  destruct (analyzeFile_from_text lawIndex abbreviations lawId xmlContent)
    as (refs & Hrefs & Hall).
  exists refs. split; [done|]. intros r Hr Hnone. rw Forall_forall in Hall.
  destruct (Hall r Hr) as (_ & _ & Hnum). by apply Hnum.
Qed.
End extractor_extras.

Section counting_facts.
Context {K : Type} `{EqDecision K}.

(** A table of counters, [m[k] = (m[k] || 0) + 1] for each [k] of a list:
    what it holds. *)
Lemma jsmap_incr_get (k k' : K) (m : list (K * nat)) :
  JsMap.get k (JsMap.set k' (default 0 (JsMap.get k' m) + 1) m)
  = if decide (k = k') then Some (default 0 (JsMap.get k m) + 1) else JsMap.get k m.
Proof. rw jsmap_get_set. by case_decide; subst. Qed.

Lemma jsmap_get_of_elem {V : Type} (k : K) (v : V) (m : list (K * V)) :
  NoDup m.*1 → (k, v) ∈ m → JsMap.get k m = Some v.
Proof.
  induction m as [|[k0 v0] m IH]; simpl; [by intros _ ?%elem_of_nil|].
  intros [Hk0 Hnd]%NoDup_cons [[= -> ->]|Hin]%elem_of_cons.
  - by rw decide_True.
  - rw decide_False; [by apply IH|].
    intros ->. apply Hk0. apply list_elem_of_fmap. by exists (k0, v).
Qed.

Lemma jsmap_incr_sum (k : K) (m : list (K * nat)) :
  sum_list_with snd (JsMap.set k (default 0 (JsMap.get k m) + 1) m)
  = sum_list_with snd m + 1.
Proof.
  induction m as [|[k0 v0] m IH]; simpl; [done|].
  case_decide; simpl; [lia|]. rw IH. lia.
Qed.
End counting_facts.

Section typeStats_facts.
Import Main.

(** X13: [typeStats] holds for each type the number of references of
    that type (no entry for a type without reference), each type once,
    and its counts add up to [total_references], the number of
    references. *)
Theorem typeStats_counts_by_type (uniqueRefs : list Reference) :
  (∀ t, JsMap.get t (typeStats uniqueRefs)
        = if decide (length (filter (fun r => ref_type r = t) uniqueRefs) = 0) then None
          else Some (length (filter (fun r => ref_type r = t) uniqueRefs)))
  ∧ NoDup (typeStats uniqueRefs).*1
  ∧ sum_list_with snd (typeStats uniqueRefs) = length uniqueRefs.
Proof.
  unfold typeStats. induction uniqueRefs as [|ref refs (Hget & Hnd & Hsum)] using rev_ind.
  - split_and!; [done|constructor|done].
  - rw foldl_app /=. split_and!.
    + intros t. rw jsmap_incr_get filter_app length_app filter_cons filter_nil Hget.
      destruct (decide (t = ref_type ref)) as [->|Hne].
      * rw (decide_True (P := ref_type ref = ref_type ref)) //=.
        rw (decide_False (P := _ + 1 = 0)); [|lia].
        case_decide as Hc; simpl; [by rw Hc|done].
      * rw (decide_False (P := ref_type ref = t)) //=. by rw Nat.add_0_r.
    + by apply jsmap_set_keys_NoDup.
    + rw jsmap_incr_sum Hsum length_app /=. done.
Qed.
End typeStats_facts.

Section referrer_facts.
Import JsObject Coordinator CoordinatorSpec.

Lemma countFrom_snoc refs ref to f :
  countFrom (refs ++ [ref]) to f
  = countFrom refs to f + (if decide (from_law_id ref = f ∧ cites to ref) then 1 else 0).
Proof.
  unfold countFrom. rw filter_app length_app filter_cons filter_nil. by case_decide.
Qed.

(** What [countMap] holds for the law [to] after the second loop of
    [buildBacklinks]: for each law that cites it, the number of its
    references. *)
Lemma buildCountMap_fromMap refs to f :
  JsMap.get f (default [] (JsMap.get to (buildCountMap refs)))
  = (if decide (countFrom refs to f = 0) then None else Some (countFrom refs to f))
  ∧ NoDup (default [] (JsMap.get to (buildCountMap refs))).*1.
Proof.
  unfold buildCountMap. induction refs as [|ref refs [Hget Hnd]] using rev_ind.
  - split; [done|constructor].
  - rw foldl_app /= countStep_get countFrom_snoc.
    destruct (decide (cites to ref)) as [Hc|Hc]; simpl.
    + split; [|by apply jsmap_set_keys_NoDup].
      rw jsmap_incr_get Hget.
      destruct (decide (f = from_law_id ref)) as [->|Hne].
      * rw (decide_True (P := _ ∧ _)) //.
        rw (decide_False (P := _ + 1 = 0)); [|lia].
        case_decide as Hz; simpl; [by rw Hz|done].
      * rw (decide_False (P := _ ∧ _)); [|by intros [? _]]. by rw Nat.add_0_r.
    + rw (decide_False (P := _ ∧ _)); [|by intros [_ ?]]. by rw Nat.add_0_r.
Qed.

Lemma pushReferrers_omap laws fm acc :
  pushReferrers laws fm acc
  = acc ++ omap (fun e => (fun law => mkReferrer e.1 (title law) e.2) <$> findLaw laws e.1) fm.
Proof.
  unfold pushReferrers. revert acc; induction fm as [|[f n] fm IH]; intros acc; simpl.
  - by rw app_nil_r.
  - rw IH. destruct (findLaw laws f); simpl; [by rw -assoc|done].
Qed.

Lemma omap_referrers_ids laws (fm : list (jsstring * nat)) :
  sublist (r_law_id <$>
             omap (fun e => (fun law => mkReferrer e.1 (title law) e.2) <$> findLaw laws e.1) fm)
    fm.*1.
Proof.
  induction fm as [|[f n] fm IH]; simpl; [done|].
  destruct (findLaw laws f); simpl; [by apply sublist_skip|by apply sublist_cons].
Qed.

Lemma findLaw_Some laws k law : findLaw laws k = Some law → law ∈ laws ∧ id law = k.
Proof.
  unfold findLaw. destruct (list_find _ laws) as [[i l]|] eqn:Hfind; [|done].
  intros [= <-]. apply list_find_Some in Hfind as (Hi & ? & _).
  split; [by eapply list_elem_of_lookup_2|done].
Qed.

Lemma findLaw_is_Some laws k law : law ∈ laws → id law = k → is_Some (findLaw laws k).
Proof.
  intros Hlaw Hid. unfold findLaw.
  destruct (list_find_elem_of (fun l => id l = k) laws law Hlaw Hid) as [[i law'] ->].
  by eexists.
Qed.

(** X14: when [buildBacklinks] returns, an entry it holds under a key
    (an own property of [backlinks.backlinks], as [backlinks.json] has
    them) is the entry of a law of the registry with that id, which is not
    [__proto__]; it lists each law that cites it once, under the title the
    registry gives it, with the number of references from that law, which
    is not zero; and every law of the registry that cites it is listed.
    (A reference cites [k] when its [to_law_id] is [k] and not empty.) *)
Theorem buildBacklinks_lists_each_referrer_once
    (references : list Reference) (laws : list LawIndex) (b : backlinksObj)
    (k : jsstring) (entry : BacklinkEntry) :
  buildBacklinks references laws = Returned b →
  b_own b !! k = Some entry →
  (k ≠ protoKey ∧ ∃ law, law ∈ laws ∧ id law = k)
  ∧ e_law_id entry = k
  ∧ NoDup (r_law_id <$> referenced_by entry)
  ∧ (∀ r, r ∈ referenced_by entry →
       0 < count r ∧ count r = countFrom references k (r_law_id r)
       ∧ ∃ law, law ∈ laws ∧ id law = r_law_id r ∧ title law = r_law_title r)
  ∧ (∀ ref law, ref ∈ references → cites k ref → law ∈ laws → id law = from_law_id ref →
       from_law_id ref ∈ r_law_id <$> referenced_by entry).
Proof.
  intros Hb. pose proof (buildBacklinks_spec references laws) as Hspec.
  rw Hb in Hspec. destruct Hspec as [_ Hlook]. rw Hlook. clear Hb Hlook.
  pose proof (fun f => buildCountMap_fromMap references k f) as Hfm.
  pose proof (buildCountMap_None references k) as Hnone.
  destruct (JsMap.get k (buildCountMap references)) as [fromMap|] eqn:Hget; simpl in *.
  - destruct (b_own (seedBacklinks laws) !! k) as [e0|] eqn:He0; [|done].
    simpl. intros [= <-]. simpl.
    pose proof He0 as Hseed.
    apply (proj1 (seedBacklinks_lookup laws)) in He0 as (_ & Hid & Hnil).
    rw Hnil pushReferrers_omap /=.
    set (rs := omap _ fromMap).
    assert (Helem : ∀ r, r ∈ rs ↔ ∃ f n law, (f, n) ∈ fromMap ∧ findLaw laws f = Some law
                                     ∧ r = mkReferrer f (title law) n).
    { intros r. unfold rs. rw list_elem_of_omap. split.
      - intros ([f n] & Hin & Hr). simpl in Hr.
        destruct (findLaw laws f) as [law|] eqn:Hlaw; [|done].
        injection Hr as <-. by exists f, n, law.
      - intros (f & n & law & Hin & Hlaw & ->). exists (f, n). split; [done|].
        simpl. by rw Hlaw. }
    split; [apply (proj1 (seedBacklinks_is_Some laws k)); by eexists|]. split_and!.
    + done.
    + rw js_sort_perm. eapply sublist_NoDup; [|apply omap_referrers_ids]. apply (Hfm []).
    + intros r. rw js_sort_elem Helem. intros (f & n & law & Hin & Hlaw & ->). simpl.
      apply findLaw_Some in Hlaw as [? ?].
      assert (JsMap.get f fromMap = Some n) as Hn
        by (apply jsmap_get_of_elem; [apply (Hfm [])|done]).
      destruct (Hfm f) as [Hf _]. rw Hn in Hf.
      case_decide; [done|]. injection Hf as ->. split_and!; [lia|done|by exists law].
    + intros ref law Href Hcites Hlaw Hfrom. rw js_sort_perm.
      destruct (findLaw_is_Some laws (from_law_id ref) law Hlaw Hfrom) as [law' Hlaw'].
      destruct (Hfm (from_law_id ref)) as [Hf _].
      assert (countFrom references k (from_law_id ref) ≠ 0) as Hpos.
      { unfold countFrom.
        assert (ref ∈ filter (fun ref0 => from_law_id ref0 = from_law_id ref ∧ cites k ref0)
                        references) as Hin by (by apply list_elem_of_filter).
        destruct (filter _ references); [by apply elem_of_nil in Hin|simpl; lia]. }
      rw decide_False // in Hf.
      apply jsmap_get_elem in Hf.
      apply list_elem_of_fmap. eexists. split; [|apply Helem; by eexists _, _, _]. done.
  - intros He0. pose proof He0 as Hseed.
    apply (proj1 (seedBacklinks_lookup laws)) in He0 as (_ & Hid & Hnil).
    rw Hnil. split; [apply (proj1 (seedBacklinks_is_Some laws k)); by eexists|]. split_and!.
    + done.
    + constructor.
    + by intros r ?%elem_of_nil.
    + intros ref law Href Hcites _ _. exfalso.
      assert (Hsome : JsMap.get k (buildCountMap references) ≠ None); [|done].
      pose proof (buildCountMap_sum references k) as Hsum. rw Hget /= in Hsum.
      assert (ref ∈ filter (cites k) references) as Hin by (by apply list_elem_of_filter).
      destruct (filter (cites k) references); [by apply elem_of_nil in Hin|simpl in Hsum; lia].
Qed.

Lemma buildBacklinks_lists_each_referrer_once_witness :
  ∃ b entry, buildBacklinks sampleReferences sampleRegistry = Returned b
    ∧ b_own b !! Js.str "A" = Some entry
    ∧ e_law_id entry = Js.str "A"
    ∧ NoDup (r_law_id <$> referenced_by entry)
    ∧ Js.str "C" ∈ r_law_id <$> referenced_by entry.
Proof.
  assert (Hb : ∃ b entry, buildBacklinks sampleReferences sampleRegistry = Returned b
                 ∧ b_own b !! Js.str "A" = Some entry)
    by (eexists _, _; split; vm_compute; reflexivity).
  destruct Hb as (b & entry & Hb & He). exists b, entry. split_and!; [exact Hb|exact He|..];
    destruct (buildBacklinks_lists_each_referrer_once _ _ _ _ _ Hb He)
      as (_ & Hid & Hnd & _ & Hall); [exact Hid|exact Hnd|].
  apply (Hall (sampleRef (Js.str "C") (Js.str "A") None)
           {| id := Js.str "C"; lawNum := None; title := Js.str "商法"; category := None |}).
  - right. by left.
  - by vm_compute.
  - right. right. by left.
  - reflexivity.
Defined.
End referrer_facts.

Section abbreviation_facts.
Import JsObject Extractor Coordinator Abbreviations.

Lemma abbrevSet_own abbrev law result k :
  a_own (abbrevSet abbrev law result) !! k
  = if decide (abbrev = k ∧ abbrev ≠ protoKey) then Some law else a_own result !! k.
Proof.
  unfold abbrevSet. case_decide as Hp; simpl.
  - rw decide_False //. by intros [_ ?].
  - rw lookup_insert. case_decide; [rw decide_True //|rw decide_False //]. by intros [? _].
Qed.

Lemma abbrevSet_proto abbrev law result :
  a_proto (abbrevSet abbrev law result)
  = if decide (abbrev = protoKey) then Some law else a_proto result.
Proof. unfold abbrevSet. by case_decide. Qed.

Lemma abbrevTruthy_proto result : abbrevTruthy result protoKey = true.
Proof.
  unfold abbrevTruthy. case_decide; [done|].
  case_decide as Hp; [done|]. destruct Hp. apply protoKey_inherited.
Qed.

Lemma abbrevTruthy_same result result' abbrev :
  a_own result' !! abbrev = a_own result !! abbrev → a_proto result' = a_proto result →
  abbrevTruthy result' abbrev = abbrevTruthy result abbrev.
Proof. unfold abbrevTruthy. by intros -> ->. Qed.

Lemma dynamicAbbreviations_spec laws entries result abbrev :
  NoDup entries.*1 → Forall (fun e => is_Some e.2) entries →
  a_own (dynamicAbbreviations laws entries result) !! abbrev
  = (if decide (abbrev = protoKey) then a_own result !! abbrev
     else match JsMap.get abbrev entries ≫= from_option (resolveInfo laws) None with
          | Some law => Some law
          | None => a_own result !! abbrev
          end)
  ∧ a_proto (dynamicAbbreviations laws entries result)
    = match JsMap.get protoKey entries ≫= from_option (resolveInfo laws) None with
      | Some law => Some law
      | None => a_proto result
      end.
Proof.
  revert result; induction entries as [|[a [info|]] entries IH]; intros result; simpl.
  - intros _ _. by case_decide.
  - intros [Ha Hnd]%NoDup_cons [_ Hall]%Forall_cons.
    destruct (IH (match resolveInfo laws info with
                  | Some law => abbrevSet a law result
                  | None => result
                  end) Hnd Hall) as [-> ->].
    split.
    + case_decide as Hp.
      * destruct (resolveInfo laws info); [|done].
        rw abbrevSet_own decide_False //. intros [-> ?]. done.
      * destruct (decide (abbrev = a)) as [->|Hne]; simpl.
        -- rw jsmap_get_None //=.
           destruct (resolveInfo laws info) as [law|]; [|done].
           by rw abbrevSet_own decide_True.
        -- destruct (JsMap.get abbrev entries ≫= from_option (resolveInfo laws) None);
             [done|].
           destruct (resolveInfo laws info); [|done].
           rw abbrevSet_own decide_False //. by intros [-> _].
    + destruct (decide (protoKey = a)) as [<-|Hne]; simpl.
      * rw jsmap_get_None //=.
        destruct (resolveInfo laws info) as [law|]; [|done].
        rw abbrevSet_proto. by case_decide.
      * destruct (JsMap.get protoKey entries ≫= from_option (resolveInfo laws) None);
          [done|].
        destruct (resolveInfo laws info); [|done].
        rw abbrevSet_proto decide_False //.
  - by intros _ [[? [=]] _]%Forall_cons.
Qed.

Lemma fallbackStep_proto laws result e :
  a_proto (fallbackStep laws result e) = a_proto result.
Proof.
  destruct e as [a t]. unfold fallbackStep.
  destruct (abbrevTruthy result a) eqn:Ht; [done|].
  destruct (JsMap.get t (titleToLaw laws)); [|done].
  rw abbrevSet_proto decide_False //. intros ->. by rw abbrevTruthy_proto in Ht.
Qed.

Lemma fallback_spec laws fallback result abbrev :
  NoDup fallback.*1 →
  a_own (foldl (fallbackStep laws) result fallback) !! abbrev
  = (match a_own result !! abbrev with
     | Some law => Some law
     | None =>
         if abbrevTruthy result abbrev then None
         else JsMap.get abbrev fallback ≫= fun t => JsMap.get t (titleToLaw laws)
     end)
  ∧ a_proto (foldl (fallbackStep laws) result fallback) = a_proto result.
Proof.
  revert result; induction fallback as [|[a t] fallback IH]; intros result Hnd.
  - simpl. split; [|done]. destruct (a_own result !! abbrev); [done|].
    by destruct (abbrevTruthy result abbrev).
  - rw fmap_cons in Hnd. apply NoDup_cons in Hnd as [Ha Hnd]. cbn [foldl].
    destruct (IH (fallbackStep laws result (a, t)) Hnd) as [-> ->].
    split; [|apply fallbackStep_proto].
    assert (Hown : ∀ law, a_own result !! abbrev = Some law → abbrevTruthy result abbrev = true).
    { intros law Hlaw. unfold abbrevTruthy. case_decide as Hs; [done|].
      destruct Hs. by eexists. }
    unfold fallbackStep.
    destruct (decide (abbrev = a)) as [->|Hne]; simpl.
    + simpl in Ha. rw (jsmap_get_None a fallback Ha).
      destruct (decide (a = a)) as [_|?]; [simpl|done].
      destruct (abbrevTruthy result a) eqn:Ht; [by rw Ht|].
      destruct (a_own result !! a) as [law|] eqn:Hr; [by specialize (Hown law eq_refl)|].
      destruct (JsMap.get t (titleToLaw laws)) as [law|].
      * rw abbrevSet_own decide_True //. split; [done|]. intros ->.
        by rw abbrevTruthy_proto in Ht.
      * by rw Hr Ht.
    + assert (Hsame : a_own (if abbrevTruthy result a then result
                             else match JsMap.get t (titleToLaw laws) with
                                  | Some law => abbrevSet a law result
                                  | None => result
                                  end) !! abbrev = a_own result !! abbrev).
      { destruct (abbrevTruthy result a); [done|].
        destruct (JsMap.get t (titleToLaw laws)); [|done].
        rw abbrevSet_own decide_False //. by intros [-> _]. }
      pose proof (abbrevTruthy_same result _ abbrev Hsame
                    (fallbackStep_proto laws result (a, t))) as Htruthy.
      unfold fallbackStep in Htruthy. rw Hsame Htruthy. simpl.
      by destruct (decide (abbrev = a)).
Qed.

Lemma dynamicAbbreviations_null laws live dead result :
  Forall (fun e => is_Some e.2) live → (∀ e, head dead = Some e → e.2 = None) →
  dynamicAbbreviations laws (live ++ dead) result = dynamicAbbreviations laws live result.
Proof.
  intros Hlive Hdead. revert result.
  induction Hlive as [|[a o] live [info ?] _ IH]; intros result; simplify_eq/=.
  - destruct dead as [|[a o] dead]; [done|].
    by rw (Hdead (a, o) eq_refl : o = None).
  - apply IH.
Qed.

(** X15: the table [loadAbbreviations] returns, the own properties of
    [result]. The entries of [abbreviations.json] count up to the first
    whose value is [null] ([live]; the rest, [dead], is never read). An
    abbreviation other than [__proto__] stands for the law its entry among
    these names, when that law is in the registry ([law_id] before
    [full_name]: an entry whose [law_id] is set and not in the registry
    names no law, whatever its [full_name]); else for the law whose title
    the fallback table gives, unless [result] inherits a truthy value under
    the abbreviation: from [Object.prototype], or from the law that an
    entry [__proto__] has made the prototype of [result]. The table has no
    entry [__proto__], and every law in it is a law of the registry. *)
Theorem loadAbbreviations_dynamic_before_fallback
    (laws : list LawIndex) (live dead : list (jsstring * option Abbreviation))
    (fallback : list (jsstring * jsstring)) (abbrev : jsstring) :
  NoDup (live ++ dead).*1 → NoDup fallback.*1 →
  Forall (fun e => is_Some e.2) live → (∀ e, head dead = Some e → e.2 = None) →
  let result := loadAbbreviations laws (live ++ dead) fallback in
  let named key := JsMap.get key live ≫= from_option (resolveInfo laws) None in
  a_proto result = named protoKey
  ∧ a_own result !! abbrev
    = (if decide (abbrev = protoKey) then None
       else match named abbrev with
            | Some law => Some law
            | None =>
                if abbrevTruthy {| a_own := ∅; a_proto := named protoKey |} abbrev then None
                else JsMap.get abbrev fallback ≫= fun t => JsMap.get t (titleToLaw laws)
            end)
  ∧ ∀ law, a_own result !! abbrev = Some law → law ∈ laws.
Proof.
  intros Hnd Hndf Hall Hdead result named.
  rw fmap_app in Hnd. apply NoDup_app in Hnd as (Hnd & _ & _).
  set (r1 := dynamicAbbreviations laws live {| a_own := ∅; a_proto := None |}).
  assert (Hresult : result = foldl (fallbackStep laws) r1 fallback).
  { unfold result, loadAbbreviations. by rw dynamicAbbreviations_null. }
  pose proof (dynamicAbbreviations_spec laws live {| a_own := ∅; a_proto := None |}
                abbrev Hnd Hall) as [Hown Hproto].
  fold r1 in Hown, Hproto. simpl in Hown, Hproto.
  fold (named abbrev) in Hown. fold (named protoKey) in Hproto.
  rw lookup_empty in Hown.
  assert (Hproto' : a_proto r1 = named protoKey)
    by (rw Hproto; by destruct (named protoKey)).
  assert (Hown' : a_own r1 !! abbrev
                  = if decide (abbrev = protoKey) then None else named abbrev).
  { rw Hown. case_decide; [done|]. by destruct (named abbrev). }
  destruct (fallback_spec laws fallback r1 abbrev Hndf) as [Hfown Hfproto].
  assert (Hp : a_proto result = named protoKey) by (by rw Hresult Hfproto).
  assert (Hget : a_own result !! abbrev
                 = (if decide (abbrev = protoKey) then None
                    else match named abbrev with
                         | Some law => Some law
                         | None =>
                             if abbrevTruthy {| a_own := ∅; a_proto := named protoKey |} abbrev
                             then None
                             else JsMap.get abbrev fallback
                                    ≫= fun t => JsMap.get t (titleToLaw laws)
                         end)).
  { rw Hresult Hfown Hown'. case_decide as Habbrev.
    - subst. by rw abbrevTruthy_proto.
    - destruct (named abbrev) as [law|] eqn:Hnamed; [done|].
      rw (abbrevTruthy_same {| a_own := ∅; a_proto := named protoKey |} r1 abbrev); [done|..].
      + simpl. by rw Hown' lookup_empty.
      + done. }
  split_and!; [done|done|]. intros law. rw Hget.
  case_decide; [done|].
  destruct (named abbrev) as [law'|] eqn:Hdyn.
  - intros [= <-]. unfold named in Hdyn.
    destruct (JsMap.get abbrev live) as [[info|]|]; simpl in Hdyn; try done.
    unfold resolveInfo in Hdyn.
    destruct (truthy (law_id info)); [by apply findLaw_Some in Hdyn as [? _]|].
    case_bool_decide; [|done]. by eapply titleToLaw_elem.
  - destruct (abbrevTruthy {| a_own := ∅; a_proto := named protoKey |} abbrev); [done|].
    destruct (JsMap.get abbrev fallback) as [t|]; simpl; [|done].
    intros ?. by eapply titleToLaw_elem.
Qed.

Lemma loadAbbreviations_dynamic_before_fallback_witness :
  let live := [(Js.str "民", Some {| full_name := Js.str "会社法"; law_id := None |});
               (Js.str "__proto__", Some {| full_name := Js.str "商法"; law_id := None |})] in
  let dead := [(Js.str "商", None);
               (Js.str "会", Some {| full_name := Js.str "民法"; law_id := None |})] in
  let fallback := [(Js.str "民", Js.str "民法"); (Js.str "商", Js.str "商法");
                   (Js.str "title", Js.str "民法"); (Js.str "constructor", Js.str "民法")] in
  let table := a_own (loadAbbreviations sampleRegistry (live ++ dead) fallback) in
  (id <$> table !! Js.str "民") = Some (Js.str "B")
  ∧ (id <$> table !! Js.str "商") = Some (Js.str "C")
  ∧ table !! Js.str "会" = None
  ∧ table !! Js.str "title" = None
  ∧ table !! Js.str "constructor" = None
  ∧ table !! Js.str "__proto__" = None.
Proof.
  intros live dead fallback table.
  assert (Hnd : NoDup (live ++ dead).*1)
    by (apply (bool_decide_unpack (NoDup (live ++ dead).*1)); by vm_compute).
  assert (Hndf : NoDup fallback.*1)
    by (apply (bool_decide_unpack (NoDup fallback.*1)); by vm_compute).
  assert (Hlive : Forall (fun e => is_Some e.2) live) by (repeat constructor; by eexists).
  assert (Hdead : ∀ e, head dead = Some e → e.2 = None) by (by intros e [= <-]).
  pose proof (fun abbrev =>
                proj1 (proj2 (loadAbbreviations_dynamic_before_fallback sampleRegistry
                                live dead fallback abbrev Hnd Hndf Hlive Hdead))) as Hget.
  unfold table. split_and!; rw Hget; by vm_compute.
Defined.
End abbreviation_facts.

Section important_path_facts.
Import Extractor Graph Paths.

Lemma pathsLoop_spec laws outgoing lawMap c titles acc :
  ∃ new, pathsLoop laws outgoing lawMap (id c) titles acc = Some (acc ++ new)
    ∧ sublist (ip_to <$> new) titles
    ∧ (∀ p, p ∈ new →
         ip_from p = Js.str "日本国憲法" ∧ length (ip_path p) = ip_hops p + 1
         ∧ ∃ t, findByTitle laws (ip_to p) = Some t
              ∧ shortest (neighborsMap outgoing) (id c) (id t) (ip_hops p))
    ∧ (∀ t0 t n, t0 ∈ titles → findByTitle laws t0 = Some t →
         hops (neighborsMap outgoing) (id c) n (id t) → t0 ∈ ip_to <$> new).
Proof.
  revert acc; induction titles as [|t0 titles IH]; intros acc; simpl.
  - exists []. rw app_nil_r. split_and!; [done|done|by intros ? ?%elem_of_nil|].
    by intros ??? ?%elem_of_nil.
  - destruct (findByTitle laws t0) as [target|] eqn:Htarget.
    + destruct (findShortestPath_complete_spec (id c) (id target) outgoing)
        as (r & -> & Hr). simpl.
      destruct r as [result|].
      * destruct Hr as [Hwalk Hshort].
        destruct (IH (acc ++ [ {| ip_from := Js.str "日本国憲法"; ip_to := t0;
                                  ip_path := titleOrId lawMap <$> result;
                                  ip_hops := length result - 1 |} ]))
          as (new & -> & Hsub & Hall & Hfound).
        eexists (_ :: new). rw -app_assoc /=. split_and!; [done| |..].
        -- by apply sublist_skip.
        -- intros p [->|Hp]%elem_of_cons; [|by apply Hall]. simpl.
           split_and!; [done| |by exists target].
           rw length_fmap. by eapply walk_nonempty.
        -- intros t1 t n [->|Ht1]%elem_of_cons Ht Hn; [by left|].
           right. by eapply Hfound.
      * destruct (IH acc) as (new & -> & Hsub & Hall & Hfound).
        exists new. split_and!; [done|by apply sublist_cons|done|].
        intros t1 t n [->|Ht1]%elem_of_cons Ht Hn; [|by eapply Hfound].
        rw Htarget in Ht. injection Ht as <-. by apply Hr in Hn.
    + destruct (IH acc) as (new & -> & Hsub & Hall & Hfound).
      exists new. split_and!; [done|by apply sublist_cons|done|].
      intros t1 t n [->|Ht1]%elem_of_cons Ht Hn; [congruence|by eapply Hfound].
Qed.

(** X16: [computeImportantPaths] always ends. Its paths go to the
    titles of [targetLaws], in that order and at most one to a title; the
    [hops] of a path is the least number of citations that lead from the
    first law titled 日本国憲法 to the first law with the target's title,
    and its [path] has one name more than that. A target title is left out
    only when no law has the title or no chain of citations leads to it,
    or when the id of the law titled 日本国憲法 is the empty string (the
    paths are computed under [if (constitutionId)]). *)
Theorem computeImportantPaths_shortest_hops
    (laws : list LawIndex) (outgoing : gmap jsstring (list (jsstring * nat)))
    (lawMap : list (jsstring * LawIndex)) :
  ∃ paths, computeImportantPaths laws outgoing lawMap = Some paths
    ∧ sublist (ip_to <$> paths) targetLaws
    ∧ (∀ p, p ∈ paths →
         ip_from p = Js.str "日本国憲法" ∧ length (ip_path p) = ip_hops p + 1
         ∧ ∃ c t, findByTitle laws (Js.str "日本国憲法") = Some c
              ∧ findByTitle laws (ip_to p) = Some t
              ∧ shortest (neighborsMap outgoing) (id c) (id t) (ip_hops p))
    ∧ (∀ c t0 t n, findByTitle laws (Js.str "日本国憲法") = Some c → id c ≠ [] →
         t0 ∈ targetLaws → findByTitle laws t0 = Some t →
         hops (neighborsMap outgoing) (id c) n (id t) → t0 ∈ ip_to <$> paths).
Proof.
  unfold computeImportantPaths.
  destruct (findByTitle laws (Js.str "日本国憲法")) as [c|] eqn:Hc.
  - case_bool_decide as Hid.
    + destruct (pathsLoop_spec laws outgoing lawMap c targetLaws [])
        as (new & -> & Hsub & Hall & Hfound).
      exists new. split_and!; [done|done| |].
      * intros p Hp. destruct (Hall p Hp) as (? & ? & t & ? & ?).
        split_and!; [done|done|]. by exists c, t.
      * intros c' t0 t n [= <-] _. apply Hfound.
    + exists []. split_and!; [done|apply sublist_nil_l|by intros ? ?%elem_of_nil|].
      by intros c' ??? [= <-].
  - exists []. split_and!; [done|apply sublist_nil_l|by intros ? ?%elem_of_nil|done].
Qed.
End important_path_facts.
